(** * Audio-Translator: the request orchestration of [app.py]

    A shallow embedding of [TranslationBot] ([load_model], [process_audio],
    [handle_audio], [handle_video]) and the properties of its temporary
    files, its error replies, its acknowledgment message and its lazily
    loaded model.

    The external collaborators (chat transport, pydub, faster-whisper,
    googletrans, gTTS, moviepy, ffmpeg) are oracles gathered in [env]: each
    call site may raise, and what a call returns when it does not raise is a
    function of its arguments.  One request is followed from the first line
    of its handler to the last; [Module Interleave] follows several
    [load_model] calls statement by statement.

    Line 64 of [app.py] lacks the parenthesis that closes
    [run_in_executor(]; the embedding reads the call as closed after the
    lambda, like its sibling at lines 69-71. *)

From Stdlib Require Import ZArith.
From stdpp Require Import functions gmap strings pretty list fin_maps.

Open Scope string_scope.
Open Scope list_scope.

(** ** Python values *)

(** Raised objects.  [Exception_] stands for the instances of [Exception]
    (what [except Exception] catches); [BaseException_] for the others
    ([CancelledError], [KeyboardInterrupt], [SystemExit]). *)
Inductive exn :=
| Exception_ (cls msg : string)
| BaseException_ (cls : string).

Definition is_Exception (e : exn) : bool :=
  match e with Exception_ _ _ => true | BaseException_ _ => false end.

(** [str(e)], as interpolated by the f-strings of the log calls. *)
Definition str_exn (e : exn) : string :=
  match e with Exception_ _ msg => msg | BaseException_ _ => EmptyString end.

(** [AttributeError] of an attribute looked up on [None]. *)
Definition NoneType_has_no (attr : string) : exn :=
  Exception_ "AttributeError"
    ("'NoneType' object has no attribute '" +:+ attr +:+ "'").

Definition FileNotFoundError (name : string) : exn :=
  Exception_ "FileNotFoundError" ("No such file or directory: '" +:+ name +:+ "'").

Inductive outcome (A : Type) :=
| Ok (a : A)
| Raise (e : exn).
Arguments Ok {A} a.
Arguments Raise {A} e.

(** pydub's [AudioSegment], by its parameters. *)
Record AudioSegment := mkAudio {
  frame_rate : Z;
  channels : Z;
  sample_width : Z;
  duration_ms : Z
}.

(** [AudioSegment.set_frame_rate] and [AudioSegment.set_channels]: the segment
    itself when the parameter already has the value, a resampled (remixed)
    copy with the new parameter otherwise. *)
Definition set_frame_rate (r : Z) (a : AudioSegment) : AudioSegment :=
  if decide (r = frame_rate a) then a
  else mkAudio r (channels a) (sample_width a) (duration_ms a).

Definition set_channels (c : Z) (a : AudioSegment) : AudioSegment :=
  if decide (c = channels a) then a
  else mkAudio (frame_rate a) c (sample_width a) (duration_ms a).

(** faster-whisper's [Segment] and [TranscriptionInfo]. *)
Record Segment := mkSegment {
  seg_id : nat;
  seg_start_ms : Z;
  seg_end_ms : Z;
  text : string
}.

Record TranscriptionInfo := mkInfo { language : string }.

(** The arguments [WhisperModel] is constructed with. *)
Record WhisperModel := mkModel {
  model_size : string;
  device : string;
  compute_type : string;
  download_root : string
}.

(** googletrans' [Translated]. *)
Record Translated := mkTranslated {
  tr_src : string;
  tr_dest : string;
  tr_origin : string;
  tr_text : string
}.

(** ** Temporary files *)

(** A name handed out by [tempfile]: a stem unique in the directory and the
    suffix that was asked for. *)
Definition path : Type := nat * string.
Definition path_stem (p : path) : nat := fst p.
Definition path_suffix (p : path) : string := snd p.
Definition path_name (p : path) : string :=
  "/tmp/tmp" +:+ pretty (path_stem p) +:+ path_suffix p.

Inductive content :=
| Blank                               (* as created, nothing written *)
| Blob (data : string)                (* media bytes served by the chat or left by ffmpeg *)
| Wav (a : AudioSegment)              (* PCM audio written by pydub or moviepy *)
| Mp3 (speech lang : string).         (* speech written by gTTS *)

(** ** The chat *)

Inductive body :=
| Text (t : string)
| Audio (audio : content) (title performer : string)
| Video (video : content) (supports_streaming : bool) (caption : string).

Record Message := mkMessage { message_id : nat }.

(** An attachment of the inbound message: [message.audio], [message.video]. *)
Record Attachment := mkAttachment { file_id : string }.

Record Update := mkUpdate {
  audio : option Attachment;
  video : option Attachment
}.

(** ** Call sites and events *)

(** The external calls of the two handlers, by the line they are on
    (audio handler / video handler). *)
Inductive site :=
| AckSend        (* 80 / 113  update.message.reply_text("... Processing ...") *)
| Construct      (* 38        WhisperModel(...) *)
| MkDownload     (* 85 / 119  NamedTemporaryFile(suffix=".ogg" / ".mp4") *)
| MkExtracted    (* 120       NamedTemporaryFile(suffix=".wav") *)
| GetFile        (* 87 / 123  get_file() *)
| Download       (* 88 / 124  download_to_drive(...) *)
| ExtractAudio   (* 127-130   VideoFileClip(...).audio.write_audiofile(...) *)
| Decode         (* 54        AudioSegment.from_file(...) *)
| Convert        (* 55        set_frame_rate(16000).set_channels(1) *)
| MkWav          (* 58        NamedTemporaryFile(suffix=".wav", delete=False) *)
| Export         (* 59        audio.export(..., format="wav") *)
| Transcribe     (* 62-64     self.model.transcribe(...) *)
| Translate      (* 69-71     self.translator.translate(...) *)
| MkSpeech       (* 94 / 136  NamedTemporaryFile(suffix=".mp3") *)
| MkOutput       (* 137       NamedTemporaryFile(suffix=".mp4") *)
| Synthesize     (* 95-97 / 140-142  gTTS(...).save(...) *)
| Mux            (* 146-148   os.system(cmd) *)
| Send           (* 100 / 151 reply_audio(...) / reply_video(...) *)
| ErrorSend      (* 107 / 158 update.message.reply_text("... Error ...") *)
| AckDelete.     (* 109 / 160 processing_msg.delete() *)

Global Instance site_eq_dec : EqDecision site.
Proof. solve_decision. Defined.

Inductive arg :=
| Str (s : string)
| Name (p : path)
| Int (z : Z).

Inductive event :=
| Call (s : site) (args : list arg)   (* an external call is made *)
| Fault (s : site) (e : exn)          (* ... and raised *)
| Created (p : path)                  (* a temporary file now exists *)
| Wrote (p : path) (c : content)      (* a file now holds [c] *)
| Unlinked (p : path)                 (* a file no longer exists *)
| Sent (m : Message) (b : body)       (* the chat shows a new message *)
| Deleted (m : Message)               (* the chat no longer shows it *)
| Logged (level text : string).

(** ** State *)

(** The fields of [TranslationBot] that change ([__init__], lines 22-27).
    [translator] and [executor] are handles to the oracles; [model_lock] is
    free whenever a handler runs [load_model] (its critical section has no
    [await]) and is explicit in [Module Interleave]. *)
Record TranslationBot := mkBot {
  model : option WhisperModel;
  model_loaded : bool
}.

Record world := mkWorld {
  self : TranslationBot;
  files : gmap path content;          (* the temporary directory *)
  next_message_id : nat               (* ids the chat hands out *)
}.

Definition set_self (f : TranslationBot → TranslationBot) (w : world) : world :=
  mkWorld (f (self w)) (files w) (next_message_id w).
Definition set_files (f : gmap path content → gmap path content) (w : world) : world :=
  mkWorld (self w) (f (files w)) (next_message_id w).
Definition set_next_message_id (n : nat) (w : world) : world :=
  mkWorld (self w) (files w) n.

(** ** The oracles *)

Record env := mkEnv {
  faults : site → option exn;                         (* which call raises, and what *)
  served : string → content;                          (* bytes the chat serves for a file id *)
  decoded : content → AudioSegment;                   (* pydub on a media file *)
  recognized : content → list Segment * TranscriptionInfo;  (* faster-whisper on a file *)
  translated : string → string;                       (* googletrans, uz to en *)
  clip_audio : content → option AudioSegment;         (* moviepy: the audio of a clip, if any *)
  mux_status : Z;                                     (* what os.system returns *)
  mux_output : option content                         (* what ffmpeg leaves at the output path *)
}.

(** ** The monad: state, exceptions, events *)

Definition Mon (S A : Type) : Type := S → outcome A * S * list event.

Global Instance Mon_ret {S} : MRet (Mon S) := λ A a s, (Ok a, s, []).

Global Instance Mon_bind {S} : MBind (Mon S) := λ A B k m s,
  match m s with
  | (Ok a, s1, ev1) =>
      match k a s1 with (r, s2, ev2) => (r, s2, ev1 ++ ev2) end
  | (Raise e, s1, ev1) => (Raise e, s1, ev1)
  end.

Definition raise {S A} (e : exn) : Mon S A := λ s, (Raise e, s, []).
Definition emit {S} (ev : event) : Mon S unit := λ s, (Ok tt, s, [ev]).
Definition get {S} : Mon S S := λ s, (Ok s, s, []).
Definition modify {S} (f : S → S) : Mon S unit := λ s, (Ok tt, f s, []).

(** [try: m  except Exception as e: h e].  A raised object that is not an
    [Exception] passes through. *)
Definition try_except {S A} (m : Mon S A) (h : exn → Mon S A) : Mon S A := λ s,
  match m s with
  | (Ok a, s1, ev1) => (Ok a, s1, ev1)
  | (Raise e, s1, ev1) =>
      if is_Exception e then
        match h e s1 with (r, s2, ev2) => (r, s2, ev1 ++ ev2) end
      else (Raise e, s1, ev1)
  end.

(** [try: m  finally: f].  [f] runs on every way out of [m]; what [f] raises
    replaces the outcome of [m]. *)
Definition try_finally {S A} (m : Mon S A) (f : Mon S unit) : Mon S A := λ s,
  match m s with
  | (r, s1, ev1) =>
      match f s1 with
      | (Ok _, s2, ev2) => (r, s2, ev1 ++ ev2)
      | (Raise e, s2, ev2) => (Raise e, s2, ev1 ++ ev2)
      end
  end.

(** A function called with a frame of locals [L] of its own. *)
Definition lift {L A} (m : Mon world A) : Mon (world * L) A := λ s,
  match m (fst s) with (r, w, ev) => (r, (w, snd s), ev) end.
Definition in_frame {L A} (init : L) (m : Mon (world * L) A) : Mon world A := λ w,
  match m (w, init) with (r, s, ev) => (r, fst s, ev) end.
Definition locals {L} : Mon (world * L) L := λ s, (Ok (snd s), s, []).
Definition bind_local {L} (l : L) : Mon (world * L) unit := λ s, (Ok tt, (fst s, l), []).

Definition result {S A} (x : outcome A * S * list event) : outcome A := fst (fst x).
Definition final {S A} (x : outcome A * S * list event) : S := snd (fst x).
Definition events {S A} (x : outcome A * S * list event) : list event := snd x.

(** ** The external calls *)

Section Bot.
Context (E : env).

(** A call at site [s]: it raises what the oracle says, or has the effect
    [k].  [await loop.run_in_executor(executor, lambda: f())] hands the
    result of [f()], or what it raised, to the awaiting handler, and is
    embedded as the call of [f]. *)
Definition call {S A} (s : site) (args : list arg) (k : Mon S A) : Mon S A := λ st,
  match faults E s with
  | Some e => (Raise e, st, [Call s args; Fault s e])
  | None => match k st with (r, st1, ev) => (r, st1, Call s args :: ev) end
  end.

Definition log {S} (level text : string) : Mon S unit := emit (Logged level text).

(** *** tempfile and os *)

Definition fresh_path (sfx : string) (fs : gmap path content) : path :=
  (fresh (set_map (D:=gset nat) path_stem (dom fs)), sfx).

Definition NamedTemporaryFile (s : site) (sfx : string) : Mon world path :=
  call s [Str sfx]
    (w ← get;
     let p := fresh_path sfx (files w) in
     modify (set_files (insert p Blank));;
     emit (Created p);;
     mret p).

Definition path_exists (p : path) : Mon world bool :=
  w ← get; mret (bool_decide (is_Some (files w !! p))).

Definition unlink (p : path) : Mon world unit :=
  w ← get;
  match files w !! p with
  | Some _ => modify (set_files (delete p));; emit (Unlinked p)
  | None => raise (FileNotFoundError (path_name p))
  end.

(** Leaving the [with] block of a [NamedTemporaryFile]: the file is closed
    and, with [delete=True], removed if it is still there. *)
Definition close_temporary (delete : bool) (p : path) : Mon world unit :=
  if delete then
    b ← path_exists p; if b : bool then unlink p else mret tt
  else mret tt.

(** [with NamedTemporaryFile(suffix=sfx) as f: body f] *)
Definition with_NamedTemporaryFile {A} (s : site) (sfx : string)
    (body : path → Mon world A) : Mon world A :=
  f ← NamedTemporaryFile s sfx;
  try_finally (body f) (close_temporary true f).

(** [open(name, 'wb').write(c)], as the libraries do on an output path *)
Definition write_file (p : path) (c : content) : Mon world unit :=
  modify (set_files (insert p c));; emit (Wrote p c).

(** [open(name, 'rb')] *)
Definition read_file (p : path) : Mon world content :=
  w ← get;
  match files w !! p with
  | Some c => mret c
  | None => raise (FileNotFoundError (path_name p))
  end.

(** *** The chat transport *)

Definition send (s : site) (args : list arg) (b : body) : Mon world Message :=
  call s args
    (w ← get;
     let m := mkMessage (next_message_id w) in
     modify (set_next_message_id (S (next_message_id w)));;
     emit (Sent m b);;
     mret m).

Definition reply_text (s : site) (t : string) : Mon world Message :=
  send s [Str t] (Text t).

Definition reply_audio (a : content) (title performer : string) : Mon world Message :=
  send Send [Str title; Str performer] (Audio a title performer).

Definition reply_video (v : content) (supports_streaming : bool) (caption : string)
    : Mon world Message :=
  send Send [Str caption] (Video v supports_streaming caption).

Definition delete_message (m : Message) : Mon world unit :=
  call AckDelete [Int (Z.of_nat (message_id m))] (emit (Deleted m)).

(** [attachment.get_file()] on [message.audio] or [message.video] *)
Definition get_file (attachment : option Attachment) : Mon world string :=
  match attachment with
  | None => raise (NoneType_has_no "get_file")
  | Some a => call GetFile [Str (file_id a)] (mret (file_id a))
  end.

Definition download_to_drive (file : string) (p : path) : Mon world unit :=
  call Download [Str file; Name p] (write_file p (served E file)).

(** *** The media libraries *)

(** [AudioSegment.from_file(name)], line 54 *)
Definition from_file (p : path) : Mon world AudioSegment :=
  call Decode [Name p] (c ← read_file p; mret (decoded E c)).

(** [audio.set_frame_rate(16000).set_channels(1)], line 55 *)
Definition normalize (a : AudioSegment) : Mon world AudioSegment :=
  call Convert [Int 16000; Int 1] (mret (set_channels 1 (set_frame_rate 16000 a))).

(** [audio.export(name, format="wav")], line 59 *)
Definition export (a : AudioSegment) (p : path) (format : string) : Mon world unit :=
  call Export [Name p; Str format] (write_file p (Wav a)).

(** [list(self.model.transcribe(name))], lines 62-64: the pair of the
    segments and the info *)
Definition transcribe (p : path) : Mon world (list Segment * TranscriptionInfo) :=
  call Transcribe [Name p]
    (w ← get;
     match model (self w) with
     | None => raise (NoneType_has_no "transcribe")
     | Some _ => c ← read_file p; mret (recognized E c)
     end).

(** [self.translator.translate(text, src=..., dest=...)], lines 69-71 *)
Definition translate (t src dest : string) : Mon world Translated :=
  call Translate [Str t; Str src; Str dest]
    (mret (mkTranslated src dest t (translated E t))).

(** [gTTS(text, lang=lang).save(name)], lines 95-97 and 140-142 *)
Definition gTTS_save (t lang : string) (p : path) : Mon world unit :=
  call Synthesize [Str t; Str lang; Name p] (write_file p (Mp3 t lang)).

(** [mp.VideoFileClip(video).audio.write_audiofile(out, codec=...)],
    lines 127-130.  A clip without an audio track has [audio] set to [None]. *)
Definition extract_audio (video_path out : path) (codec : string) : Mon world unit :=
  call ExtractAudio [Name video_path; Name out; Str codec]
    (c ← read_file video_path;
     match clip_audio E c with
     | None => raise (NoneType_has_no "write_audiofile")
     | Some a => write_file out (Wav a)
     end).

(** [os.system(cmd)], lines 146-148: ffmpeg leaves what it leaves at the
    output path and the call returns the exit status. *)
Definition os_system (cmd : string) (output : path) : Mon world Z :=
  call Mux [Str cmd]
    (match mux_output E with
     | Some c => write_file output c
     | None => mret tt
     end;;
     mret (mux_status E)).

(** ** [TranslationBot] *)

Definition set_model (m : option WhisperModel) (b : TranslationBot) : TranslationBot :=
  mkBot m (model_loaded b).
Definition set_model_loaded (l : bool) (b : TranslationBot) : TranslationBot :=
  mkBot (model b) l.

(** [WhisperModel("small", device="cpu", compute_type="int8",
    download_root="./models")], lines 38-43 *)
Definition new_WhisperModel : Mon world WhisperModel :=
  let m := mkModel "small" "cpu" "int8" "./models" in
  call Construct [Str (model_size m); Str (device m); Str (compute_type m);
                  Str (download_root m)]
    (mret m).

(** [load_model], lines 29-48.  [async with self.model_lock] takes the free
    lock without suspending and gives it back on every way out. *)
Definition load_model : Mon world unit :=
  w ← get;
  if model_loaded (self w) then mret tt
  else
    w ← get;
    if negb (model_loaded (self w)) then
      try_except
        (log "INFO" "Loading Whisper model...";;
         m ← new_WhisperModel;
         modify (set_self (set_model (Some m)));;
         modify (set_self (set_model_loaded true));;
         log "INFO" "Model loaded successfully")
        (λ e, log "ERROR" ("Failed to load model: " +:+ str_exn e);;
              raise e)
    else mret tt.

(** Line 66: [" ".join([segment.text for segment in segments])] *)
Definition transcript (segments : list Segment) : string :=
  String.concat " " (map text segments).

(** Lines 62-73 of [process_audio]: transcription, then translation. *)
Definition transcribe_and_translate (wav_file : path) : Mon world string :=
  '(segments, _) ← transcribe wav_file;
  let text := transcript segments in
  translation ← translate text "uz" "en";
  mret (tr_text translation).

(** The [try] block of [process_audio], lines 53-73.  The frame holds
    [wav_file], bound by the [with] of line 58; the file is made with
    [delete=False], so leaving the [with] block only closes it. *)
Definition process_audio_try (audio_file : path) : Mon (world * option path) string :=
  audio ← lift (from_file audio_file);
  audio ← lift (normalize audio);
  wav_file ← lift (NamedTemporaryFile MkWav ".wav");
  bind_local (Some wav_file);;
  lift (export audio wav_file "wav");;
  lift (transcribe_and_translate wav_file).

(** The [finally] block of [process_audio], lines 75-76:
    [if 'wav_file' in locals() and os.path.exists(wav_file.name)] *)
Definition process_audio_finally : Mon (world * option path) unit :=
  l ← locals;
  match l with
  | Some wav_file =>
      b ← lift (path_exists wav_file);
      if b : bool then lift (unlink wav_file) else mret tt
  | None => mret tt
  end.

(** [process_audio], lines 50-76 *)
Definition process_audio (audio_file : path) : Mon world string :=
  in_frame (None : option path)
    (try_finally (process_audio_try audio_file) process_audio_finally).

Definition audio_error : string := "❌ Error processing audio. Please try again.".
Definition video_error : string := "❌ Error processing video. Please try again.".

(** The [try] block of [handle_audio], lines 83-104 *)
Definition audio_attempt (update : Update) : Mon world unit :=
  load_model;;
  with_NamedTemporaryFile MkDownload ".ogg" (λ temp_audio,
    audio_file ← get_file (audio update);
    download_to_drive audio_file temp_audio;;
    translated_text ← process_audio temp_audio;
    with_NamedTemporaryFile MkSpeech ".mp3" (λ output_file,
      gTTS_save translated_text "en" output_file;;
      f ← read_file output_file;
      reply_audio f "Translated Audio" "Translation Bot";;
      mret tt)).

(** [handle_audio], lines 78-109 *)
Definition handle_audio (update : Update) : Mon world unit :=
  processing_msg ← reply_text AckSend "🔊 Processing audio...";
  try_finally
    (try_except
       (audio_attempt update)
       (λ e, log "ERROR" ("Audio processing error: " +:+ str_exn e);;
             reply_text ErrorSend audio_error;;
             mret tt))
    (delete_message processing_msg).

(** Line 145: the ffmpeg command *)
Definition ffmpeg_cmd (temp_video tts_file output_file : path) : string :=
  "ffmpeg -y -i " +:+ path_name temp_video +:+ " -i " +:+ path_name tts_file
  +:+ " -c:v copy -map 0:v:0 -map 1:a:0 -shortest " +:+ path_name output_file.

(** The [try] block of [handle_video], lines 116-155 *)
Definition video_attempt (update : Update) : Mon world unit :=
  load_model;;
  with_NamedTemporaryFile MkDownload ".mp4" (λ temp_video,
    with_NamedTemporaryFile MkExtracted ".wav" (λ temp_audio,
      video_file ← get_file (video update);
      download_to_drive video_file temp_video;;
      extract_audio temp_video temp_audio "pcm_s16le";;
      translated_text ← process_audio temp_audio;
      with_NamedTemporaryFile MkSpeech ".mp3" (λ tts_file,
        with_NamedTemporaryFile MkOutput ".mp4" (λ output_file,
          gTTS_save translated_text "en" tts_file;;
          let cmd := ffmpeg_cmd temp_video tts_file output_file in
          os_system cmd output_file;;
          f ← read_file output_file;
          reply_video f true "Translated Video";;
          mret tt)))).

(** [handle_video], lines 111-160 *)
Definition handle_video (update : Update) : Mon world unit :=
  processing_msg ← reply_text AckSend "🎥 Processing video...";
  try_finally
    (try_except
       (video_attempt update)
       (λ e, log "ERROR" ("Video processing error: " +:+ str_exn e);;
             reply_text ErrorSend video_error;;
             mret tt))
    (delete_message processing_msg).

End Bot.

(** ** Sample runs *)

Definition no_faults : site → option exn := λ _, None.

Definition fault_at (s : site) (e : exn) : site → option exn :=
  λ s', if decide (s' = s) then Some e else None.

Definition sample_segments : list Segment :=
  [mkSegment 0 0 900 "salom"; mkSegment 1 900 2000 "dunyo"].

Definition sample_env (f : site → option exn) : env :=
  mkEnv f (λ id, Blob id) (λ _, mkAudio 48000 2 2 5000)
    (λ _, (sample_segments, mkInfo "uz"))
    (λ t, if decide (t = "salom dunyo") then "hello world" else EmptyString)
    (λ _, Some (mkAudio 44100 2 2 5000)) 0 (Some (Blob "muxed")).

(** Oracles that recognise nothing (silence), and oracles for a clip
    without an audio track. *)
Definition silence_env : env :=
  mkEnv no_faults (λ id, Blob id) (λ _, mkAudio 48000 2 2 5000)
    (λ _, ([], mkInfo "uz")) (λ t, t)
    (λ _, Some (mkAudio 44100 2 2 5000)) 0 (Some (Blob "muxed")).

Definition mute_clip_env : env :=
  mkEnv no_faults (λ id, Blob id) (λ _, mkAudio 48000 2 2 5000)
    (λ _, (sample_segments, mkInfo "uz")) (λ t, t)
    (λ _, None) 0 (Some (Blob "muxed")).

Definition boom : exn := Exception_ "RuntimeError" "boom".

Definition fresh_bot : TranslationBot := mkBot None false.
Definition small_model : WhisperModel := mkModel "small" "cpu" "int8" "./models".
Definition voice_path : path := (0, ".ogg").
Definition loaded_world : world :=
  mkWorld (mkBot (Some small_model) true) {[ voice_path := Blob "voice-1" ]} 0.
Definition empty_world : world := mkWorld fresh_bot ∅ 0.
Definition audio_update : Update := mkUpdate (Some (mkAttachment "voice-1")) None.
Definition video_update : Update := mkUpdate None (Some (mkAttachment "clip-1")).

(** ** Several [load_model] calls at once *)

(** asyncio switches between handlers only where one of them awaits.  The
    schedules below switch between any two statements of [load_model], which
    covers every switch asyncio can make, and give [model_lock] its holder. *)
Module Interleave.

(** Where one call of [load_model] stands. *)
Inductive pc :=
| L31                            (* at [if self.model_loaded] *)
| L34                            (* at [async with self.model_lock], lock not yet held *)
| L35                            (* at [if not self.model_loaded], lock held *)
| L38                            (* at [WhisperModel(...)] *)
| L38_store (m : WhisperModel)   (* at the assignment [self.model = ...] *)
| L44                            (* at [self.model_loaded = True] *)
| L48 (e : exn)                  (* at [raise] of the except clause *)
| Exit_return                    (* leaving the [async with] block normally *)
| Exit_raise (e : exn)           (* leaving the [async with] block with [e] *)
| Returned
| Raised (e : exn).

(** The statements at which the call holds [model_lock]. *)
Definition holds_lock (p : pc) : bool :=
  match p with
  | L35 | L38 | L38_store _ | L44 | L48 _ | Exit_return | Exit_raise _ => true
  | L31 | L34 | Returned | Raised _ => false
  end.

Record state := mkState {
  bot : TranslationBot;
  lock : option nat;                       (* the call that holds [model_lock] *)
  calls : nat → pc;                        (* every call, by its number *)
  constructions : list (nat * option exn)  (* [WhisperModel(...)] calls, newest
                                              first: who called, what it raised *)
}.

Definition goto (i : nat) (p : pc) (s : state) : state :=
  mkState (bot s) (lock s) (<[i := p]> (calls s)) (constructions s).

(** Call [i] executes its next statement; [o] is what [WhisperModel(...)]
    raises, should that be the statement. *)
Definition step (i : nat) (o : option exn) (s : state) : state :=
  match calls s i with
  | L31 => if model_loaded (bot s) then goto i Returned s else goto i L34 s
  | L34 =>
      match lock s with
      | None => mkState (bot s) (Some i) (<[i := L35]> (calls s)) (constructions s)
      | Some _ => s
      end
  | L35 => if negb (model_loaded (bot s)) then goto i L38 s else goto i Exit_return s
  | L38 =>
      let p := match o with
               | None => L38_store (mkModel "small" "cpu" "int8" "./models")
               | Some e => if is_Exception e then L48 e else Exit_raise e
               end in
      mkState (bot s) (lock s) (<[i := p]> (calls s)) ((i, o) :: constructions s)
  | L38_store m =>
      mkState (set_model (Some m) (bot s)) (lock s) (<[i := L44]> (calls s))
        (constructions s)
  | L44 =>
      mkState (set_model_loaded true (bot s)) (lock s) (<[i := Exit_return]> (calls s))
        (constructions s)
  | L48 e => goto i (Exit_raise e) s
  | Exit_return => mkState (bot s) None (<[i := Returned]> (calls s)) (constructions s)
  | Exit_raise e => mkState (bot s) None (<[i := Raised e]> (calls s)) (constructions s)
  | Returned | Raised _ => s
  end.

Definition schedule : Type := list (nat * option exn).

Definition run_schedule (sch : schedule) (s : state) : state :=
  foldl (λ s x, step (fst x) (snd x) s) s sch.

(** No call has started, the model is not loaded, the lock is free. *)
Definition init : state := mkState fresh_bot None (λ _, L31) [].

Definition succeeded (c : nat * option exn) : bool :=
  match snd c with None => true | Some _ => false end.

(** The model is built: the flag is set, or the holder of the lock stands
    between a constructor call that returned and the setting of the flag. *)
Definition pending (p : pc) : bool :=
  match p with L38_store _ | L44 => true | _ => false end.

Definition built (s : state) : bool :=
  model_loaded (bot s) ||
  match lock s with Some i => pending (calls s i) | None => false end.

Definition invariant (s : state) : Prop :=
  (∀ i, holds_lock (calls s i) = true ↔ lock s = Some i) ∧
  (∀ i, calls s i = L38 → model_loaded (bot s) = false) ∧
  match constructions s with
  | [] => built s = false
  | c :: rest => built s = succeeded c ∧ Forall (λ c, succeeded c = false) rest
  end.

(** Two calls one after the other; the constructor raises in the first. *)
Definition retry_schedule : schedule :=
  let boom := Some (Exception_ "RuntimeError" "out of memory") in
  replicate 6 (0, boom) ++ replicate 7 (1, None).

End Interleave.

(** ** Vocabulary of the statements *)

(** The transcript as the specification words it: the texts in segment order,
    a single space before every text but the first. *)
Definition spaced_texts (segments : list Segment) : string :=
  match segments with
  | [] => EmptyString
  | s :: rest => foldl (λ acc s', acc +:+ " " +:+ text s') (text s) rest
  end.

(** What the chat was sent, what was created and written, which messages
    were deleted, and the calls made at a site. *)
Definition sent (evs : list event) : list body :=
  omap (λ ev, match ev with Sent _ b => Some b | _ => None end) evs.
Definition created (evs : list event) : list path :=
  omap (λ ev, match ev with Created p => Some p | _ => None end) evs.
Definition written (evs : list event) : list (path * content) :=
  omap (λ ev, match ev with Wrote p c => Some (p, c) | _ => None end) evs.
Definition deleted (evs : list event) : list Message :=
  omap (λ ev, match ev with Deleted m => Some m | _ => None end) evs.
Definition calls_at (s : site) (evs : list event) : list (list arg) :=
  omap (λ ev, match ev with
              | Call s' a => if decide (s' = s) then Some a else None
              | _ => None
              end) evs.

(** The arguments the constructor of the model is called with. *)
Definition construct_args : list arg :=
  [Str "small"; Str "cpu"; Str "int8"; Str "./models"].

(** The calls outside the [try] block of a handler. *)
Definition chat_edge (s : site) : bool :=
  match s with AckSend | ErrorSend | AckDelete => true | _ => false end.

(** The stages named by the error taxonomy. *)
Definition pipeline_stage (s : site) : bool :=
  match s with
  | Construct | Decode | Convert | ExtractAudio | Export | Transcribe | Translate
  | Synthesize | Mux => true
  | _ => false
  end.

(** Events a [try] block may have: no call of the handler's edges, no text
    message, no deletion. *)
Definition within_try (ev : event) : bool :=
  match ev with
  | Deleted _ | Sent _ (Text _) => false
  | Call s _ | Fault s _ => negb (chat_edge s)
  | _ => true
  end.

(** ... and nothing sent at all. *)
Definition quiet (ev : event) : bool :=
  match ev with
  | Sent _ _ => false
  | _ => within_try ev
  end.

(** Events of the file system and the log only. *)
Definition plain (ev : event) : bool :=
  match ev with
  | Created _ | Wrote _ _ | Unlinked _ | Logged _ _ => true
  | _ => false
  end.

(** A computation whose faults are the exceptions it ends with. *)
Definition faithful {S A} (m : Mon S A) : Prop :=
  ∀ s st e, In (Fault st e) (events (m s)) → result (m s) = Raise e.

(** A faithful computation all of whose events pass [Q]. *)
Definition obeys {S A} (Q : event → bool) (m : Mon S A) : Prop :=
  faithful m ∧ ∀ s, Forall (λ ev, Q ev = true) (events (m s)).

(** A [try] block that sends, if at all, as its last act. *)
Definition orderly {S A} (m : Mon S A) : Prop :=
  obeys within_try m ∧
  ∀ s e, result (m s) = Raise e → Forall (λ ev, quiet ev = true) (events (m s)).

(** A computation that leaves the state as it found it. *)
Definition stateless {S A} (m : Mon S A) : Prop := ∀ s, final (m s) = s.

(** A finalizer: it ends normally and only touches files and the log. *)
Definition harmless {S} (f : Mon S unit) : Prop :=
  ∀ s, result (f s) = Ok tt ∧ Forall (λ ev, plain ev = true) (events (f s)).

(** A computation that leaves every file outside [X] as it found it. *)
Definition keeps {S A : Type} (fs : S → gmap path content) (X : gset path) (m : Mon S A) : Prop :=
  ∀ s q, q ∉ X → fs (final (m s)) !! q = fs s !! q.

(** The frame both handlers share: acknowledge, [try] the attempt, on an
    [Exception] log it and reply with the fixed text, and [finally] delete
    the acknowledgment. *)
Definition guarded (E : env) (ack log_prefix err : string) (attempt : Mon world unit)
    : Mon world unit :=
  processing_msg ← reply_text E AckSend ack;
  try_finally
    (try_except attempt
       (λ e, log "ERROR" (log_prefix +:+ str_exn e);;
             reply_text E ErrorSend err;;
             mret tt))
    (delete_message E processing_msg).

(** What the [except] clause adds to the events, given how the attempt ended
    and the next message id. *)
Definition recovery_events (E : env) (log_prefix err : string) (r : outcome unit)
    (next : nat) : list event :=
  match r with
  | Ok _ => []
  | Raise e =>
      if is_Exception e then
        Logged "ERROR" (log_prefix +:+ str_exn e) ::
        Call ErrorSend [Str err] ::
        match faults E ErrorSend with
        | Some e' => [Fault ErrorSend e']
        | None => [Sent (mkMessage next) (Text err)]
        end
      else []
  end.

(** What the [finally] clause adds. *)
Definition farewell_events (E : env) (m : Message) : list event :=
  Call AckDelete [Int (Z.of_nat (message_id m))] ::
  match faults E AckDelete with
  | Some e => [Fault AckDelete e]
  | None => [Deleted m]
  end.

(** A computation that removes no file that was there when it started and
    creates files only under names that were free then. *)
Definition scoped {S A : Type} (fs : S → gmap path content) (m : Mon S A) : Prop :=
  ∀ s, dom (fs s) ⊆ dom (fs (final (m s))) ∧
       ∀ p, In p (created (events (m s))) → fs s !! p = None.

(** The same oracles with another exit status of the mux command. *)
Definition with_mux_status (st : Z) (E : env) : env :=
  mkEnv (faults E) (served E) (decoded E) (recognized E) (translated E)
    (clip_audio E) st (mux_output E).

(** Two computations with the same runs. *)
Definition same_runs {S A} (m1 m2 : Mon S A) : Prop := ∀ s, m1 s = m2 s.

(** ** Vocabulary of the further properties *)

(** A bot whose flag, when set, comes with a model. *)
Definition bot_ready (b : TranslationBot) : Prop :=
  model_loaded b = true → is_Some (model b).

(** A computation that leaves a part of the state as it found it. *)
Definition fixes {S A B : Type} (proj : S → B) (m : Mon S A) : Prop :=
  ∀ s, proj (final (m s)) = proj s.

(** Events other than a call of the translator. *)
Definition no_translate (ev : event) : bool :=
  match ev with Call Translate _ => false | _ => true end.

(** At most one call of the translator, from Uzbek to English. *)
Definition translates_once (evs : list event) : Prop :=
  calls_at Translate evs = [] ∨
  ∃ t, calls_at Translate evs = [[Str t; Str "uz"; Str "en"]].

(** The bot and the chat as [process_audio] sees them. *)
Definition bot_and_chat (w : world) : TranslationBot * nat :=
  (self w, next_message_id w).

(** In an interleaved state: the model is in place whenever the flag is set
    or a call stands at the setting of the flag. *)
Definition model_in_place (s : Interleave.state) : Prop :=
  (model_loaded (Interleave.bot s) = true → is_Some (model (Interleave.bot s))) ∧
  (∀ i, Interleave.calls s i = Interleave.L44 → is_Some (model (Interleave.bot s))).

(** What [process_audio] returns on the content [c] of its input when every
    stage goes through. *)
Definition translation_of (E : env) (c : content) : string :=
  translated E
    (transcript (recognized E (Wav (set_channels 1 (set_frame_rate 16000 (decoded E c))))).1).

(** What is at the output path when ffmpeg is done: what it wrote, or the
    empty file [tempfile] made. *)
Definition mux_result (E : env) : content :=
  match mux_output E with Some c => c | None => Blank end.

(** The decoder raising and the error reply raising too. *)
Definition reply_down : site → option exn :=
  λ s, match s with
       | Decode => Some boom
       | ErrorSend => Some (Exception_ "NetworkError" "down")
       | _ => None
       end.

(** A computation that raises nothing but [Exception]s. *)
Definition mild {S A} (m : Mon S A) : Prop :=
  ∀ s e, result (m s) = Raise e → is_Exception e = true.

(** Oracles whose calls raise nothing but [Exception]s. *)
Definition mild_faults (E : env) : Prop :=
  ∀ s e, faults E s = Some e → is_Exception e = true.

(** A computation that sends nothing, or one message, which is in [P]. *)
Definition replies_once {S A} (P : body → Prop) (m : Mon S A) : Prop :=
  ∀ s, sent (events (m s)) = [] ∨ ∃ b, P b ∧ sent (events (m s)) = [b].

(** A computation that keeps a property of the state. *)
Definition preserves {S A} (P : S → Prop) (m : Mon S A) : Prop :=
  ∀ s, P s → P (final (m s)).

(** Events other than a call of the constructor of the model. *)
Definition no_construct (ev : event) : bool :=
  match ev with Call Construct _ | Fault Construct _ => false | _ => true end.

(** * Running the monad *)

Section Running.
Context {S : Type}.

Lemma bind_ok {A B} (m : Mon S A) (k : A → Mon S B) s a s1 ev1 r s2 ev2 :
  m s = (Ok a, s1, ev1) → k a s1 = (r, s2, ev2) →
  (m ≫= k) s = (r, s2, ev1 ++ ev2).
Proof. intros Hm Hk. unfold mbind, Mon_bind. by rewrite Hm, Hk. Qed.

Lemma bind_raise {A B} (m : Mon S A) (k : A → Mon S B) s e s1 ev1 :
  m s = (Raise e, s1, ev1) → (m ≫= k) s = (Raise e, s1, ev1).
Proof. intros Hm. unfold mbind, Mon_bind. by rewrite Hm. Qed.

Lemma try_finally_run {A} (m : Mon S A) (f : Mon S unit) s r s1 ev1 s2 ev2 :
  m s = (r, s1, ev1) → f s1 = (Ok tt, s2, ev2) →
  try_finally m f s = (r, s2, ev1 ++ ev2).
Proof. intros Hm Hf. unfold try_finally. by rewrite Hm, Hf. Qed.

Lemma try_except_ok {A} (m : Mon S A) h s a s1 ev1 :
  m s = (Ok a, s1, ev1) → try_except m h s = (Ok a, s1, ev1).
Proof. intros Hm. unfold try_except. by rewrite Hm. Qed.

Lemma try_except_caught {A} (m : Mon S A) h s e s1 ev1 r s2 ev2 :
  m s = (Raise e, s1, ev1) → is_Exception e = true → h e s1 = (r, s2, ev2) →
  try_except m h s = (r, s2, ev1 ++ ev2).
Proof. intros Hm He Hh. unfold try_except. by rewrite Hm, He, Hh. Qed.

Lemma try_except_passed {A} (m : Mon S A) h s e s1 ev1 :
  m s = (Raise e, s1, ev1) → is_Exception e = false →
  try_except m h s = (Raise e, s1, ev1).
Proof. intros Hm He. unfold try_except. by rewrite Hm, He. Qed.

End Running.

Lemma lift_run {L A} (m : Mon world A) w (l : L) r w1 ev :
  m w = (r, w1, ev) → lift m (w, l) = (r, (w1, l), ev).
Proof. intros Hm. unfold lift. simpl. by rewrite Hm. Qed.

Lemma in_frame_run {L A} (init : L) (m : Mon (world * L) A) w r w1 l ev :
  m (w, init) = (r, (w1, l), ev) → in_frame init m w = (r, w1, ev).
Proof. intros Hm. unfold in_frame. by rewrite Hm. Qed.

Section Calls.
Context (E : env).

Lemma call_ok {S A} (s : site) args (k : Mon S A) st r st1 ev :
  faults E s = None → k st = (r, st1, ev) →
  call E s args k st = (r, st1, Call s args :: ev).
Proof. intros Hs Hk. unfold call. by rewrite Hs, Hk. Qed.

Lemma call_fault {S A} (s : site) args (k : Mon S A) st e :
  faults E s = Some e →
  call E s args k st = (Raise e, st, [Call s args; Fault s e]).
Proof. intros Hs. unfold call. by rewrite Hs. Qed.

End Calls.

(** * The file system *)

Lemma fresh_path_free (sfx : string) (fs : gmap path content) :
  fs !! fresh_path sfx fs = None.
Proof.
  apply not_elem_of_dom. intros Hin.
  assert (Hs : path_stem (fresh_path sfx fs) ∈ (set_map path_stem (dom fs) : gset nat)).
  { apply elem_of_map. eauto. }
  unfold fresh_path in Hs. simpl in Hs. by apply is_fresh in Hs.
Qed.

Lemma fresh_path_ne (sfx : string) (fs : gmap path content) (p : path) :
  is_Some (fs !! p) → fresh_path sfx fs ≠ p.
Proof. intros [c Hc] Heq. subst p. pose proof (fresh_path_free sfx fs) as Hf. congruence. Qed.

Lemma fresh_path_suffix (sfx : string) (fs : gmap path content) :
  path_suffix (fresh_path sfx fs) = sfx.
Proof. reflexivity. Qed.

(** A file created, written any number of times and removed leaves the
    directory as it was. *)
Lemma delete_created (fs fs' : gmap path content) (p : path) :
  fs !! p = None → (∀ q, q ≠ p → fs' !! q = fs !! q) → delete p fs' = fs.
Proof.
  intros Hp Hq. apply map_eq. intros q. destruct (decide (q = p)) as [->|Hne].
  - by rewrite lookup_delete_eq.
  - rewrite lookup_delete_ne by done. by apply Hq.
Qed.

(** * The stages, one at a time *)

Section Stages.
Context (E : env).

Lemma NamedTemporaryFile_ok s sfx w :
  faults E s = None →
  NamedTemporaryFile E s sfx w =
    (Ok (fresh_path sfx (files w)),
     set_files (insert (fresh_path sfx (files w)) Blank) w,
     [Call s [Str sfx]; Created (fresh_path sfx (files w))]).
Proof. intros Hs. unfold NamedTemporaryFile. by apply call_ok. Qed.

Lemma read_file_ok p w c :
  files w !! p = Some c → read_file p w = (Ok c, w, []).
Proof.
  intros Hp. unfold read_file, mbind, Mon_bind, get. by rewrite Hp.
Qed.

Lemma path_exists_run p w :
  path_exists p w = (Ok (bool_decide (is_Some (files w !! p))), w, []).
Proof. reflexivity. Qed.

Lemma unlink_ok p w c :
  files w !! p = Some c →
  unlink p w = (Ok tt, set_files (delete p) w, [Unlinked p]).
Proof. intros Hp. unfold unlink, mbind, Mon_bind, get. by rewrite Hp. Qed.

Lemma close_temporary_ok p w c :
  files w !! p = Some c →
  close_temporary true p w = (Ok tt, set_files (delete p) w, [Unlinked p]).
Proof.
  intros Hp. unfold close_temporary, mbind, Mon_bind.
  rewrite path_exists_run, bool_decide_true by eauto.
  by rewrite (unlink_ok _ _ _ Hp).
Qed.

Lemma write_file_run p c w :
  write_file p c w = (Ok tt, set_files (insert p c) w, [Wrote p c]).
Proof. reflexivity. Qed.

Lemma from_file_ok p w c :
  faults E Decode = None → files w !! p = Some c →
  from_file E p w = (Ok (decoded E c), w, [Call Decode [Name p]]).
Proof.
  intros Hs Hp. unfold from_file. apply call_ok; [done|].
  unfold mbind, Mon_bind. by rewrite (read_file_ok _ _ _ Hp).
Qed.

Lemma normalize_ok a w :
  faults E Convert = None →
  normalize E a w =
    (Ok (set_channels 1 (set_frame_rate 16000 a)), w, [Call Convert [Int 16000; Int 1]]).
Proof. intros Hs. unfold normalize. by apply call_ok. Qed.

Lemma export_ok a p format w :
  faults E Export = None →
  export E a p format w =
    (Ok tt, set_files (insert p (Wav a)) w,
     [Call Export [Name p; Str format]; Wrote p (Wav a)]).
Proof. intros Hs. unfold export. by apply call_ok. Qed.

Lemma transcribe_ok p w c mdl :
  faults E Transcribe = None → model (self w) = Some mdl → files w !! p = Some c →
  transcribe E p w = (Ok (recognized E c), w, [Call Transcribe [Name p]]).
Proof.
  intros Hs Hm Hp. unfold transcribe. apply call_ok; [done|].
  unfold mbind, Mon_bind, get. rewrite Hm.
  by rewrite (read_file_ok _ _ _ Hp).
Qed.

Lemma translate_ok t src dest w :
  faults E Translate = None →
  translate E t src dest w =
    (Ok (mkTranslated src dest t (translated E t)), w,
     [Call Translate [Str t; Str src; Str dest]]).
Proof. intros Hs. unfold translate. by apply call_ok. Qed.

Lemma gTTS_save_ok t lang p w :
  faults E Synthesize = None →
  gTTS_save E t lang p w =
    (Ok tt, set_files (insert p (Mp3 t lang)) w,
     [Call Synthesize [Str t; Str lang; Name p]; Wrote p (Mp3 t lang)]).
Proof. intros Hs. unfold gTTS_save. by apply call_ok. Qed.

End Stages.

(** * Rules for the event disciplines *)

Section Obeys.
Context {S : Type} (Q : event → bool).

Lemma obeys_ret {A} (a : A) : obeys (S:=S) Q (mret a).
Proof. split; [intros s st e []|intros s; constructor]. Qed.

Lemma obeys_raise {A} e : obeys (S:=S) (A:=A) Q (raise e).
Proof. split; [intros s st e' []|intros s; constructor]. Qed.

Lemma obeys_get : obeys (S:=S) Q get.
Proof. split; [intros s st e []|intros s; constructor]. Qed.

Lemma obeys_modify f : obeys (S:=S) Q (modify f).
Proof. split; [intros s st e []|intros s; constructor]. Qed.

Lemma obeys_emit ev :
  Q ev = true → (∀ st e, ev ≠ Fault st e) → obeys (S:=S) Q (emit ev).
Proof.
  intros HQ Hev. split.
  - intros s st e [H|[]]. by destruct (Hev st e).
  - intros s. by repeat constructor.
Qed.

Lemma obeys_bind {A B} (m : Mon S A) (k : A → Mon S B) :
  obeys Q m → (∀ a, obeys Q (k a)) → obeys Q (m ≫= k).
Proof.
  intros [Hf Hq] Hk. split.
  - intros s st e. specialize (Hf s st e). unfold mbind, Mon_bind.
    destruct (m s) as [[[a|e1] s1] ev1] eqn:Hm;
      [|unfold events, result in *; simpl in *; intros Hin; specialize (Hf Hin);
        congruence].
    destruct (Hk a) as [Hfk _]. specialize (Hfk s1 st e).
    destruct (k a s1) as [[r s2] ev2]. unfold events, result in *. simpl in *.
    intros [Hin|Hin]%in_app_or; [by specialize (Hf Hin)|by apply Hfk].
  - intros s. specialize (Hq s). unfold mbind, Mon_bind.
    destruct (m s) as [[[a|e1] s1] ev1] eqn:Hm; [|exact Hq].
    destruct (Hk a) as [_ Hqk]. specialize (Hqk s1).
    destruct (k a s1) as [[r s2] ev2]. unfold events in *. simpl in *.
    by apply Forall_app.
Qed.

Lemma obeys_try_finally {A} (m : Mon S A) (f : Mon S unit) :
  (∀ ev, plain ev = true → Q ev = true) →
  obeys Q m → harmless f → obeys Q (try_finally m f).
Proof.
  intros HQ [Hf Hq] Hh. split.
  - intros s st e. specialize (Hf s st e). unfold try_finally.
    destruct (m s) as [[r s1] ev1] eqn:Hm.
    destruct (Hh s1) as [Hr Hp]. destruct (f s1) as [[rf s2] ev2].
    unfold events, result in *. simpl in *. subst rf.
    intros [Hin|Hin]%in_app_or; [by apply Hf|].
    rewrite Forall_forall in Hp. apply list_elem_of_In, Hp in Hin. done.
  - intros s. specialize (Hq s). unfold try_finally.
    destruct (m s) as [[r s1] ev1] eqn:Hm.
    destruct (Hh s1) as [Hr Hp]. destruct (f s1) as [[rf s2] ev2].
    unfold events, result in *. simpl in *. subst rf.
    apply Forall_app. split; [done|]. eapply Forall_impl; [exact Hp|]. eauto.
Qed.

Lemma obeys_call (E : env) {A} (st : site) args (k : Mon S A) :
  Q (Call st args) = true → (∀ e, Q (Fault st e) = true) →
  obeys Q k → obeys Q (call E st args k).
Proof.
  intros HC HF [Hf Hq]. split.
  - intros s st' e. unfold call. destruct (faults E st) as [e'|].
    + intros [H|[H|[]]]; [done|]. by injection H as _ ->.
    + specialize (Hf s st' e). destruct (k s) as [[r s1] ev].
      intros [H|H]; [done|]. by apply Hf.
  - intros s. unfold call. destruct (faults E st) as [e'|].
    + by repeat constructor.
    + specialize (Hq s). destruct (k s) as [[r s1] ev]. by constructor.
Qed.

Lemma obeys_weaken {A} (Q' : event → bool) (m : Mon S A) :
  (∀ ev, Q ev = true → Q' ev = true) → obeys Q m → obeys Q' m.
Proof.
  intros HQ [Hf Hq]. split; [done|].
  intros s. eapply Forall_impl; [apply Hq|]. eauto.
Qed.

End Obeys.

Lemma obeys_lift {L A} Q (m : Mon world A) : obeys Q m → obeys Q (lift (L:=L) m).
Proof.
  intros [Hf Hq]. split.
  - intros [w l] st e. specialize (Hf w st e). unfold lift. simpl.
    by destruct (m w) as [[r w1] ev].
  - intros [w l]. specialize (Hq w). unfold lift. simpl.
    by destruct (m w) as [[r w1] ev].
Qed.

Lemma obeys_in_frame {L A} Q (init : L) (m : Mon (world * L) A) :
  obeys Q m → obeys Q (in_frame init m).
Proof.
  intros [Hf Hq]. split.
  - intros w st e. specialize (Hf (w, init) st e). unfold in_frame.
    by destruct (m (w, init)) as [[r s] ev].
  - intros w. specialize (Hq (w, init)). unfold in_frame.
    by destruct (m (w, init)) as [[r s] ev].
Qed.

Lemma plain_quiet ev : plain ev = true → quiet ev = true.
Proof. by destruct ev. Qed.

Lemma quiet_within_try ev : quiet ev = true → within_try ev = true.
Proof. by destruct ev. Qed.

Lemma plain_within_try ev : plain ev = true → within_try ev = true.
Proof. by destruct ev. Qed.

(** * Rules for [orderly] *)

Section Orderly.
Context {S : Type}.

Lemma orderly_quiet {A} (m : Mon S A) : obeys quiet m → orderly m.
Proof.
  intros Hm. split.
  - eapply obeys_weaken; [apply quiet_within_try|done].
  - intros s e _. apply Hm.
Qed.

Lemma orderly_bind {A B} (m : Mon S A) (k : A → Mon S B) :
  obeys quiet m → (∀ a, orderly (k a)) → orderly (m ≫= k).
Proof.
  intros Hm Hk. split.
  - apply obeys_bind; [by apply orderly_quiet|]. intros a. apply Hk.
  - intros s e. destruct Hm as [_ Hq]. specialize (Hq s).
    unfold mbind, Mon_bind.
    destruct (m s) as [[[a|e1] s1] ev1] eqn:Hm; [|done].
    destruct (Hk a) as [_ Hr]. specialize (Hr s1 e).
    destruct (k a s1) as [[r s2] ev2]. unfold events, result in *. simpl in *.
    intros Hre. apply Forall_app. split; [done|by apply Hr].
Qed.

Lemma orderly_try_finally {A} (m : Mon S A) (f : Mon S unit) :
  orderly m → harmless f → orderly (try_finally m f).
Proof.
  intros [Hm Hr] Hh. split.
  - apply obeys_try_finally; [apply plain_within_try|done|done].
  - intros s e. specialize (Hr s). unfold try_finally.
    destruct (m s) as [[r s1] ev1] eqn:Hms.
    destruct (Hh s1) as [Hok Hp]. destruct (f s1) as [[rf s2] ev2].
    unfold events, result in *. simpl in *. subst rf. intros Hre.
    apply Forall_app. split; [by eapply Hr|].
    eapply Forall_impl; [exact Hp|]. apply plain_quiet.
Qed.

End Orderly.

(** * Rules for [keeps] and [stateless] *)

Section Keeps.
Context {S : Type} (fs : S → gmap path content) (X : gset path).

Lemma keeps_ret {A} (a : A) : keeps fs X (mret a).
Proof. by intros s q _. Qed.

Lemma keeps_raise {A} e : keeps (A:=A) fs X (raise e).
Proof. by intros s q _. Qed.

Lemma keeps_emit ev : keeps fs X (emit ev).
Proof. by intros s q _. Qed.

Lemma keeps_get : keeps fs X get.
Proof. by intros s q _. Qed.

Lemma keeps_bind {A B} (m : Mon S A) (k : A → Mon S B) :
  keeps fs X m → (∀ a, keeps fs X (k a)) → keeps fs X (m ≫= k).
Proof.
  intros Hm Hk s q Hq. specialize (Hm s q Hq). unfold mbind, Mon_bind.
  destruct (m s) as [[[a|e] s1] ev1]; [|done].
  specialize (Hk a s1 q Hq). destruct (k a s1) as [[r s2] ev2].
  unfold final in *. simpl in *. congruence.
Qed.

Lemma keeps_try_finally {A} (m : Mon S A) (f : Mon S unit) :
  keeps fs X m → keeps fs X f → keeps fs X (try_finally m f).
Proof.
  intros Hm Hf s q Hq. specialize (Hm s q Hq). unfold try_finally.
  destruct (m s) as [[r s1] ev1]. specialize (Hf s1 q Hq).
  destruct (f s1) as [[[[]|e] s2] ev2]; unfold final in *; simpl in *; congruence.
Qed.

Lemma keeps_try_except {A} (m : Mon S A) (h : exn → Mon S A) :
  keeps fs X m → (∀ e, keeps fs X (h e)) → keeps fs X (try_except m h).
Proof.
  intros Hm Hh s q Hq. specialize (Hm s q Hq). unfold try_except.
  destruct (m s) as [[[a|e] s1] ev1]; [done|].
  destruct (is_Exception e); [|done].
  specialize (Hh e s1 q Hq). destruct (h e s1) as [[r s2] ev2].
  unfold final in *. simpl in *. congruence.
Qed.

Lemma keeps_call (E : env) {A} st args (k : Mon S A) :
  keeps fs X k → keeps fs X (call E st args k).
Proof.
  intros Hk s q Hq. specialize (Hk s q Hq). unfold call.
  destruct (faults E st); [done|]. by destruct (k s) as [[r s1] ev].
Qed.

Lemma keeps_stateless {A} (m : Mon S A) : stateless m → keeps fs X m.
Proof. intros Hm s q _. by rewrite Hm. Qed.

End Keeps.

Lemma keeps_mono {S A : Type} (fs : S → gmap path content) (X Y : gset path) (m : Mon S A) :
  X ⊆ Y → keeps fs X m → keeps fs Y m.
Proof. intros HXY Hm s q Hq. apply Hm. set_solver. Qed.

Section Stateless.
Context {S : Type}.

Lemma stateless_ret {A} (a : A) : stateless (S:=S) (mret a).
Proof. by intros s. Qed.

Lemma stateless_raise {A} e : stateless (S:=S) (A:=A) (raise e).
Proof. by intros s. Qed.

Lemma stateless_get : stateless (S:=S) get.
Proof. by intros s. Qed.

Lemma stateless_emit ev : stateless (S:=S) (emit ev).
Proof. by intros s. Qed.

Lemma stateless_bind {A B} (m : Mon S A) (k : A → Mon S B) :
  stateless m → (∀ a, stateless (k a)) → stateless (m ≫= k).
Proof.
  intros Hm Hk s. specialize (Hm s). unfold mbind, Mon_bind.
  destruct (m s) as [[[a|e] s1] ev1]; [|done].
  specialize (Hk a s1). destruct (k a s1) as [[r s2] ev2].
  unfold final in *. simpl in *. congruence.
Qed.

Lemma stateless_call (E : env) {A} st args (k : Mon S A) :
  stateless k → stateless (call E st args k).
Proof.
  intros Hk s. specialize (Hk s). unfold call.
  destruct (faults E st); [done|]. by destruct (k s) as [[r s1] ev].
Qed.

End Stateless.

(** * The disciplines of the stages *)

Ltac obey :=
  repeat first
    [ apply obeys_ret | apply obeys_raise | apply obeys_get | apply obeys_modify
    | apply obeys_emit; [done|done]
    | apply obeys_call; [done|done|]
    | apply obeys_bind; [|intros ?]
    | apply obeys_lift
    | match goal with
      | |- obeys _ (match ?x with _ => _ end) => destruct x
      | |- obeys _ (let _ := _ in _) => cbv zeta
      end ].

Ltac stateless_tac :=
  repeat first
    [ apply stateless_ret | apply stateless_raise | apply stateless_get
    | apply stateless_emit | apply stateless_call
    | apply stateless_bind; [|intros ?]
    | match goal with
      | |- stateless (match ?x with _ => _ end) => destruct x
      | |- stateless (let _ := _ in _) => cbv zeta
      end ].

Section Disciplines.
Context (E : env).

Lemma log_obeys {S} Q level t : Q (Logged level t) = true → obeys (S:=S) Q (log level t).
Proof. intros HQ. by apply obeys_emit. Qed.

Lemma NamedTemporaryFile_quiet s sfx :
  chat_edge s = false → obeys quiet (NamedTemporaryFile E s sfx).
Proof. intros Hs. unfold NamedTemporaryFile. apply obeys_call; [by simpl; rewrite Hs..|]. obey. Qed.

Lemma close_temporary_harmless delete p : harmless (close_temporary delete p).
Proof.
  intros w. unfold close_temporary. destruct delete; [|by repeat constructor].
  unfold mbind, Mon_bind. rewrite path_exists_run.
  destruct (files w !! p) as [c|] eqn:Hp.
  - rewrite bool_decide_true by eauto. rewrite (unlink_ok _ _ _ Hp).
    by repeat constructor.
  - rewrite bool_decide_false by (by intros [? ?]). by repeat constructor.
Qed.

Lemma process_audio_finally_harmless : harmless process_audio_finally.
Proof.
  intros [w [p|]]; [|by repeat constructor].
  unfold process_audio_finally, mbind, Mon_bind, locals. cbn [fst snd].
  rewrite (lift_run _ _ _ _ _ _ (path_exists_run _ _)).
  destruct (files w !! p) as [c|] eqn:Hp.
  - rewrite bool_decide_true by eauto.
    rewrite (lift_run _ _ _ _ _ _ (unlink_ok _ _ _ Hp)). by repeat constructor.
  - rewrite bool_decide_false by (by intros [? ?]). by repeat constructor.
Qed.

Lemma get_file_quiet a : obeys quiet (get_file E a).
Proof. unfold get_file. obey. Qed.

Lemma read_file_quiet p : obeys quiet (read_file p).
Proof. unfold read_file. obey. Qed.

Lemma write_file_quiet p c : obeys quiet (write_file p c).
Proof. unfold write_file. obey. Qed.

Lemma download_to_drive_quiet f p : obeys quiet (download_to_drive E f p).
Proof. unfold download_to_drive, write_file. obey. Qed.

Lemma from_file_quiet p : obeys quiet (from_file E p).
Proof. unfold from_file, read_file. obey. Qed.

Lemma normalize_quiet a : obeys quiet (normalize E a).
Proof. unfold normalize. obey. Qed.

Lemma export_quiet a p f : obeys quiet (export E a p f).
Proof. unfold export, write_file. obey. Qed.

Lemma transcribe_and_translate_quiet p : obeys quiet (transcribe_and_translate E p).
Proof. unfold transcribe_and_translate, transcribe, translate, read_file. obey. Qed.

Lemma gTTS_save_quiet t lang p : obeys quiet (gTTS_save E t lang p).
Proof. unfold gTTS_save, write_file. obey. Qed.

Lemma extract_audio_quiet v out codec : obeys quiet (extract_audio E v out codec).
Proof. unfold extract_audio, read_file, write_file. obey. Qed.

Lemma os_system_quiet cmd out : obeys quiet (os_system E cmd out).
Proof. unfold os_system, write_file. obey. Qed.

Lemma process_audio_quiet f : obeys quiet (process_audio E f).
Proof.
  unfold process_audio. apply obeys_in_frame.
  apply obeys_try_finally;
    [apply plain_quiet| |apply process_audio_finally_harmless].
  unfold process_audio_try, bind_local.
  repeat (apply obeys_bind; [|intros ?]);
    try apply obeys_lift;
    auto using from_file_quiet, normalize_quiet, NamedTemporaryFile_quiet,
      export_quiet, transcribe_and_translate_quiet.
  split; [intros s st e []|intros s; constructor].
Qed.

(** The [except] clause of [load_model] logs and raises what it caught. *)
Lemma load_model_quiet : obeys quiet (load_model E).
Proof.
  unfold load_model. apply obeys_bind; [apply obeys_get|]. intros w.
  destruct (model_loaded (self w)); [apply obeys_ret|].
  apply obeys_bind; [apply obeys_get|]. intros w'.
  destruct (negb (model_loaded (self w'))); [|apply obeys_ret].
  assert (Hbody : obeys (S:=world) quiet
    (log "INFO" "Loading Whisper model...";;
     m ← new_WhisperModel E;
     modify (set_self (set_model (Some m)));;
     modify (set_self (set_model_loaded true));;
     log "INFO" "Model loaded successfully")).
  { unfold new_WhisperModel, log. obey. }
  destruct Hbody as [Hf Hq]. split.
  - intros s st e. specialize (Hf s st e). unfold try_except.
    match goal with |- context [match ?m s with _ => _ end] =>
      destruct (m s) as [[[a|e1] s1] ev1] end; [done|].
    unfold events, result in *. simpl in *.
    destruct (is_Exception e1); [|done].
    simpl. intros Hin%in_app_or.
    destruct Hin as [Hin|[Hin|[]]]; [by apply Hf|done].
  - intros s. specialize (Hq s). unfold try_except.
    match goal with |- context [match ?m s with _ => _ end] =>
      destruct (m s) as [[[a|e1] s1] ev1] end; [done|].
    unfold events in *. simpl in *.
    destruct (is_Exception e1); [|done].
    simpl. apply Forall_app. split; [done|]. by repeat constructor.
Qed.

Lemma with_NamedTemporaryFile_orderly {A} s sfx (body : path → Mon world A) :
  chat_edge s = false → (∀ p, orderly (body p)) →
  orderly (with_NamedTemporaryFile E s sfx body).
Proof.
  intros Hs Hbody. unfold with_NamedTemporaryFile.
  apply orderly_bind; [by apply NamedTemporaryFile_quiet|]. intros p.
  apply orderly_try_finally; [apply Hbody|apply close_temporary_harmless].
Qed.

Lemma send_orderly args b :
  (∀ m, within_try (Sent m b) = true) → orderly (send E Send args b;; mret tt).
Proof.
  intros Hb. unfold send, call, mbind, Mon_bind, get, modify, emit, mret, Mon_ret.
  split; [split|].
  - intros w st e. destruct (faults E Send) as [e'|]; simpl.
    + intros [H|[H|[]]]; [done|]. by injection H as _ ->.
    + intros [H|[H|[]]]; done.
  - intros w. destruct (faults E Send) as [e'|]; simpl; repeat constructor.
    apply Hb.
  - intros w e. destruct (faults E Send) as [e'|]; simpl; [|done].
    intros _. by repeat constructor.
Qed.

Lemma audio_attempt_orderly update : orderly (audio_attempt E update).
Proof.
  unfold audio_attempt.
  apply orderly_bind; [apply load_model_quiet|]. intros _.
  apply with_NamedTemporaryFile_orderly; [done|]. intros temp_audio.
  apply orderly_bind; [apply get_file_quiet|]. intros audio_file.
  apply orderly_bind; [apply download_to_drive_quiet|]. intros _.
  apply orderly_bind; [apply process_audio_quiet|]. intros translated_text.
  apply with_NamedTemporaryFile_orderly; [done|]. intros output_file.
  apply orderly_bind; [apply gTTS_save_quiet|]. intros _.
  apply orderly_bind; [apply read_file_quiet|]. intros f.
  by apply send_orderly.
Qed.

Lemma video_attempt_orderly update : orderly (video_attempt E update).
Proof.
  unfold video_attempt.
  apply orderly_bind; [apply load_model_quiet|]. intros _.
  apply with_NamedTemporaryFile_orderly; [done|]. intros temp_video.
  apply with_NamedTemporaryFile_orderly; [done|]. intros temp_audio.
  apply orderly_bind; [apply get_file_quiet|]. intros video_file.
  apply orderly_bind; [apply download_to_drive_quiet|]. intros _.
  apply orderly_bind; [apply extract_audio_quiet|]. intros _.
  apply orderly_bind; [apply process_audio_quiet|]. intros translated_text.
  apply with_NamedTemporaryFile_orderly; [done|]. intros tts_file.
  apply with_NamedTemporaryFile_orderly; [done|]. intros output_file.
  apply orderly_bind; [apply gTTS_save_quiet|]. intros _.
  cbv zeta.
  apply orderly_bind; [apply os_system_quiet|]. intros _.
  apply orderly_bind; [apply read_file_quiet|]. intros f.
  by apply send_orderly.
Qed.

End Disciplines.

(** * What the stages do to the files *)

Ltac keep :=
  repeat first
    [ apply keeps_ret | apply keeps_raise | apply keeps_get | apply keeps_emit
    | apply keeps_call
    | apply keeps_bind; [|intros ?]
    | match goal with
      | |- keeps _ _ (modify _) => by intros ? ? _
      | |- keeps _ _ (match ?x with _ => _ end) => destruct x
      | |- keeps _ _ (let _ := _ in _) => cbv zeta
      end ].

Section Files.
Context (E : env).

Lemma write_file_keeps (X : gset path) p c : p ∈ X → keeps files X (write_file p c).
Proof.
  intros Hp w q Hq. rewrite write_file_run. unfold final, set_files. simpl.
  apply lookup_insert_ne. set_solver.
Qed.

Lemma read_file_stateless p : stateless (read_file p).
Proof. unfold read_file. stateless_tac. Qed.

Lemma from_file_stateless p : stateless (from_file E p).
Proof. unfold from_file, read_file. stateless_tac. Qed.

Lemma normalize_stateless a : stateless (normalize E a).
Proof. unfold normalize. stateless_tac. Qed.

Lemma transcribe_and_translate_stateless p : stateless (transcribe_and_translate E p).
Proof. unfold transcribe_and_translate, transcribe, translate, read_file. stateless_tac. Qed.

Lemma get_file_stateless a : stateless (get_file E a).
Proof. unfold get_file. stateless_tac. Qed.

Lemma load_model_keeps (X : gset path) : keeps files X (load_model E).
Proof.
  unfold load_model, new_WhisperModel, log.
  apply keeps_bind; [apply keeps_get|]. intros w.
  destruct (model_loaded (self w)); [apply keeps_ret|].
  apply keeps_bind; [apply keeps_get|]. intros w'.
  destruct (negb (model_loaded (self w'))); [|apply keeps_ret].
  apply keeps_try_except; [|intros e]; keep.
Qed.

Lemma send_keeps (X : gset path) s args b : keeps files X (send E s args b).
Proof. unfold send. keep. Qed.

Lemma delete_message_keeps (X : gset path) m : keeps files X (delete_message E m).
Proof. unfold delete_message. keep. Qed.

Lemma download_to_drive_keeps (X : gset path) f p :
  p ∈ X → keeps files X (download_to_drive E f p).
Proof. intros Hp. unfold download_to_drive. apply keeps_call. by apply write_file_keeps. Qed.

Lemma gTTS_save_keeps (X : gset path) t lang p :
  p ∈ X → keeps files X (gTTS_save E t lang p).
Proof. intros Hp. unfold gTTS_save. apply keeps_call. by apply write_file_keeps. Qed.

Lemma extract_audio_keeps (X : gset path) v out codec :
  out ∈ X → keeps files X (extract_audio E v out codec).
Proof.
  intros Hp. unfold extract_audio. apply keeps_call.
  apply keeps_bind; [apply keeps_stateless, read_file_stateless|]. intros c.
  destruct (clip_audio E c); [by apply write_file_keeps|apply keeps_raise].
Qed.

Lemma os_system_keeps (X : gset path) cmd out :
  out ∈ X → keeps files X (os_system E cmd out).
Proof.
  intros Hp. unfold os_system. apply keeps_call.
  apply keeps_bind; [|intros ?; apply keeps_ret].
  destruct (mux_output E); [by apply write_file_keeps|apply keeps_ret].
Qed.

(** What leaving a [with] block does to the directory. *)
Lemma close_temporary_files p w :
  files (final (close_temporary true p w)) = delete p (files w).
Proof.
  unfold close_temporary, mbind, Mon_bind. rewrite path_exists_run.
  destruct (files w !! p) as [c|] eqn:Hp.
  - rewrite bool_decide_true by eauto. by rewrite (unlink_ok _ _ _ Hp).
  - rewrite bool_decide_false by (by intros [? ?]). simpl.
    by rewrite delete_id.
Qed.

(** A [with] block over a temporary file leaves outside what its body
    leaves outside the file. *)
Lemma with_NamedTemporaryFile_keeps {A : Type} (X : gset path) (s : site) (sfx : string)
    (body : path → Mon world A) :
  (∀ p, keeps files (X ∪ {[p]}) (body p)) →
  keeps files X (with_NamedTemporaryFile E s sfx body).
Proof.
  intros Hbody w q Hq. unfold with_NamedTemporaryFile, mbind, Mon_bind.
  destruct (faults E s) as [e|] eqn:Hs.
  { unfold NamedTemporaryFile. by rewrite (call_fault E _ _ _ _ _ Hs). }
  rewrite (NamedTemporaryFile_ok E _ _ _ Hs).
  set (p := fresh_path sfx (files w)).
  set (w1 := set_files (insert p Blank) w).
  specialize (Hbody p w1 q). unfold try_finally.
  destruct (body p w1) as [[r w2] ev2].
  pose proof (close_temporary_files p w2) as Hc.
  destruct (close_temporary true p w2) as [[[[]|e] w3] ev3];
    unfold final in *; simpl in *; rewrite Hc;
    (destruct (decide (q = p)) as [->|Hne];
     [rewrite lookup_delete_eq; symmetry; apply fresh_path_free
     |rewrite lookup_delete_ne; [|done];
      rewrite Hbody;
        [by apply lookup_insert_ne
        |rewrite elem_of_union, elem_of_singleton; tauto]]).
Qed.

Lemma lift_stateless {L A : Type} (m : Mon world A) w (l : L) :
  stateless m → ∃ r ev, lift m (w, l) = (r, (w, l), ev).
Proof.
  intros Hm. specialize (Hm w). unfold lift. simpl.
  destruct (m w) as [[r w1] ev]. unfold final in Hm. simpl in Hm. subst w1. eauto.
Qed.

(** Where the [try] block of [process_audio] leaves the frame and the files:
    [wav_file] unbound and nothing changed, or bound to a file that was not
    there before, and nothing else changed. *)
Lemma process_audio_try_files f w :
  match final (process_audio_try E f (w, None)) with
  | (w1, None) => ∀ q, files w1 !! q = files w !! q
  | (w1, Some p) => files w !! p = None ∧ ∀ q, q ≠ p → files w1 !! q = files w !! q
  end.
Proof.
  unfold process_audio_try, mbind, Mon_bind.
  destruct (lift_stateless (L:=option path) (from_file E f) w None
              (from_file_stateless f)) as (r1 & ev1 & ->).
  destruct r1 as [a|e]; [|done].
  destruct (lift_stateless (L:=option path) (normalize E a) w None
              (normalize_stateless a)) as (r2 & ev2 & ->).
  destruct r2 as [a'|e]; [|done].
  destruct (faults E MkWav) as [e|] eqn:Hs.
  { unfold NamedTemporaryFile.
    by rewrite (lift_run _ _ _ _ _ _ (call_fault E _ _ _ _ _ Hs)). }
  rewrite (lift_run _ _ _ _ _ _ (NamedTemporaryFile_ok E _ _ _ Hs)).
  set (p := fresh_path ".wav" (files w)). unfold bind_local. cbn [fst snd].
  destruct (faults E Export) as [e|] eqn:Hx.
  { unfold export. rewrite (lift_run _ _ _ _ _ _ (call_fault E _ _ _ _ _ Hx)).
    unfold final. simpl. split; [apply fresh_path_free|].
    intros q Hq. by apply lookup_insert_ne. }
  rewrite (lift_run _ _ _ _ _ _ (export_ok E _ _ _ _ Hx)).
  match goal with |- context [lift (transcribe_and_translate E p) (?w3, ?l)] =>
    destruct (lift_stateless (transcribe_and_translate E p) w3 l
                (transcribe_and_translate_stateless p)) as (r3 & ev3 & ->) end.
  unfold final. simpl. split; [apply fresh_path_free|].
  intros q Hq. by rewrite !lookup_insert_ne.
Qed.

Lemma process_audio_keeps (X : gset path) f : keeps files X (process_audio E f).
Proof.
  intros w q _. unfold process_audio, in_frame, try_finally.
  pose proof (process_audio_try_files f w) as Htry.
  destruct (process_audio_try E f (w, None)) as [[r [w1 l]] ev1].
  unfold final in Htry. simpl in Htry.
  destruct l as [p|].
  - destruct Htry as [Hp Hq].
    unfold process_audio_finally, mbind, Mon_bind, locals. cbn [fst snd].
    rewrite (lift_run _ _ _ _ _ _ (path_exists_run _ _)).
    destruct (files w1 !! p) as [c|] eqn:Hp1.
    + rewrite bool_decide_true by eauto.
      rewrite (lift_run _ _ _ _ _ _ (unlink_ok _ _ _ Hp1)).
      unfold final. simpl. destruct (decide (q = p)) as [->|Hne].
      * by rewrite lookup_delete_eq.
      * rewrite lookup_delete_ne by done. by apply Hq.
    + rewrite bool_decide_false by (by intros [? ?]).
      unfold final. simpl. destruct (decide (q = p)) as [->|Hne].
      * congruence.
      * by apply Hq.
  - unfold process_audio_finally, mbind, Mon_bind, locals. cbn [fst snd].
    unfold final. simpl. apply Htry.
Qed.

Lemma audio_attempt_keeps update : keeps files ∅ (audio_attempt E update).
Proof.
  unfold audio_attempt.
  apply keeps_bind; [apply load_model_keeps|]. intros _.
  apply with_NamedTemporaryFile_keeps. intros temp_audio.
  apply keeps_bind; [apply keeps_stateless, get_file_stateless|]. intros audio_file.
  apply keeps_bind; [apply download_to_drive_keeps; set_solver|]. intros _.
  apply keeps_bind; [apply process_audio_keeps|]. intros translated_text.
  apply with_NamedTemporaryFile_keeps. intros output_file.
  apply keeps_bind; [apply gTTS_save_keeps; set_solver|]. intros _.
  apply keeps_bind; [apply keeps_stateless, read_file_stateless|]. intros c.
  apply keeps_bind; [apply send_keeps|]. intros _. apply keeps_ret.
Qed.

Lemma video_attempt_keeps update : keeps files ∅ (video_attempt E update).
Proof.
  unfold video_attempt.
  apply keeps_bind; [apply load_model_keeps|]. intros _.
  apply with_NamedTemporaryFile_keeps. intros temp_video.
  apply with_NamedTemporaryFile_keeps. intros temp_audio.
  apply keeps_bind; [apply keeps_stateless, get_file_stateless|]. intros video_file.
  apply keeps_bind; [apply download_to_drive_keeps; set_solver|]. intros _.
  apply keeps_bind; [apply extract_audio_keeps; set_solver|]. intros _.
  apply keeps_bind; [apply process_audio_keeps|]. intros translated_text.
  apply with_NamedTemporaryFile_keeps. intros tts_file.
  apply with_NamedTemporaryFile_keeps. intros output_file.
  apply keeps_bind; [apply gTTS_save_keeps; set_solver|]. intros _.
  cbv zeta.
  apply keeps_bind; [apply os_system_keeps; set_solver|]. intros _.
  apply keeps_bind; [apply keeps_stateless, read_file_stateless|]. intros c.
  apply keeps_bind; [apply send_keeps|]. intros _. apply keeps_ret.
Qed.

End Files.

(** * The frame of the handlers *)

Section Guarded.
Context (E : env).

Lemma handle_audio_guarded update :
  handle_audio E update =
  guarded E "🔊 Processing audio..." "Audio processing error: " audio_error
    (audio_attempt E update).
Proof. reflexivity. Qed.

Lemma handle_video_guarded update :
  handle_video E update =
  guarded E "🎥 Processing video..." "Video processing error: " video_error
    (video_attempt E update).
Proof. reflexivity. Qed.

Lemma guarded_unacknowledged ack lp err attempt w e :
  faults E AckSend = Some e →
  guarded E ack lp err attempt w = (Raise e, w, [Call AckSend [Str ack]; Fault AckSend e]).
Proof.
  intros Hs. unfold guarded, reply_text, send.
  apply bind_raise. by apply call_fault.
Qed.

Lemma guarded_events ack lp err attempt w :
  faults E AckSend = None →
  let m0 := mkMessage (next_message_id w) in
  let x := attempt (set_next_message_id (S (next_message_id w)) w) in
  events (guarded E ack lp err attempt w) =
    [Call AckSend [Str ack]; Sent m0 (Text ack)] ++ events x ++
    recovery_events E lp err (result x) (next_message_id (final x)) ++
    farewell_events E m0.
Proof.
  intros Hs m0 x. subst x m0.
  unfold guarded, reply_text, delete_message, send, call, try_finally, try_except,
    log, mbind, Mon_bind, get, modify, emit, mret, Mon_ret,
    recovery_events, farewell_events.
  rewrite Hs. cbn [fst snd app message_id].
  destruct (attempt _) as [[[[]|e] w1] ev1]; unfold events, result, final;
    cbn [fst snd].
  - by destruct (faults E AckDelete).
  - destruct (is_Exception e).
    + destruct (faults E ErrorSend); destruct (faults E AckDelete); cbn [app fst snd].
      all: by rewrite <- ?app_assoc.
    + by destruct (faults E AckDelete).
Qed.

Lemma guarded_keeps ack lp err attempt :
  keeps files ∅ attempt → keeps files ∅ (guarded E ack lp err attempt).
Proof.
  intros Ha. unfold guarded, reply_text.
  apply keeps_bind; [apply send_keeps|]. intros m.
  apply keeps_try_finally; [|apply delete_message_keeps].
  apply keeps_try_except; [done|]. intros e. unfold log.
  apply keeps_bind; [apply keeps_emit|]. intros _.
  apply keeps_bind; [apply send_keeps|]. intros _. apply keeps_ret.
Qed.

End Guarded.

(** * Reading the events *)

Lemma sent_app evs1 evs2 : sent (evs1 ++ evs2) = sent evs1 ++ sent evs2.
Proof. apply omap_app. Qed.

Lemma deleted_app evs1 evs2 : deleted (evs1 ++ evs2) = deleted evs1 ++ deleted evs2.
Proof. apply omap_app. Qed.

Lemma calls_at_app s evs1 evs2 :
  calls_at s (evs1 ++ evs2) = calls_at s evs1 ++ calls_at s evs2.
Proof. apply omap_app. Qed.

Lemma quiet_sent evs : Forall (λ ev, quiet ev = true) evs → sent evs = [].
Proof.
  induction 1 as [|ev evs Hev _ IH]; [done|].
  destruct ev; try done; exact IH.
Qed.

Lemma within_try_deleted evs :
  Forall (λ ev, within_try ev = true) evs → deleted evs = [].
Proof.
  induction 1 as [|ev evs Hev _ IH]; [done|].
  destruct ev; try done; exact IH.
Qed.

Lemma within_try_calls_at s evs :
  chat_edge s = true →
  Forall (λ ev, within_try ev = true) evs → calls_at s evs = [].
Proof.
  intros Hs. induction 1 as [|ev evs Hev _ IH]; [done|].
  destruct ev as [s' a| | | | | | |]; try exact IH.
  unfold calls_at. simpl. destruct (decide (s' = s)) as [->|]; [|exact IH].
  simpl in Hev. by rewrite Hs in Hev.
Qed.

Lemma within_try_fault s e evs :
  Forall (λ ev, within_try ev = true) evs → In (Fault s e) evs → chat_edge s = false.
Proof.
  intros Hall Hin. rewrite Forall_forall in Hall.
  apply list_elem_of_In, Hall in Hin. simpl in Hin. by destruct (chat_edge s).
Qed.

Lemma recovery_events_no_farewell E lp err r n :
  calls_at AckDelete (recovery_events E lp err r n) = [] ∧
  deleted (recovery_events E lp err r n) = [].
Proof.
  unfold recovery_events. destruct r as [[]|e]; [done|].
  destruct (is_Exception e); [|done]. by destruct (faults E ErrorSend).
Qed.

Lemma recovery_events_fault E lp err r n s e :
  In (Fault s e) (recovery_events E lp err r n) → s = ErrorSend.
Proof.
  unfold recovery_events. destruct r as [[]|e']; [done|].
  destruct (is_Exception e'); [|done].
  destruct (faults E ErrorSend); simpl; intros [H|[H|[H|[]]]]; congruence.
Qed.

Lemma farewell_events_fault E m s e :
  In (Fault s e) (farewell_events E m) → s = AckDelete.
Proof.
  unfold farewell_events.
  destruct (faults E AckDelete); simpl; intros [H|[H|[]]]; congruence.
Qed.

(** * The handlers, on every path *)

Section Handlers.
Context (E : env).

(** The directory after a guarded attempt that cleans up after itself. *)
Lemma guarded_files ack lp err attempt w :
  keeps files ∅ attempt → files (final (guarded E ack lp err attempt w)) = files w.
Proof.
  intros Ha. apply map_eq. intros q.
  by apply (guarded_keeps E ack lp err attempt Ha w q).
Qed.

(** One call to delete the acknowledgment, whatever the attempt did. *)
Lemma guarded_farewell ack lp err attempt w :
  orderly attempt → faults E AckSend = None →
  let evs := events (guarded E ack lp err attempt w) in
  let m0 := mkMessage (next_message_id w) in
  In (Sent m0 (Text ack)) evs ∧
  calls_at AckDelete evs = [[Int (Z.of_nat (next_message_id w))]] ∧
  (faults E AckDelete = None → deleted evs = [m0]).
Proof.
  intros [[_ Htry] _] Hs evs m0. subst evs.
  rewrite (guarded_events E ack lp err attempt w Hs).
  set (x := attempt _). specialize (Htry (set_next_message_id (S (next_message_id w)) w)).
  fold x in Htry.
  destruct (recovery_events_no_farewell E lp err (result x) (next_message_id (final x)))
    as [Hc Hd].
  split; [simpl; auto|].
  rewrite !calls_at_app, !deleted_app, Hc, Hd.
  rewrite (within_try_calls_at AckDelete _ eq_refl Htry), (within_try_deleted _ Htry).
  unfold farewell_events. split.
  - by destruct (faults E AckDelete).
  - by intros ->.
Qed.

(** An exception raised inside the attempt is answered by the fixed text and
    by nothing else. *)
Lemma guarded_failure ack lp err attempt w s e :
  orderly attempt → chat_edge s = false → is_Exception e = true →
  faults E ErrorSend = None →
  In (Fault s e) (events (guarded E ack lp err attempt w)) →
  sent (events (guarded E ack lp err attempt w)) = [Text ack; Text err].
Proof.
  intros [[Hfaith Htry] Hquiet] Hs He Herr Hin.
  destruct (faults E AckSend) as [e0|] eqn:Hack.
  { rewrite (guarded_unacknowledged E _ _ _ _ _ _ Hack) in Hin.
    destruct Hin as [H|[H|[]]]; [done|]. injection H as <- _. done. }
  rewrite (guarded_events E ack lp err attempt w Hack) in *.
  set (x := attempt _) in *.
  assert (Hx : result x = Raise e).
  { apply in_app_or in Hin as [[H|[H|[]]]|Hin]; [done..|].
    apply in_app_or in Hin as [Hin|Hin]; [by eapply Hfaith|].
    apply in_app_or in Hin as [Hin|Hin].
    - apply recovery_events_fault in Hin. by subst s.
    - apply farewell_events_fault in Hin. by subst s. }
  rewrite !sent_app, (quiet_sent (events x) (Hquiet _ _ Hx)), Hx.
  unfold recovery_events, farewell_events. rewrite He, Herr.
  by destruct (faults E AckDelete).
Qed.

End Handlers.

Lemma pipeline_stage_inside s : pipeline_stage s = true → chat_edge s = false.
Proof. by destruct s. Qed.

(** C3.  Once the acknowledgment has been sent, a handler calls its deletion
    exactly once on every way out, and when that call goes through the
    acknowledgment is the one message deleted, once. *)
Theorem acknowledgment_deleted_once (E : env) (update : Update) (w : world) :
  faults E AckSend = None →
  let ack := mkMessage (next_message_id w) in
  let a := events (handle_audio E update w) in
  let v := events (handle_video E update w) in
  (In (Sent ack (Text "🔊 Processing audio...")) a ∧
   calls_at AckDelete a = [[Int (Z.of_nat (message_id ack))]] ∧
   (faults E AckDelete = None → deleted a = [ack])) ∧
  (In (Sent ack (Text "🎥 Processing video...")) v ∧
   calls_at AckDelete v = [[Int (Z.of_nat (message_id ack))]] ∧
   (faults E AckDelete = None → deleted v = [ack])).
Proof.
  intros Hs ack a v. split.
  - subst a. rewrite handle_audio_guarded.
    apply guarded_farewell; auto using audio_attempt_orderly.
  - subst v. rewrite handle_video_guarded.
    apply guarded_farewell; auto using video_attempt_orderly.
Qed.

(** * The transcript *)

Lemma append_assoc (a b c : string) : (a +:+ b) +:+ c = a +:+ b +:+ c.
Proof.
  induction a as [|ch a IH]; [done|].
  change (String ch ((a +:+ b) +:+ c) = String ch (a +:+ b +:+ c)). by f_equal.
Qed.

Lemma concat_cons (sep t : string) (ts : list string) :
  String.concat sep (t :: ts) =
  match ts with [] => t | _ :: _ => t +:+ sep +:+ String.concat sep ts end.
Proof. by destruct ts. Qed.

Lemma spaced_fold (rest : list Segment) (acc t : string) :
  acc +:+ String.concat " " (t :: map text rest) =
  foldl (λ acc s', acc +:+ " " +:+ text s') (acc +:+ t) rest.
Proof.
  revert acc t. induction rest as [|s' rest IH]; intros acc t; [done|].
  cbn [map foldl]. rewrite concat_cons.
  rewrite <- (append_assoc (acc +:+ t) " " (text s')), <- IH.
  by rewrite !append_assoc.
Qed.

(** C6.  The transcript of a sequence of segments is their texts in segment
    order with a single space between consecutive ones; the segments "salom",
    "dunyo" give "salom dunyo". *)
Theorem transcript_single_spaced :
  (∀ segments, transcript segments = spaced_texts segments) ∧
  transcript [mkSegment 0 0 900 "salom"; mkSegment 1 900 2000 "dunyo"] = "salom dunyo".
Proof.
  split; [|reflexivity].
  intros [|s rest]; [done|]. unfold transcript, spaced_texts.
  apply (spaced_fold rest EmptyString (text s)).
Qed.

(** * [load_model], one call after another *)

Lemma load_model_loaded (E : env) (w : world) :
  model_loaded (self w) = true → load_model E w = (Ok tt, w, []).
Proof. intros Hl. unfold load_model, mbind, Mon_bind, get. by rewrite Hl. Qed.

Lemma load_model_constructs (E : env) (w : world) :
  model_loaded (self w) = false →
  calls_at Construct (events (load_model E w)) = [construct_args].
Proof.
  intros Hl. unfold load_model, new_WhisperModel, call, try_except, log,
    mbind, Mon_bind, get, modify, emit, mret, Mon_ret, raise.
  rewrite Hl. cbv beta iota. rewrite Hl. cbn [negb].
  destruct (faults E Construct) as [e|]; [|done].
  by destruct (is_Exception e).
Qed.

Lemma load_model_raises (E : env) (w : world) (e : exn) :
  model_loaded (self w) = false → faults E Construct = Some e →
  result (load_model E w) = Raise e ∧ final (load_model E w) = w.
Proof.
  intros Hl Hc. unfold load_model, new_WhisperModel, call, try_except, log,
    mbind, Mon_bind, get, modify, emit, mret, Mon_ret, raise.
  rewrite Hl. cbv beta iota. rewrite Hl, Hc. cbn [negb].
  by destruct (is_Exception e).
Qed.

(** C5.  When the constructor raises, [load_model] raises the same object to
    its caller, leaves the bot as it was (flag unset), has called the
    constructor once, and the next call calls the constructor again. *)
Theorem construction_failure_propagates (E E' : env) (w : world) (e : exn) :
  model_loaded (self w) = false → faults E Construct = Some e →
  let x := load_model E w in
  result x = Raise e ∧
  final x = w ∧ model_loaded (self (final x)) = false ∧
  calls_at Construct (events x) = [construct_args] ∧
  calls_at Construct (events (load_model E' (final x))) = [construct_args].
Proof.
  intros Hl Hc x. subst x.
  destruct (load_model_raises E w e Hl Hc) as [Hr Hf].
  rewrite Hf. repeat split; auto using load_model_constructs.
Qed.

(** * [process_audio], stage by stage *)

Lemma created_app evs1 evs2 : created (evs1 ++ evs2) = created evs1 ++ created evs2.
Proof. apply omap_app. Qed.

Lemma written_app evs1 evs2 : written (evs1 ++ evs2) = written evs1 ++ written evs2.
Proof. apply omap_app. Qed.

Lemma quiet_created_written evs :
  Forall (λ ev, plain ev = false) evs → created evs = [] ∧ written evs = [].
Proof.
  induction 1 as [|ev evs Hev _ [IHc IHw]]; [done|].
  destruct ev; try done; by split.
Qed.

Lemma set_files_restore (w : world) (p : path) (f : gmap path content → gmap path content) :
  files w !! p = None → (∀ q, q ≠ p → f (files w) !! q = files w !! q) →
  set_files (delete p) (set_files f w) = w.
Proof.
  intros Hp Hq. destruct w as [b fs n]. unfold set_files. simpl in *.
  f_equal. by apply delete_created.
Qed.

Section ProcessAudio.
Context (E : env).

(** Transcription and translation only call out. *)
Lemma transcribe_and_translate_calls p w :
  Forall (λ ev, plain ev = false) (events (transcribe_and_translate E p w)).
Proof.
  unfold transcribe_and_translate, transcribe, translate, read_file, call,
    mbind, Mon_bind, get, raise, mret, Mon_ret.
  destruct (faults E Transcribe); [by repeat constructor|].
  destruct (model (self w)); [|by repeat constructor].
  destruct (files w !! p); [|by repeat constructor].
  cbn [fst snd app]. destruct (recognized E c) as [segments info].
  destruct (faults E Translate); by repeat constructor.
Qed.

Lemma transcribe_and_translate_ok p w c mdl :
  faults E Transcribe = None → faults E Translate = None →
  model (self w) = Some mdl → files w !! p = Some c →
  transcribe_and_translate E p w =
    (Ok (translated E (transcript (recognized E c).1)), w,
     [Call Transcribe [Name p];
      Call Translate [Str (transcript (recognized E c).1); Str "uz"; Str "en"]]).
Proof.
  intros H5 H6 Hm Hp. unfold transcribe_and_translate, mbind, Mon_bind.
  rewrite (transcribe_ok E _ _ _ _ H5 Hm Hp).
  destruct (recognized E c) as [segments info]. cbv zeta.
  by rewrite (translate_ok E _ _ _ _ H6).
Qed.

(** The run of [process_audio] once the input is decoded, converted and
    exported: what the remaining lines do is the run of
    [transcribe_and_translate] on the exported file. *)
Lemma process_audio_exported f w c :
  faults E Decode = None → faults E Convert = None → faults E MkWav = None →
  faults E Export = None → files w !! f = Some c →
  let a := set_channels 1 (set_frame_rate 16000 (decoded E c)) in
  let p := fresh_path ".wav" (files w) in
  let w3 := set_files (insert p (Wav a)) (set_files (insert p Blank) w) in
  let y := transcribe_and_translate E p w3 in
  files w3 !! p = Some (Wav a) ∧
  result (process_audio E f w) = result y ∧
  final (process_audio E f w) = w ∧
  events (process_audio E f w) =
    [Call Decode [Name f]; Call Convert [Int 16000; Int 1];
     Call MkWav [Str ".wav"]; Created p;
     Call Export [Name p; Str "wav"]; Wrote p (Wav a)] ++ events y ++ [Unlinked p].
Proof.
  intros H1 H2 H3 H4 Hf a p w3 y.
  assert (Hw : files w3 !! p = Some (Wav a)) by apply lookup_insert_eq.
  split; [done|].
  assert (Hback : set_files (delete p) w3 = w).
  { change (set_files (delete p) (set_files (λ fs, <[p:=Wav a]> (<[p:=Blank]> fs)) w) = w).
    apply set_files_restore; [apply fresh_path_free|].
    intros q Hq. by rewrite !lookup_insert_ne. }
  pose proof (transcribe_and_translate_stateless E p w3) as Hy. fold y in Hy.
  cut (process_audio E f w =
         (result y, w,
          [Call Decode [Name f]; Call Convert [Int 16000; Int 1];
           Call MkWav [Str ".wav"]; Created p;
           Call Export [Name p; Str "wav"]; Wrote p (Wav a)] ++ events y ++ [Unlinked p])).
  { by intros ->. }
  unfold process_audio, in_frame, try_finally, process_audio_try, mbind, Mon_bind.
  rewrite (lift_run _ _ _ _ _ _ (from_file_ok E _ _ _ H1 Hf)).
  rewrite (lift_run _ _ _ _ _ _ (normalize_ok E _ _ H2)).
  rewrite (lift_run _ _ _ _ _ _ (NamedTemporaryFile_ok E _ _ _ H3)).
  cbn [fst snd]. unfold bind_local. cbn [fst snd].
  rewrite (lift_run _ _ _ _ _ _ (export_ok E _ _ _ _ H4)).
  fold a p w3. unfold lift at 1. cbn [fst snd]. fold y.
  destruct y as [[r w4] ev4]. unfold final in Hy. simpl in Hy. subst w4.
  unfold process_audio_finally, mbind, Mon_bind, locals. cbn [fst snd].
  rewrite (lift_run _ _ _ _ _ _ (path_exists_run _ _)).
  rewrite Hw, bool_decide_true by eauto.
  rewrite (lift_run _ _ _ _ _ _ (unlink_ok _ _ _ Hw)).
  unfold result, events. cbn [fst snd app]. by rewrite Hback.
Qed.

End ProcessAudio.

Lemma set_channels_channels c a : channels (set_channels c a) = c.
Proof. unfold set_channels. by destruct (decide (c = channels a)). Qed.

Lemma set_channels_frame_rate c a : frame_rate (set_channels c a) = frame_rate a.
Proof. unfold set_channels. by destruct (decide (c = channels a)). Qed.

Lemma set_frame_rate_frame_rate r a : frame_rate (set_frame_rate r a) = r.
Proof. unfold set_frame_rate. by destruct (decide (r = frame_rate a)). Qed.

(** C7.  With no segment recognised the transcript is the empty string, the
    translator is called with it like with any other transcript, and
    [process_audio] returns what the translator gave. *)
Theorem silence_flows_through (E : env) (f : path) (w : world) (c : content)
    (mdl : WhisperModel) :
  faults E Decode = None → faults E Convert = None → faults E MkWav = None →
  faults E Export = None → faults E Transcribe = None → faults E Translate = None →
  files w !! f = Some c → model (self w) = Some mdl →
  (recognized E (Wav (set_channels 1 (set_frame_rate 16000 (decoded E c))))).1 = [] →
  transcript [] = EmptyString ∧
  result (process_audio E f w) = Ok (translated E EmptyString) ∧
  calls_at Translate (events (process_audio E f w)) = [[Str EmptyString; Str "uz"; Str "en"]].
Proof.
  intros H1 H2 H3 H4 H5 H6 Hf Hm Hnil. split; [done|].
  destruct (process_audio_exported E f w c H1 H2 H3 H4 Hf) as (Hw & -> & _ & ->).
  match type of Hw with files ?w3 !! _ = _ =>
    rewrite (transcribe_and_translate_ok E _ w3 _ mdl H5 H6 Hm Hw) end.
  rewrite Hnil. by split.
Qed.

(** C8.  Whenever the input decodes (and the conversion, the temporary file
    and the export go through), [process_audio] creates exactly one
    temporary file, with the suffix .wav, and writes to it, once, audio with
    one channel at 16000 Hz. *)
Theorem normalized_mono_16k (E : env) (f : path) (w : world) (c : content) :
  faults E Decode = None → faults E Convert = None → faults E MkWav = None →
  faults E Export = None → files w !! f = Some c →
  ∃ p a,
    created (events (process_audio E f w)) = [p] ∧ path_suffix p = ".wav" ∧
    written (events (process_audio E f w)) = [(p, Wav a)] ∧
    channels a = 1%Z ∧ frame_rate a = 16000%Z.
Proof.
  intros H1 H2 H3 H4 Hf.
  destruct (process_audio_exported E f w c H1 H2 H3 H4 Hf) as (Hw & _ & _ & ->).
  eexists _, _.
  rewrite !created_app, !written_app.
  destruct (quiet_created_written _ (transcribe_and_translate_calls E
    (fresh_path ".wav" (files w))
    (set_files (insert (fresh_path ".wav" (files w))
                  (Wav (set_channels 1 (set_frame_rate 16000 (decoded E c)))))
       (set_files (insert (fresh_path ".wav" (files w)) Blank) w)))) as [-> ->].
  repeat split.
  - apply set_channels_channels.
  - by rewrite set_channels_frame_rate, set_frame_rate_frame_rate.
Qed.

(** * Runs that agree *)

Section SameRuns.
Context {S : Type}.

Lemma same_runs_refl {A} (m : Mon S A) : same_runs m m.
Proof. by intros s. Qed.

Lemma same_runs_bind {A B} (m1 m2 : Mon S A) (k1 k2 : A → Mon S B) :
  same_runs m1 m2 → (∀ a, same_runs (k1 a) (k2 a)) →
  same_runs (m1 ≫= k1) (m2 ≫= k2).
Proof.
  intros Hm Hk s. unfold mbind, Mon_bind. rewrite (Hm s).
  destruct (m2 s) as [[[a|e] s1] ev1]; [|done]. by rewrite (Hk a s1).
Qed.

Lemma same_runs_try_finally {A} (m1 m2 : Mon S A) (f1 f2 : Mon S unit) :
  same_runs m1 m2 → same_runs f1 f2 → same_runs (try_finally m1 f1) (try_finally m2 f2).
Proof.
  intros Hm Hf s. unfold try_finally. rewrite (Hm s).
  destruct (m2 s) as [[r s1] ev1]. by rewrite (Hf s1).
Qed.

Lemma same_runs_try_except {A} (m1 m2 : Mon S A) (h1 h2 : exn → Mon S A) :
  same_runs m1 m2 → (∀ e, same_runs (h1 e) (h2 e)) →
  same_runs (try_except m1 h1) (try_except m2 h2).
Proof.
  intros Hm Hh s. unfold try_except. rewrite (Hm s).
  destruct (m2 s) as [[[a|e] s1] ev1]; [done|]. by rewrite (Hh e s1).
Qed.

End SameRuns.

Section MuxStatus.
Context (E : env) (st : Z).

Lemma with_NamedTemporaryFile_same {A} s sfx (body1 body2 : path → Mon world A) :
  (∀ p, same_runs (body1 p) (body2 p)) →
  same_runs (with_NamedTemporaryFile (with_mux_status st E) s sfx body1)
            (with_NamedTemporaryFile E s sfx body2).
Proof.
  intros Hb. unfold with_NamedTemporaryFile.
  apply same_runs_bind; [by intros w|]. intros p.
  apply same_runs_try_finally; [apply Hb|by intros w].
Qed.

(** The status [os.system] returns is dropped by the statement that calls it. *)
Lemma os_system_status_dropped {A} cmd out (k1 k2 : Mon world A) :
  same_runs k1 k2 →
  same_runs (os_system (with_mux_status st E) cmd out;; k1) (os_system E cmd out;; k2).
Proof.
  intros Hk w. unfold os_system, call, write_file, mbind, Mon_bind, modify, emit,
    mret, Mon_ret. cbn [faults mux_output with_mux_status].
  destruct (faults E Mux); [done|].
  destruct (mux_output E); cbn [fst snd app]; by rewrite Hk.
Qed.

Lemma video_attempt_status update :
  same_runs (video_attempt (with_mux_status st E) update) (video_attempt E update).
Proof.
  unfold video_attempt.
  apply same_runs_bind; [by intros w|]. intros _.
  apply with_NamedTemporaryFile_same. intros temp_video.
  apply with_NamedTemporaryFile_same. intros temp_audio.
  apply same_runs_bind; [by intros w|]. intros video_file.
  apply same_runs_bind; [by intros w|]. intros _.
  apply same_runs_bind; [by intros w|]. intros _.
  apply same_runs_bind; [by intros w|]. intros translated_text.
  apply with_NamedTemporaryFile_same. intros tts_file.
  apply with_NamedTemporaryFile_same. intros output_file.
  apply same_runs_bind; [by intros w|]. intros _. cbv zeta.
  apply os_system_status_dropped. by intros w.
Qed.

Lemma handle_video_status update :
  same_runs (handle_video (with_mux_status st E) update) (handle_video E update).
Proof.
  unfold handle_video.
  apply same_runs_bind; [by intros w|]. intros m.
  apply same_runs_try_finally; [|by intros w].
  apply same_runs_try_except; [apply video_attempt_status|by intros e w].
Qed.

End MuxStatus.

(** * Following one path *)

Section Following.
Context {S : Type}.

Lemma result_bind {A B} (m : Mon S A) (k : A → Mon S B) s a s1 ev1 :
  m s = (Ok a, s1, ev1) → result ((m ≫= k) s) = result (k a s1).
Proof.
  intros Hm. unfold mbind, Mon_bind. rewrite Hm. by destruct (k a s1) as [[r s2] ev2].
Qed.

Lemma events_bind {A B} (m : Mon S A) (k : A → Mon S B) s a s1 ev1 ev :
  m s = (Ok a, s1, ev1) → In ev (events (k a s1)) → In ev (events ((m ≫= k) s)).
Proof.
  intros Hm Hin. unfold mbind, Mon_bind. rewrite Hm.
  destruct (k a s1) as [[r s2] ev2]. apply in_or_app. by right.
Qed.

Lemma result_bind_raise {A B} (m : Mon S A) (k : A → Mon S B) s e :
  result (m s) = Raise e → result ((m ≫= k) s) = Raise e.
Proof.
  unfold mbind, Mon_bind. destruct (m s) as [[[a|e'] s1] ev1]; [done|].
  by intros [= ->].
Qed.

Lemma result_try_finally {A} (m : Mon S A) (f : Mon S unit) s :
  harmless f → result (try_finally m f s) = result (m s).
Proof.
  intros Hf. unfold try_finally. destruct (m s) as [[r s1] ev1].
  destruct (Hf s1) as [Hr _]. destruct (f s1) as [[rf s2] ev2].
  unfold result in *. simpl in *. by subst rf.
Qed.

Lemma events_try_finally {A} (m : Mon S A) (f : Mon S unit) s ev :
  In ev (events (m s)) → In ev (events (try_finally m f s)).
Proof.
  intros Hin. unfold try_finally. destruct (m s) as [[r s1] ev1].
  destruct (f s1) as [[[[]|e] s2] ev2]; apply in_or_app; by left.
Qed.

End Following.

Section FollowingFiles.
Context (E : env).

Lemma result_with_NamedTemporaryFile {A} s sfx (body : path → Mon world A) w :
  faults E s = None →
  result (with_NamedTemporaryFile E s sfx body w) =
  result (body (fresh_path sfx (files w))
            (set_files (insert (fresh_path sfx (files w)) Blank) w)).
Proof.
  intros Hs. unfold with_NamedTemporaryFile.
  rewrite (result_bind _ _ _ _ _ _ (NamedTemporaryFile_ok E s sfx w Hs)).
  apply result_try_finally, close_temporary_harmless.
Qed.

Lemma events_with_NamedTemporaryFile {A} s sfx (body : path → Mon world A) w ev :
  faults E s = None →
  In ev (events (body (fresh_path sfx (files w))
                   (set_files (insert (fresh_path sfx (files w)) Blank) w))) →
  In ev (events (with_NamedTemporaryFile E s sfx body w)).
Proof.
  intros Hs Hin. unfold with_NamedTemporaryFile.
  eapply events_bind; [by apply NamedTemporaryFile_ok|].
  by apply events_try_finally.
Qed.

(** [load_model] goes through when the constructor does, and leaves a model. *)
Lemma load_model_ready w :
  faults E Construct = None →
  ∃ b ev, load_model E w = (Ok tt, mkWorld b (files w) (next_message_id w), ev) ∧
          ((model_loaded (self w) = true → is_Some (model (self w))) →
           is_Some (model b)).
Proof.
  intros Hc. destruct (model_loaded (self w)) eqn:Hl.
  - rewrite (load_model_loaded E w Hl). exists (self w), []. split; [by destruct w|auto].
  - unfold load_model, new_WhisperModel, call, try_except, log,
      mbind, Mon_bind, get, modify, emit, mret, Mon_ret, raise.
    rewrite Hl. cbv beta iota. rewrite Hl, Hc. cbn [negb].
    eexists _, _. split; [reflexivity|]. simpl. eauto.
Qed.

Lemma get_file_ok a w :
  faults E GetFile = None →
  get_file E (Some a) w = (Ok (file_id a), w, [Call GetFile [Str (file_id a)]]).
Proof. intros Hs. unfold get_file. by apply call_ok. Qed.

Lemma download_to_drive_ok f p w :
  faults E Download = None →
  download_to_drive E f p w =
    (Ok tt, set_files (insert p (served E f)) w,
     [Call Download [Str f; Name p]; Wrote p (served E f)]).
Proof. intros Hs. unfold download_to_drive. by apply call_ok. Qed.

Lemma extract_audio_ok v out codec w c a :
  faults E ExtractAudio = None → files w !! v = Some c → clip_audio E c = Some a →
  extract_audio E v out codec w =
    (Ok tt, set_files (insert out (Wav a)) w,
     [Call ExtractAudio [Name v; Name out; Str codec]; Wrote out (Wav a)]).
Proof.
  intros Hs Hv Ha. unfold extract_audio. apply call_ok; [done|].
  unfold mbind, Mon_bind. rewrite (read_file_ok _ _ _ Hv), Ha. done.
Qed.

(** A clip without an audio track: the attribute looked up on [None]. *)
Lemma extract_audio_silent v out codec w c :
  faults E ExtractAudio = None → files w !! v = Some c → clip_audio E c = None →
  result (extract_audio E v out codec w) = Raise (NoneType_has_no "write_audiofile").
Proof.
  intros Hs Hv Ha. unfold extract_audio, call, mbind, Mon_bind.
  rewrite Hs, (read_file_ok _ _ _ Hv), Ha. done.
Qed.

Lemma os_system_ok cmd out w :
  faults E Mux = None →
  ∃ ev, os_system E cmd out w =
    (Ok (mux_status E),
     match mux_output E with Some c => set_files (insert out c) w | None => w end, ev).
Proof.
  intros Hs. unfold os_system, call, write_file, mbind, Mon_bind, modify, emit,
    mret, Mon_ret. rewrite Hs. destruct (mux_output E); eauto.
Qed.

End FollowingFiles.

Lemma files_set_files f w : files (set_files f w) = f (files w).
Proof. reflexivity. Qed.

Section VideoPath.
Context (E : env).

Lemma process_audio_ok f w c mdl :
  faults E Decode = None → faults E Convert = None → faults E MkWav = None →
  faults E Export = None → faults E Transcribe = None → faults E Translate = None →
  files w !! f = Some c → model (self w) = Some mdl →
  ∃ t ev, process_audio E f w = (Ok t, w, ev).
Proof.
  intros H1 H2 H3 H4 H5 H6 Hf Hm.
  destruct (process_audio_exported E f w c H1 H2 H3 H4 Hf) as (Hw & Hr & Hfin & _).
  match type of Hw with files ?w3 !! _ = _ =>
    rewrite (transcribe_and_translate_ok E _ w3 _ mdl H5 H6 Hm Hw) in Hr end.
  destruct (process_audio E f w) as [[r w'] ev].
  unfold result, final in *. simpl in *. subst. eauto.
Qed.

Lemma send_called args b w :
  In (Call Send args) (events ((send E Send args b;; mret tt) w)).
Proof.
  unfold send, call, mbind, Mon_bind, get, modify, emit, mret, Mon_ret.
  destruct (faults E Send); simpl; auto.
Qed.

(** With no call raising and a clip that has an audio track, the attempt
    reaches [reply_video]. *)
Lemma video_attempt_delivers update w att a :
  (∀ s, s ≠ Send → faults E s = None) →
  (model_loaded (self w) = true → is_Some (model (self w))) →
  video update = Some att → clip_audio E (served E (file_id att)) = Some a →
  In (Call Send [Str "Translated Video"]) (events (video_attempt E update w)).
Proof.
  intros Hok Hinv Hv Ha. unfold video_attempt.
  destruct (load_model_ready E w (Hok Construct ltac:(done)))
    as (b & ev0 & Hload & Hm).
  destruct (Hm Hinv) as [mdl Hmdl]. clear Hm.
  eapply events_bind; [exact Hload|].
  apply events_with_NamedTemporaryFile; [by apply Hok|].
  apply events_with_NamedTemporaryFile; [by apply Hok|].
  rewrite Hv.
  eapply events_bind; [by apply get_file_ok, Hok|].
  eapply events_bind; [by apply download_to_drive_ok, Hok|].
  eapply events_bind.
  { eapply extract_audio_ok; [by apply Hok|apply lookup_insert_eq|exact Ha]. }
  cbv beta.
  match goal with |- In _ (events ((process_audio E ?p ≫= _) ?w4)) =>
    destruct (process_audio_ok p w4 (Wav a) mdl) as (t & ev1 & Hpa);
      [by apply Hok..|apply lookup_insert_eq|exact Hmdl|] end.
  eapply events_bind; [exact Hpa|].
  apply events_with_NamedTemporaryFile; [by apply Hok|].
  apply events_with_NamedTemporaryFile; [by apply Hok|].
  eapply events_bind; [by apply gTTS_save_ok, Hok|]. cbv zeta.
  match goal with |- In _ (events ((os_system E ?cmd ?out ≫= _) ?w7)) =>
    destruct (os_system_ok E cmd out w7 (Hok Mux ltac:(done))) as (ev2 & Hos) end.
  eapply events_bind; [exact Hos|].
  cbv beta.
  match goal with |- In _ (events ((read_file ?out ≫= _) ?w8)) =>
    assert (Hout : ∃ c, files w8 !! out = Some c) end.
  { destruct (mux_output E) as [c|].
    - exists c. apply lookup_insert_eq.
    - exists Blank.
      eapply eq_trans; [apply lookup_insert_ne|apply lookup_insert_eq].
      apply not_eq_sym, fresh_path_ne. eexists. apply lookup_insert_eq. }
  destruct Hout as [c Hout].
  eapply events_bind; [by apply read_file_ok|].
  apply send_called.
Qed.

(** With no call raising and a clip that has no audio track, the attempt ends
    with the [AttributeError] of the extraction. *)
Lemma video_attempt_silent_clip update w att :
  (∀ s, faults E s = None) →
  video update = Some att → clip_audio E (served E (file_id att)) = None →
  result (video_attempt E update w) = Raise (NoneType_has_no "write_audiofile").
Proof.
  intros Hok Hv Ha. unfold video_attempt.
  destruct (load_model_ready E w (Hok Construct)) as (b & ev0 & Hload & _).
  rewrite (result_bind _ _ _ _ _ _ Hload).
  rewrite !result_with_NamedTemporaryFile by apply Hok.
  rewrite Hv.
  rewrite (result_bind _ _ _ _ _ _ (get_file_ok E _ _ (Hok GetFile))).
  rewrite (result_bind _ _ _ _ _ _ (download_to_drive_ok E _ _ _ (Hok Download))).
  apply result_bind_raise.
  eapply extract_audio_silent; [apply Hok|apply lookup_insert_eq|exact Ha].
Qed.

End VideoPath.

(** * Interleaved calls of [load_model] *)

Import Interleave.

Lemma holder_unique (s : state) (i j : nat) :
  invariant s → holds_lock (calls s i) = true → holds_lock (calls s j) = true → i = j.
Proof.
  intros (Hlock & _ & _) Hi Hj. apply Hlock in Hi, Hj. congruence.
Qed.

Lemma invariant_init : invariant init.
Proof.
  split; [|split]; [|done..].
  intros i. simpl. split; intros; done.
Qed.

Ltac pcs i :=
  repeat match goal with
  | |- context [<[i:=_]> _ i] => rewrite fn_lookup_insert
  | H : context [<[i:=_]> _ i] |- _ => rewrite fn_lookup_insert in H
  | Hne : i ≠ ?j |- context [<[i:=_]> _ ?j] => rewrite (fn_lookup_insert_ne _ i j) by done
  | Hne : i ≠ ?j, H : context [<[i:=_]> _ ?j] |- _ =>
      rewrite (fn_lookup_insert_ne _ i j) in H by done
  end.

(** A move that changes neither who holds the lock nor whether the model
    is built. *)
Lemma invariant_goto (i : nat) (p : pc) (s : state) :
  invariant s →
  holds_lock p = holds_lock (calls s i) → pending p = pending (calls s i) →
  (p = L38 → model_loaded (bot s) = false) →
  invariant (goto i p s).
Proof.
  intros (Hlock & H38 & Hlog) Hh Hp Hl. unfold goto, invariant, built in *.
  cbn [bot lock calls constructions]. split; [|split].
  - intros j. destruct (decide (i = j)) as [<-|Hne]; pcs i; [|done].
    rewrite Hh. apply Hlock.
  - intros j. destruct (decide (i = j)) as [<-|Hne]; pcs i; [done|apply H38].
  - destruct (lock s) as [k|]; [|done].
    destruct (decide (i = k)) as [<-|Hne]; pcs i; [|done]. by rewrite Hp.
Qed.

Lemma step_invariant (i : nat) (o : option exn) (s : state) :
  invariant s → invariant (step i o s).
Proof.
  intros Hinv. pose proof Hinv as (Hlock & H38 & Hlog).
  assert (Hi : holds_lock (calls s i) = true → lock s = Some i) by apply Hlock.
  assert (Hi' : lock s = Some i → holds_lock (calls s i) = true) by apply Hlock.
  unfold step. destruct (calls s i) eqn:Hpc.
  - (* L31 *)
    destruct (model_loaded (bot s)); apply invariant_goto; by rewrite ?Hpc.
  - (* L34 *)
    destruct (lock s) as [k|] eqn:Hk; [done|].
    unfold invariant, built in *. cbn [bot lock calls constructions]. split; [|split].
    + intros j. destruct (decide (i = j)) as [<-|Hne]; pcs i; [by split|].
      split; [|congruence]. intros Hj%Hlock. congruence.
    + intros j. destruct (decide (i = j)) as [<-|Hne]; pcs i; [done|apply H38].
    + pcs i. rewrite Hk in Hlog. exact Hlog.
  - (* L35 *)
    destruct (model_loaded (bot s)) eqn:Hl; cbn [negb]; apply invariant_goto;
      by rewrite ?Hpc.
  - (* L38 *)
    assert (Hk : lock s = Some i) by (by apply Hi).
    assert (Hl : model_loaded (bot s) = false) by (by eapply H38).
    assert (Hold : Forall (λ c, succeeded c = false) (constructions s)).
    { unfold built in Hlog. rewrite Hl, Hk, Hpc in Hlog. simpl in Hlog.
      destruct (constructions s) as [|c rest]; [done|].
      destruct Hlog as [Hc Hrest]. by constructor. }
    unfold invariant, built. cbn [bot lock calls constructions]. split; [|split].
    + intros j. destruct (decide (i = j)) as [<-|Hne]; pcs i; [|done].
      rewrite <- Hlock, Hpc. by destruct o as [e|]; [destruct (is_Exception e)|].
    + intros j. destruct (decide (i = j)) as [<-|Hne]; pcs i; [done|apply H38].
    + rewrite Hl, Hk. pcs i. split; [|done].
      by destruct o as [e|]; [destruct (is_Exception e)|].
  - (* L38_store *)
    apply (invariant_goto i L44) in Hinv; by rewrite ?Hpc.
  - (* L44 *)
    assert (Hk : lock s = Some i) by (by apply Hi).
    unfold invariant, built in *. cbn [bot lock calls constructions model_loaded set_model_loaded].
    split; [|split].
    + intros j. destruct (decide (i = j)) as [<-|Hne]; pcs i; [|done].
      by rewrite <- Hlock, Hpc.
    + intros j. destruct (decide (i = j)) as [<-|Hne]; pcs i; [done|].
      intros Hj. assert (lock s = Some j) by (apply Hlock; by rewrite Hj). congruence.
    + rewrite Hk, Hpc in Hlog. by rewrite orb_true_r in Hlog.
  - (* L48 *)
    apply invariant_goto; by rewrite ?Hpc.
  - (* Exit_return *)
    assert (Hk : lock s = Some i) by (by apply Hi).
    unfold invariant, built in *. cbn [bot lock calls constructions]. split; [|split].
    + intros j. destruct (decide (i = j)) as [<-|Hne]; pcs i; [done|].
      split; [|done]. intros Hj%Hlock. congruence.
    + intros j. destruct (decide (i = j)) as [<-|Hne]; pcs i; [done|apply H38].
    + by rewrite Hk, Hpc in Hlog.
  - (* Exit_raise *)
    assert (Hk : lock s = Some i) by (by apply Hi).
    unfold invariant, built in *. cbn [bot lock calls constructions]. split; [|split].
    + intros j. destruct (decide (i = j)) as [<-|Hne]; pcs i; [done|].
      split; [|done]. intros Hj%Hlock. congruence.
    + intros j. destruct (decide (i = j)) as [<-|Hne]; pcs i; [done|apply H38].
    + by rewrite Hk, Hpc in Hlog.
  - done.
  - done.
Qed.

Lemma run_schedule_invariant (sch : schedule) (s : state) :
  invariant s → invariant (run_schedule sch s).
Proof.
  revert s. induction sch as [|[i o] sch IH]; intros s Hs; [done|].
  apply IH. by apply step_invariant.
Qed.

(** Once the flag is set no call constructs any more. *)
Lemma loaded_step (i : nat) (o : option exn) (s : state) :
  invariant s → model_loaded (bot s) = true →
  model_loaded (bot (step i o s)) = true ∧
  constructions (step i o s) = constructions s.
Proof.
  intros (_ & H38 & _) Hl. unfold step, goto.
  destruct (calls s i) eqn:Hpc; rewrite ?Hl; cbn [negb]; try done.
  - by destruct (lock s).
  - apply H38 in Hpc. congruence.
Qed.

Lemma loaded_run (sch : schedule) (s : state) :
  invariant s → model_loaded (bot s) = true →
  constructions (run_schedule sch s) = constructions s.
Proof.
  revert s. induction sch as [|[i o] sch IH]; intros s Hinv Hl; [done|].
  destruct (loaded_step i o s Hinv Hl) as [Hl' Hc]. simpl.
  rewrite IH; [done|by apply step_invariant|done].
Qed.

Lemma run_schedule_app (sch1 sch2 : schedule) (s : state) :
  run_schedule (sch1 ++ sch2) s = run_schedule sch2 (run_schedule sch1 s).
Proof. apply foldl_app. Qed.

Lemma run_schedule_cons (i : nat) (o : option exn) (sch : schedule) (s : state) :
  run_schedule ((i, o) :: sch) s = run_schedule sch (step i o s).
Proof. reflexivity. Qed.

Ltac run_step Hl :=
  rewrite run_schedule_cons; unfold step;
  cbn [bot lock calls constructions goto];
  rewrite ?fn_lookup_insert; cbn [set_model set_model_loaded model_loaded model negb];
  rewrite ?Hl; cbn [negb].

(** A call that runs alone, start to end, does what [load_model] does. *)
Lemma alone_as_load_model (E : env) (w : world) (s : state) (i : nat) :
  bot s = self w → lock s = None → calls s i = L31 →
  let s' := run_schedule (replicate 7 (i, faults E Construct)) s in
  let x := load_model E w in
  bot s' = self (final x) ∧ lock s' = None ∧
  calls s' i = match result x with Ok _ => Returned | Raise e => Raised e end ∧
  length (constructions s') =
    (length (calls_at Construct (events x)) + length (constructions s))%nat.
Proof.
  intros Hb Hk Hpc. destruct s as [b l cs made]. simpl in Hb, Hk, Hpc. subst b l.
  cbv zeta. cbn [replicate].
  unfold load_model, new_WhisperModel, call, try_except, log,
    mbind, Mon_bind, get, modify, emit, mret, Mon_ret, raise.
  destruct (model_loaded (self w)) eqn:Hl.
  - rewrite run_schedule_cons. unfold step. cbn [bot lock calls constructions goto].
    rewrite Hpc, Hl. unfold goto. cbn [bot lock calls constructions].
    do 6 run_step Hl. unfold run_schedule. cbn [foldl bot lock calls constructions].
    rewrite fn_lookup_insert. done.
  - cbv beta iota. rewrite Hl. cbn [negb].
    rewrite run_schedule_cons. unfold step. cbn [bot lock calls constructions goto].
    rewrite Hpc, Hl. unfold goto. cbn [bot lock calls constructions].
    do 2 run_step Hl. unfold goto. cbn [bot lock calls constructions].
    run_step Hl.
    destruct (faults E Construct) as [e|]; [destruct (is_Exception e) eqn:He|].
    all: do 3 run_step Hl; unfold goto; cbn [bot lock calls constructions].
    all: unfold run_schedule; cbn [foldl bot lock calls constructions];
      rewrite ?fn_lookup_insert.
    all: unfold final, result, events; cbn [fst snd].
    all: by repeat split.
Qed.

(** C4, as stated: at most one constructor call ever executes.  It fails on
    two calls one after the other when the first constructor call raises. *)
Lemma construction_called_twice :
  ¬ (∀ sch : schedule, (length (constructions (run_schedule sch init)) ≤ 1)%nat).
Proof.
  intros H. specialize (H retry_schedule). vm_compute in H. lia.
Qed.

(** C4, amended.  On every interleaving of any number of [load_model] calls:
    at most one constructor call succeeds; no constructor call is made after
    one that succeeded, nor once the flag is set; so when no constructor call
    raises there is at most one. *)
Theorem one_successful_construction (sch : schedule) :
  let s := run_schedule sch init in
  (length (List.filter succeeded (constructions s)) ≤ 1)%nat ∧
  (∀ c rest, constructions s = c :: rest → Forall (λ c', succeeded c' = false) rest) ∧
  (Forall (λ c, succeeded c = true) (constructions s) →
   (length (constructions s) ≤ 1)%nat) ∧
  (model_loaded (bot s) = true →
   ∀ sch', constructions (run_schedule sch' s) = constructions s).
Proof.
  intros s. assert (Hinv : invariant s) by apply run_schedule_invariant, invariant_init.
  pose proof Hinv as (_ & _ & Hlog).
  assert (Hrest : ∀ c rest, constructions s = c :: rest →
                  Forall (λ c', succeeded c' = false) rest).
  { intros c rest Hc. rewrite Hc in Hlog. apply Hlog. }
  assert (Hnone : ∀ l, Forall (λ c', succeeded c' = false) l → List.filter succeeded l = []).
  { induction 1 as [|c l Hc _ IH]; [done|]. simpl. by rewrite Hc. }
  repeat split.
  - destruct (constructions s) as [|c rest] eqn:Hc; [simpl; lia|].
    simpl. rewrite (Hnone rest (Hrest c rest eq_refl)). destruct (succeeded c); simpl; lia.
  - exact Hrest.
  - intros Hall. destruct (constructions s) as [|c [|c' rest]] eqn:Hc; [simpl; lia..|].
    specialize (Hrest c (c' :: rest) eq_refl).
    apply Forall_cons in Hrest as [Hc' _]. apply Forall_cons in Hall as [_ Hall].
    apply Forall_cons in Hall as [Hc'' _]. congruence.
  - intros Hl sch'. by apply loaded_run.
Qed.

(** * The video handler, two paths *)

Section VideoHandler.
Context (E : env).

Lemma guarded_result ack lp err attempt w :
  faults E AckSend = None →
  let x := attempt (set_next_message_id (S (next_message_id w)) w) in
  result (guarded E ack lp err attempt w) =
    match faults E AckDelete with
    | Some e => Raise e
    | None =>
        match result x with
        | Ok _ => Ok tt
        | Raise e =>
            if is_Exception e then
              match faults E ErrorSend with Some e' => Raise e' | None => Ok tt end
            else Raise e
        end
    end.
Proof.
  intros Hs x. subst x.
  unfold guarded, reply_text, delete_message, send, call, try_finally, try_except,
    log, mbind, Mon_bind, get, modify, emit, mret, Mon_ret.
  rewrite Hs. cbn [fst snd app message_id].
  destruct (attempt _) as [[[[]|e] w1] ev1]; unfold result; cbn [fst snd].
  - by destruct (faults E AckDelete).
  - destruct (is_Exception e).
    + by destruct (faults E ErrorSend); destruct (faults E AckDelete).
    + by destruct (faults E AckDelete).
Qed.

(** An attempt that ends with an [Exception], the transport working. *)
Lemma guarded_raised ack lp err attempt w e :
  orderly attempt → (∀ s, chat_edge s = true → faults E s = None) →
  result (attempt (set_next_message_id (S (next_message_id w)) w)) = Raise e →
  is_Exception e = true →
  let x := guarded E ack lp err attempt w in
  result x = Ok tt ∧
  In (Logged "ERROR" (lp +:+ str_exn e)) (events x) ∧
  sent (events x) = [Text ack; Text err] ∧
  deleted (events x) = [mkMessage (next_message_id w)].
Proof.
  intros Hord Hedge Hx He x. subst x.
  pose proof (Hedge AckSend eq_refl) as Hack.
  pose proof (Hedge ErrorSend eq_refl) as Herr.
  pose proof (Hedge AckDelete eq_refl) as Hdel.
  destruct (guarded_farewell E ack lp err attempt w Hord Hack) as (_ & _ & Hd).
  rewrite (guarded_result ack lp err attempt w Hack), Hdel, Hx, He, Herr.
  split; [done|]. split; [|split; [|by apply Hd]].
  - rewrite (guarded_events E ack lp err attempt w Hack), Hx.
    unfold recovery_events. rewrite He. apply in_or_app. right.
    apply in_or_app. right. apply in_or_app. left. by left.
  - destruct Hord as [_ Hquiet].
    rewrite (guarded_events E ack lp err attempt w Hack), !sent_app.
    rewrite (quiet_sent _ (Hquiet _ _ Hx)), Hx.
    unfold recovery_events, farewell_events. by rewrite He, Herr, Hdel.
Qed.

End VideoHandler.

(** C9.  Whatever exit status the mux command returns, the video handler
    goes on the same: it runs exactly as with any other status, and when the
    stages before it went through it calls [reply_video]. *)
Theorem mux_status_unchecked (E : env) (update : Update) (w : world)
    (att : Attachment) (a : AudioSegment) :
  (∀ s, s ≠ Send → faults E s = None) →
  (model_loaded (self w) = true → is_Some (model (self w))) →
  video update = Some att → clip_audio E (served E (file_id att)) = Some a →
  ∀ st : Z,
    handle_video (with_mux_status st E) update w = handle_video E update w ∧
    In (Call Send [Str "Translated Video"])
       (events (handle_video (with_mux_status st E) update w)).
Proof.
  intros Hok Hinv Hv Ha st.
  rewrite (handle_video_status E st update w). split; [done|].
  rewrite handle_video_guarded, (guarded_events E _ _ _ _ w (Hok AckSend ltac:(done))).
  apply in_or_app. right. apply in_or_app. left.
  eapply video_attempt_delivers; eauto.
Qed.

(** C10.  A video whose clip has no audio track, every external call going
    through: the extraction raises the [AttributeError] of [None], the
    handler logs it and returns normally, the chat is sent the
    acknowledgment and the fixed video error text and nothing else, and the
    acknowledgment is deleted. *)
Theorem video_without_audio_track (E : env) (update : Update) (w : world)
    (att : Attachment) :
  (∀ s, faults E s = None) →
  video update = Some att → clip_audio E (served E (file_id att)) = None →
  let x := handle_video E update w in
  result (video_attempt E update (set_next_message_id (S (next_message_id w)) w)) =
    Raise (Exception_ "AttributeError"
             "'NoneType' object has no attribute 'write_audiofile'") ∧
  result x = Ok tt ∧
  In (Logged "ERROR"
        "Video processing error: 'NoneType' object has no attribute 'write_audiofile'")
     (events x) ∧
  sent (events x) =
    [Text "🎥 Processing video..."; Text "❌ Error processing video. Please try again."] ∧
  deleted (events x) = [mkMessage (next_message_id w)].
Proof.
  intros Hok Hv Ha x. subst x.
  pose proof (video_attempt_silent_clip E update
    (set_next_message_id (S (next_message_id w)) w) att Hok Hv Ha) as Hx.
  split; [exact Hx|].
  rewrite handle_video_guarded.
  exact (guarded_raised E "🎥 Processing video..." "Video processing error: "
           video_error (video_attempt E update) w (NoneType_has_no "write_audiofile")
           (video_attempt_orderly E update) (λ s _, Hok s) Hx eq_refl).
Qed.

(** * Rules for [scoped] *)

Section Scoped.
Context {S : Type} (fs : S → gmap path content).

Lemma scoped_ret {A} (a : A) : scoped fs (mret a).
Proof. by intros s. Qed.

Lemma scoped_raise {A} e : scoped (A:=A) fs (raise e).
Proof. by intros s. Qed.

Lemma scoped_get : scoped fs get.
Proof. by intros s. Qed.

Lemma scoped_emit ev : (∀ p, ev ≠ Created p) → scoped fs (emit ev).
Proof. intros Hev s. split; [done|]. destruct ev; try done. by destruct (Hev p). Qed.

Lemma scoped_modify f : (∀ s, dom (fs s) ⊆ dom (fs (f s))) → scoped fs (modify f).
Proof. intros Hf s. split; [apply Hf|done]. Qed.

Lemma scoped_bind {A B} (m : Mon S A) (k : A → Mon S B) :
  scoped fs m → (∀ a, scoped fs (k a)) → scoped fs (m ≫= k).
Proof.
  intros Hm Hk s. destruct (Hm s) as [Hd Hc]. unfold mbind, Mon_bind.
  destruct (m s) as [[[a|e] s1] ev1]; [|done].
  destruct (Hk a s1) as [Hd' Hc']. destruct (k a s1) as [[r s2] ev2].
  unfold final, events in *. cbn [fst snd] in *. split; [set_solver|].
  intros p. rewrite created_app. intros [Hp|Hp]%in_app_or; [by apply Hc|].
  apply Hc' in Hp. apply not_elem_of_dom. apply not_elem_of_dom in Hp. set_solver.
Qed.

Lemma scoped_try_finally {A} (m : Mon S A) (f : Mon S unit) :
  scoped fs m → scoped fs f → scoped fs (try_finally m f).
Proof.
  intros Hm Hf s. destruct (Hm s) as [Hd Hc]. unfold try_finally.
  destruct (m s) as [[r s1] ev1].
  destruct (Hf s1) as [Hd' Hc']. destruct (f s1) as [[[[]|e] s2] ev2];
    unfold final, events in *; cbn [fst snd] in *.
  all: split; [set_solver|].
  all: intros p; rewrite created_app; intros [Hp|Hp]%in_app_or; [by apply Hc|].
  all: apply Hc' in Hp; apply not_elem_of_dom; apply not_elem_of_dom in Hp; set_solver.
Qed.

Lemma scoped_try_except {A} (m : Mon S A) (h : exn → Mon S A) :
  scoped fs m → (∀ e, scoped fs (h e)) → scoped fs (try_except m h).
Proof.
  intros Hm Hh s. destruct (Hm s) as [Hd Hc]. unfold try_except.
  destruct (m s) as [[[a|e] s1] ev1]; [done|].
  destruct (is_Exception e); [|done].
  destruct (Hh e s1) as [Hd' Hc']. destruct (h e s1) as [[r s2] ev2].
  unfold final, events in *. cbn [fst snd] in *. split; [set_solver|].
  intros p. rewrite created_app. intros [Hp|Hp]%in_app_or; [by apply Hc|].
  apply Hc' in Hp. apply not_elem_of_dom. apply not_elem_of_dom in Hp. set_solver.
Qed.

Lemma scoped_call (E : env) {A} st args (k : Mon S A) :
  scoped fs k → scoped fs (call E st args k).
Proof.
  intros Hk s. destruct (Hk s) as [Hd Hc]. unfold call.
  destruct (faults E st); [done|]. by destruct (k s) as [[r s1] ev].
Qed.

End Scoped.

Lemma scoped_lift {L A : Type} (m : Mon world A) :
  scoped files m → scoped (λ s : world * L, files s.1) (lift m).
Proof.
  intros Hm [w l]. destruct (Hm w) as [Hd Hc]. unfold lift. cbn [fst snd].
  by destruct (m w) as [[r w1] ev].
Qed.

Ltac scope :=
  repeat first
    [ apply scoped_ret | apply scoped_raise | apply scoped_get
    | apply scoped_emit; done
    | apply scoped_call
    | apply scoped_bind; [|intros ?]
    | apply scoped_lift
    | match goal with
      | |- scoped _ (modify _) => by apply scoped_modify
      | |- scoped _ (match ?x with _ => _ end) => destruct x
      | |- scoped _ (let _ := _ in _) => cbv zeta
      end ].

Section ScopedStages.
Context (E : env).

Lemma write_file_scoped p c : scoped files (write_file p c).
Proof.
  intros w. rewrite write_file_run. unfold final, events, set_files. simpl.
  split; [|done]. rewrite dom_insert_L. set_solver.
Qed.

Lemma NamedTemporaryFile_scoped s sfx : scoped files (NamedTemporaryFile E s sfx).
Proof.
  intros w. unfold NamedTemporaryFile, call, mbind, Mon_bind, get, modify, emit,
    mret, Mon_ret.
  destruct (faults E s); [done|]. unfold final, events, set_files. simpl.
  split; [rewrite dom_insert_L; set_solver|].
  intros p [<-|[]]. apply fresh_path_free.
Qed.

Lemma load_model_scoped : scoped files (load_model E).
Proof.
  unfold load_model, new_WhisperModel, log.
  apply scoped_bind; [apply scoped_get|]. intros w.
  destruct (model_loaded (self w)); [apply scoped_ret|].
  apply scoped_bind; [apply scoped_get|]. intros w'.
  destruct (negb (model_loaded (self w'))); [|apply scoped_ret].
  apply scoped_try_except; [|intros e]; scope.
Qed.

Lemma read_file_scoped p : scoped files (read_file p).
Proof. unfold read_file. scope. Qed.

Lemma get_file_scoped a : scoped files (get_file E a).
Proof. unfold get_file. scope. Qed.

Lemma download_to_drive_scoped f p : scoped files (download_to_drive E f p).
Proof. unfold download_to_drive. apply scoped_call, write_file_scoped. Qed.

Lemma gTTS_save_scoped t lang p : scoped files (gTTS_save E t lang p).
Proof. unfold gTTS_save. apply scoped_call, write_file_scoped. Qed.

Lemma extract_audio_scoped v out codec : scoped files (extract_audio E v out codec).
Proof.
  unfold extract_audio. apply scoped_call.
  apply scoped_bind; [apply read_file_scoped|]. intros c.
  destruct (clip_audio E c); [apply write_file_scoped|apply scoped_raise].
Qed.

Lemma os_system_scoped cmd out : scoped files (os_system E cmd out).
Proof.
  unfold os_system. apply scoped_call.
  apply scoped_bind; [|intros ?; apply scoped_ret].
  destruct (mux_output E); [apply write_file_scoped|apply scoped_ret].
Qed.

Lemma send_scoped s args b : scoped files (send E s args b).
Proof. unfold send. scope. Qed.

Lemma delete_message_scoped m : scoped files (delete_message E m).
Proof. unfold delete_message. scope. Qed.

Lemma export_scoped a p f : scoped files (export E a p f).
Proof. unfold export. apply scoped_call, write_file_scoped. Qed.

Lemma transcribe_and_translate_scoped p : scoped files (transcribe_and_translate E p).
Proof. unfold transcribe_and_translate, transcribe, translate, read_file. scope. Qed.

Lemma from_file_scoped p : scoped files (from_file E p).
Proof. unfold from_file, read_file. scope. Qed.

Lemma normalize_scoped a : scoped files (normalize E a).
Proof. unfold normalize. scope. Qed.

(** A [with] block over a temporary file: the file is new, and gone after. *)
Lemma with_NamedTemporaryFile_scoped {A : Type} (s : site) (sfx : string)
    (body : path → Mon world A) :
  (∀ p, scoped files (body p)) → scoped files (with_NamedTemporaryFile E s sfx body).
Proof.
  intros Hbody w. unfold with_NamedTemporaryFile, mbind, Mon_bind.
  destruct (faults E s) as [e|] eqn:Hs.
  { unfold NamedTemporaryFile. by rewrite (call_fault E _ _ _ _ _ Hs). }
  rewrite (NamedTemporaryFile_ok E _ _ _ Hs).
  set (p := fresh_path sfx (files w)).
  set (w1 := set_files (insert p Blank) w).
  assert (Hp : files w !! p = None) by apply fresh_path_free.
  assert (Hp' : p ∉ dom (files w)) by by apply not_elem_of_dom.
  assert (Hd1 : dom (files w) ⊆ dom (files w1)).
  { unfold w1, set_files. cbn [files]. rewrite dom_insert_L. set_solver. }
  destruct (Hbody p w1) as [Hd Hc]. unfold try_finally.
  destruct (body p w1) as [[r w2] ev2].
  pose proof (close_temporary_files p w2) as Hclose.
  pose proof (close_temporary_harmless true p w2) as [_ Hplain].
  assert (Hnone : created (events (close_temporary true p w2)) = []).
  { unfold close_temporary, mbind, Mon_bind. rewrite path_exists_run.
    destruct (files w2 !! p) as [c|] eqn:Hp2.
    - rewrite bool_decide_true by eauto. by rewrite (unlink_ok _ _ _ Hp2).
    - by rewrite bool_decide_false by (by intros [? ?]). }
  destruct (close_temporary true p w2) as [[[[]|e] w3] ev3];
    unfold final, events in *; cbn [fst snd] in *.
  all: split;
    [rewrite Hclose, dom_delete_L; intros q Hq; apply elem_of_difference;
     split; [auto|rewrite elem_of_singleton; congruence]|].
  all: intros q; rewrite !created_app, Hnone, app_nil_r.
  all: intros [[<-|[]]|Hq]%in_app_or; [done|].
  all: apply Hc in Hq; apply not_elem_of_dom; apply not_elem_of_dom in Hq; auto.
Qed.

End ScopedStages.

Section ScopedHandlers.
Context (E : env).

Lemma process_audio_try_scoped f :
  scoped (λ s : world * option path, files s.1) (process_audio_try E f).
Proof.
  unfold process_audio_try.
  apply scoped_bind; [apply scoped_lift, from_file_scoped|]. intros a.
  apply scoped_bind; [apply scoped_lift, normalize_scoped|]. intros a'.
  apply scoped_bind; [apply scoped_lift, NamedTemporaryFile_scoped|]. intros p.
  apply scoped_bind; [by intros s|]. intros _.
  apply scoped_bind; [apply scoped_lift, export_scoped|]. intros _.
  apply scoped_lift, transcribe_and_translate_scoped.
Qed.

Lemma process_audio_finally_creates s :
  created (events (process_audio_finally s)) = [].
Proof.
  destruct s as [w [p|]]; [|done].
  unfold process_audio_finally, mbind, Mon_bind, locals. cbn [fst snd].
  rewrite (lift_run _ _ _ _ _ _ (path_exists_run _ _)).
  destruct (files w !! p) as [c|] eqn:Hp.
  - rewrite bool_decide_true by eauto.
    by rewrite (lift_run _ _ _ _ _ _ (unlink_ok _ _ _ Hp)).
  - by rewrite bool_decide_false by (by intros [? ?]).
Qed.

Lemma process_audio_scoped f : scoped files (process_audio E f).
Proof.
  intros w. split.
  - intros q. rewrite !elem_of_dom.
    by rewrite (process_audio_keeps E ∅ f w q (not_elem_of_empty q)).
  - intros p. destruct (process_audio_try_scoped f (w, None)) as [_ Hc].
    specialize (Hc p). unfold process_audio, in_frame, try_finally.
    destruct (process_audio_try E f (w, None)) as [[r s1] ev1].
    pose proof (process_audio_finally_creates s1) as Hfin.
    destruct (process_audio_finally s1) as [[[[]|e] s2] ev2];
      unfold events in *; cbn [fst snd] in *;
      rewrite created_app, Hfin, app_nil_r; exact Hc.
Qed.

Lemma audio_attempt_scoped update : scoped files (audio_attempt E update).
Proof.
  unfold audio_attempt.
  apply scoped_bind; [apply load_model_scoped|]. intros _.
  apply with_NamedTemporaryFile_scoped. intros temp_audio.
  apply scoped_bind; [apply get_file_scoped|]. intros audio_file.
  apply scoped_bind; [apply download_to_drive_scoped|]. intros _.
  apply scoped_bind; [apply process_audio_scoped|]. intros translated_text.
  apply with_NamedTemporaryFile_scoped. intros output_file.
  apply scoped_bind; [apply gTTS_save_scoped|]. intros _.
  apply scoped_bind; [apply read_file_scoped|]. intros c.
  apply scoped_bind; [apply send_scoped|]. intros _. apply scoped_ret.
Qed.

Lemma video_attempt_scoped update : scoped files (video_attempt E update).
Proof.
  unfold video_attempt.
  apply scoped_bind; [apply load_model_scoped|]. intros _.
  apply with_NamedTemporaryFile_scoped. intros temp_video.
  apply with_NamedTemporaryFile_scoped. intros temp_audio.
  apply scoped_bind; [apply get_file_scoped|]. intros video_file.
  apply scoped_bind; [apply download_to_drive_scoped|]. intros _.
  apply scoped_bind; [apply extract_audio_scoped|]. intros _.
  apply scoped_bind; [apply process_audio_scoped|]. intros translated_text.
  apply with_NamedTemporaryFile_scoped. intros tts_file.
  apply with_NamedTemporaryFile_scoped. intros output_file.
  apply scoped_bind; [apply gTTS_save_scoped|]. intros _. cbv zeta.
  apply scoped_bind; [apply os_system_scoped|]. intros _.
  apply scoped_bind; [apply read_file_scoped|]. intros c.
  apply scoped_bind; [apply send_scoped|]. intros _. apply scoped_ret.
Qed.

Lemma guarded_scoped ack lp err attempt :
  scoped files attempt → scoped files (guarded E ack lp err attempt).
Proof.
  intros Ha. unfold guarded, reply_text, log.
  apply scoped_bind; [apply send_scoped|]. intros m.
  apply scoped_try_finally; [|apply delete_message_scoped].
  apply scoped_try_except; [done|]. intros e.
  apply scoped_bind; [by apply scoped_emit|]. intros _.
  apply scoped_bind; [apply send_scoped|]. intros _. apply scoped_ret.
Qed.

(** After a guarded attempt that is scoped and keeps the files, the
    directory is as before and nothing it created is left. *)
Lemma guarded_leaves_nothing ack lp err attempt w :
  keeps files ∅ attempt → scoped files attempt →
  let x := guarded E ack lp err attempt w in
  files (final x) = files w ∧
  ∀ p, In p (created (events x)) → files (final x) !! p = None.
Proof.
  intros Hk Hs x. subst x.
  pose proof (guarded_files E ack lp err attempt w Hk) as Hf.
  split; [done|]. intros p Hp. rewrite Hf.
  by apply (guarded_scoped ack lp err attempt Hs w).
Qed.

End ScopedHandlers.

(** C1.  Audio or video, on every way out of the handler: the temporary
    directory is what it was when the request came in, and no file the
    request created (the downloaded .ogg or .mp4, the extracted and the
    normalised .wav, the synthesised .mp3, the remuxed .mp4) is in it. *)
Theorem temporary_files_removed (E : env) (update : Update) (w : world) :
  let a := handle_audio E update w in
  let v := handle_video E update w in
  (files (final a) = files w ∧
   ∀ p, In p (created (events a)) → files (final a) !! p = None) ∧
  (files (final v) = files w ∧
   ∀ p, In p (created (events v)) → files (final v) !! p = None).
Proof.
  split.
  - apply guarded_leaves_nothing;
      [apply audio_attempt_keeps|apply audio_attempt_scoped].
  - apply guarded_leaves_nothing;
      [apply video_attempt_keeps|apply video_attempt_scoped].
Qed.

(** * The statements on sample runs *)

Ltac find_event := repeat first [left; reflexivity | right].

Example audio_run_creates :
  created (events (handle_audio (sample_env no_faults) audio_update empty_world)) =
    [(0, ".ogg"); (1, ".wav"); (1, ".mp3")] ∧
  files (final (handle_audio (sample_env no_faults) audio_update empty_world)) = ∅.
Proof. by vm_compute. Qed.

Example video_run_creates :
  created (events (handle_video (sample_env no_faults) video_update empty_world)) =
    [(0, ".mp4"); (1, ".wav"); (2, ".wav"); (2, ".mp3"); (3, ".mp4")] ∧
  files (final (handle_video (sample_env no_faults) video_update empty_world)) = ∅.
Proof. by vm_compute. Qed.

(** The synthesis raising in a video request. *)
Lemma acknowledgment_deleted_once_witness :
  faults (sample_env (fault_at Synthesize boom)) AckSend = None ∧
  deleted (events (handle_video (sample_env (fault_at Synthesize boom)) video_update
                     empty_world)) = [mkMessage 0].
Proof.
  split; [reflexivity|].
  exact (proj2 (proj2 (proj2
    (acknowledgment_deleted_once (sample_env (fault_at Synthesize boom)) video_update
       empty_world eq_refl))) eq_refl).
Defined.

(** Two calls in a row, the first constructor call raising. *)
Lemma one_successful_construction_witness :
  (length (List.filter Interleave.succeeded
     (Interleave.constructions
        (Interleave.run_schedule Interleave.retry_schedule Interleave.init))) ≤ 1)%nat.
Proof. exact (proj1 (one_successful_construction Interleave.retry_schedule)). Defined.

(** The constructor raising on a fresh bot, then a second call. *)
Lemma construction_failure_propagates_witness :
  model_loaded (self empty_world) = false ∧
  faults (sample_env (fault_at Construct boom)) Construct = Some boom ∧
  result (load_model (sample_env (fault_at Construct boom)) empty_world) = Raise boom ∧
  calls_at Construct
    (events (load_model (sample_env no_faults)
               (final (load_model (sample_env (fault_at Construct boom)) empty_world)))) =
    [construct_args].
Proof.
  split; [reflexivity|]. split; [reflexivity|].
  pose proof (construction_failure_propagates (sample_env (fault_at Construct boom))
                (sample_env no_faults) empty_world boom eq_refl eq_refl) as H.
  split; [exact (proj1 H)|exact (proj2 (proj2 (proj2 (proj2 H))))].
Defined.

(** A voice clip in which nothing is recognised. *)
Lemma silence_flows_through_witness :
  (recognized silence_env
     (Wav (set_channels 1 (set_frame_rate 16000 (decoded silence_env (Blob "voice-1")))))).1
    = [] ∧
  result (process_audio silence_env voice_path loaded_world) = Ok EmptyString.
Proof.
  split; [reflexivity|].
  exact (proj1 (proj2 (silence_flows_through silence_env voice_path loaded_world
    (Blob "voice-1") small_model eq_refl eq_refl eq_refl eq_refl eq_refl eq_refl
    eq_refl eq_refl eq_refl))).
Defined.

(** A 48 kHz stereo clip. *)
Lemma normalized_mono_16k_witness :
  files loaded_world !! voice_path = Some (Blob "voice-1") ∧
  ∃ p a,
    created (events (process_audio (sample_env no_faults) voice_path loaded_world)) = [p] ∧
    path_suffix p = ".wav" ∧
    written (events (process_audio (sample_env no_faults) voice_path loaded_world)) =
      [(p, Wav a)] ∧
    channels a = 1%Z ∧ frame_rate a = 16000%Z.
Proof.
  split; [reflexivity|].
  exact (normalized_mono_16k (sample_env no_faults) voice_path loaded_world
           (Blob "voice-1") eq_refl eq_refl eq_refl eq_refl eq_refl).
Defined.

(** ffmpeg exiting with status 256. *)
Lemma mux_status_unchecked_witness :
  video video_update = Some (mkAttachment "clip-1") ∧
  In (Call Send [Str "Translated Video"])
     (events (handle_video (with_mux_status 256 (sample_env no_faults)) video_update
                empty_world)).
Proof.
  split; [reflexivity|].
  refine (proj2 (mux_status_unchecked (sample_env no_faults) video_update empty_world
    (mkAttachment "clip-1") (mkAudio 44100 2 2 5000) _ _ eq_refl eq_refl 256%Z)).
  - intros s _. reflexivity.
  - intros H. discriminate H.
Defined.

(** A clip without an audio track. *)
Lemma video_without_audio_track_witness :
  clip_audio mute_clip_env (served mute_clip_env "clip-1") = None ∧
  sent (events (handle_video mute_clip_env video_update empty_world)) =
    [Text "🎥 Processing video..."; Text "❌ Error processing video. Please try again."] ∧
  deleted (events (handle_video mute_clip_env video_update empty_world)) = [mkMessage 0].
Proof.
  split; [reflexivity|].
  refine (proj2 (proj2 (proj2 (video_without_audio_track mute_clip_env video_update
    empty_world (mkAttachment "clip-1") _ eq_refl eq_refl)))).
  intros s. reflexivity.
Defined.

(** * Further properties of the code *)

(** * More on [load_model] *)

Section LoadModel.
Context (E : env).

Lemma load_model_cases w :
  (model_loaded (self w) = true ∧ load_model E w = (Ok tt, w, [])) ∨
  (model_loaded (self w) = false ∧ faults E Construct = None ∧
   load_model E w =
     (Ok tt, set_self (λ _, mkBot (Some small_model) true) w,
      [Logged "INFO" "Loading Whisper model..."; Call Construct construct_args;
       Logged "INFO" "Model loaded successfully"])) ∨
  (model_loaded (self w) = false ∧ ∃ e, faults E Construct = Some e ∧
   result (load_model E w) = Raise e ∧ final (load_model E w) = w).
Proof.
  destruct (model_loaded (self w)) eqn:Hl.
  - left. split; [done|]. by apply load_model_loaded.
  - right. destruct (faults E Construct) as [e|] eqn:Hc.
    + right. split; [done|]. exists e. split; [done|]. by apply load_model_raises.
    + left. split; [done|]. split; [done|].
      unfold load_model, new_WhisperModel, call, try_except, log,
        mbind, Mon_bind, get, modify, emit, mret, Mon_ret, raise.
      rewrite Hl. cbv beta iota. rewrite Hl, Hc. cbn [negb]. reflexivity.
Qed.

End LoadModel.

(** X1.  Every call of [load_model], whatever the constructor does, keeps a
    set flag set, keeps "flag set implies model present", and touches neither
    the temporary directory nor the chat. *)
Theorem load_model_keeps_ready (E : env) (w : world) :
  let w' := final (load_model E w) in
  (bot_ready (self w) → bot_ready (self w')) ∧
  (model_loaded (self w) = true → self w' = self w) ∧
  files w' = files w ∧ next_message_id w' = next_message_id w.
Proof.
  cbv zeta. destruct (load_model_cases E w) as [[Hl Hr]|[(Hl & Hc & Hr)|(Hl & e & Hc & Hr & Hf)]].
  - by rewrite Hr.
  - rewrite Hr. unfold final, bot_ready. cbn. rewrite Hl. repeat split; eauto. done.
  - by rewrite Hf.
Qed.

(** X2.  When the constructor does not raise, [load_model] returns with the
    flag set and a model in place, and a call made after it returns at once:
    it calls nothing, logs nothing and changes nothing. *)
Theorem load_model_idempotent (E E' : env) (w : world) :
  faults E Construct = None →
  let w' := final (load_model E w) in
  result (load_model E w) = Ok tt ∧
  model_loaded (self w') = true ∧
  (model_loaded (self w) = false → model (self w') = Some small_model) ∧
  load_model E' w' = (Ok tt, w', []).
Proof.
  intros Hc. cbv zeta.
  destruct (load_model_cases E w) as [[Hl Hr]|[(Hl & _ & Hr)|(Hl & e & Hc' & _)]];
    [| |congruence].
  - rewrite Hr. unfold result, final. cbn [fst snd].
    split; [done|]. split; [done|]. split; [congruence|by apply load_model_loaded].
  - rewrite Hr. unfold result, final. cbn [fst snd].
    split; [done|]. split; [done|]. split; [done|by apply load_model_loaded].
Qed.

Lemma load_model_idempotent_witness :
  faults (sample_env no_faults) Construct = None ∧
  load_model (sample_env (fault_at Construct boom))
    (final (load_model (sample_env no_faults) empty_world)) =
  (Ok tt, final (load_model (sample_env no_faults) empty_world), []).
Proof.
  split; [reflexivity|].
  exact (proj2 (proj2 (proj2 (load_model_idempotent (sample_env no_faults)
    (sample_env (fault_at Construct boom)) empty_world eq_refl)))).
Defined.

(** * Rules for [fixes] *)

Section Fixes.
Context {S B : Type} (proj : S → B).

Lemma fixes_ret {A} (a : A) : fixes proj (mret a).
Proof. by intros s. Qed.

Lemma fixes_raise {A} e : fixes (A:=A) proj (raise e).
Proof. by intros s. Qed.

Lemma fixes_get : fixes proj get.
Proof. by intros s. Qed.

Lemma fixes_emit ev : fixes proj (emit ev).
Proof. by intros s. Qed.

Lemma fixes_bind {A C} (m : Mon S A) (k : A → Mon S C) :
  fixes proj m → (∀ a, fixes proj (k a)) → fixes proj (m ≫= k).
Proof.
  intros Hm Hk s. specialize (Hm s). unfold mbind, Mon_bind.
  destruct (m s) as [[[a|e] s1] ev1]; [|done].
  specialize (Hk a s1). destruct (k a s1) as [[r s2] ev2].
  unfold final in *. cbn [fst snd] in *. congruence.
Qed.

Lemma fixes_try_finally {A} (m : Mon S A) (f : Mon S unit) :
  fixes proj m → fixes proj f → fixes proj (try_finally m f).
Proof.
  intros Hm Hf s. specialize (Hm s). unfold try_finally.
  destruct (m s) as [[r s1] ev1]. specialize (Hf s1).
  destruct (f s1) as [[[[]|e] s2] ev2]; unfold final in *; cbn [fst snd] in *; congruence.
Qed.

Lemma fixes_call (E : env) {A} st args (k : Mon S A) :
  fixes proj k → fixes proj (call E st args k).
Proof.
  intros Hk s. specialize (Hk s). unfold call.
  destruct (faults E st); [done|]. by destruct (k s) as [[r s1] ev].
Qed.

Lemma fixes_stateless {A} (m : Mon S A) : stateless m → fixes proj m.
Proof. intros Hm s. by rewrite Hm. Qed.

End Fixes.

Lemma fixes_lift {L A B : Type} (proj : world → B) (m : Mon world A) :
  fixes proj m → fixes (λ s : world * L, proj s.1) (lift m).
Proof.
  intros Hm [w l]. specialize (Hm w). unfold lift. cbn [fst snd].
  by destruct (m w) as [[r w1] ev].
Qed.

Ltac fix_tac :=
  repeat first
    [ apply fixes_ret | apply fixes_raise | apply fixes_get | apply fixes_emit
    | apply fixes_call
    | apply fixes_bind; [|intros ?]
    | apply fixes_lift
    | match goal with
      | |- fixes _ (modify _) => by intros ?
      | |- fixes _ (match ?x with _ => _ end) => destruct x
      | |- fixes _ (let _ := _ in _) => cbv zeta
      end ].

(** * More on [process_audio] *)

Section ProcessAudioMore.
Context (E : env).

Lemma process_audio_fixes f : fixes bot_and_chat (process_audio E f).
Proof.
  assert (Htry : fixes (λ s : world * option path, bot_and_chat s.1)
                   (process_audio_try E f)).
  { unfold process_audio_try, from_file, normalize, NamedTemporaryFile, export,
      transcribe_and_translate, transcribe, translate, read_file, write_file,
      bind_local.
    fix_tac. by intros ?. }
  assert (Hfin : fixes (λ s : world * option path, bot_and_chat s.1)
                   process_audio_finally).
  { unfold process_audio_finally, path_exists, unlink, locals. fix_tac. }
  intros w. unfold process_audio, in_frame.
  pose proof (fixes_try_finally _ _ _ Htry Hfin (w, None)) as H.
  by destruct (try_finally _ _ (w, None)) as [[r [w1 l]] ev].
Qed.

Lemma world_eq (w1 w2 : world) :
  self w1 = self w2 → files w1 = files w2 → next_message_id w1 = next_message_id w2 →
  w1 = w2.
Proof. destruct w1, w2. simpl. by intros -> -> ->. Qed.

End ProcessAudioMore.

(** X3.  On every way out, [process_audio] leaves the bot, the chat and the
    temporary directory exactly as it found them: the input file is neither
    changed nor removed and no file of its own stays behind. *)
Theorem process_audio_restores_world (E : env) (f : path) (w : world) :
  final (process_audio E f w) = w.
Proof.
  pose proof (process_audio_fixes E f w) as Hb. unfold bot_and_chat in Hb.
  apply world_eq; [congruence| |congruence].
  apply map_eq. intros q. apply (process_audio_keeps E ∅ f w q), not_elem_of_empty.
Qed.

(** X4.  When decoding the input raises, [process_audio] raises the same
    exception having made no other call and created no file. *)
Theorem decode_failure_creates_nothing (E : env) (f : path) (w : world) (e : exn) :
  faults E Decode = Some e →
  process_audio E f w = (Raise e, w, [Call Decode [Name f]; Fault Decode e]).
Proof.
  intros Hd.
  unfold process_audio, in_frame, try_finally, process_audio_try, mbind, Mon_bind.
  unfold from_file at 1.
  rewrite (lift_run _ _ _ _ _ _ (call_fault E _ _ _ _ _ Hd)).
  reflexivity.
Qed.

Lemma decode_failure_creates_nothing_witness :
  faults (sample_env (fault_at Decode boom)) Decode = Some boom ∧
  created (events (process_audio (sample_env (fault_at Decode boom)) voice_path
                     loaded_world)) = [].
Proof.
  split; [reflexivity|].
  by rewrite (decode_failure_creates_nothing (sample_env (fault_at Decode boom))
                voice_path loaded_world boom eq_refl).
Defined.

(** X5.  Called on a bot that has no model, with the input decoded and
    exported, [process_audio] raises the [AttributeError] of [None] at the
    transcription, never calls the translator, and still removes the .wav
    file it made. *)
Theorem process_audio_without_model (E : env) (f : path) (w : world) (c : content) :
  faults E Decode = None → faults E Convert = None → faults E MkWav = None →
  faults E Export = None → faults E Transcribe = None →
  files w !! f = Some c → model (self w) = None →
  let x := process_audio E f w in
  result x = Raise (Exception_ "AttributeError"
                      "'NoneType' object has no attribute 'transcribe'") ∧
  calls_at Translate (events x) = [] ∧
  In (Unlinked (fresh_path ".wav" (files w))) (events x) ∧
  final x = w.
Proof.
  intros H1 H2 H3 H4 H5 Hf Hm x. subst x.
  destruct (process_audio_exported E f w c H1 H2 H3 H4 Hf) as (Hw & Hr & Hfin & Hev).
  rewrite Hr, Hev, Hfin.
  assert (Hy : transcribe_and_translate E (fresh_path ".wav" (files w))
      (set_files (insert (fresh_path ".wav" (files w))
                    (Wav (set_channels 1 (set_frame_rate 16000 (decoded E c)))))
         (set_files (insert (fresh_path ".wav" (files w)) Blank) w))
    = (Raise (NoneType_has_no "transcribe"),
       set_files (insert (fresh_path ".wav" (files w))
                    (Wav (set_channels 1 (set_frame_rate 16000 (decoded E c)))))
         (set_files (insert (fresh_path ".wav" (files w)) Blank) w),
       [Call Transcribe [Name (fresh_path ".wav" (files w))]])).
  { unfold transcribe_and_translate, transcribe, call, mbind, Mon_bind, get, raise.
    rewrite H5. cbn [self set_files]. by rewrite Hm. }
  rewrite Hy. split; [done|]. split; [done|]. split; [|done].
  apply in_or_app. right. apply in_or_app. right. by left.
Qed.

Lemma process_audio_without_model_witness :
  model (self (mkWorld fresh_bot (files loaded_world) 0)) = None ∧
  result (process_audio (sample_env no_faults) voice_path
            (mkWorld fresh_bot (files loaded_world) 0)) =
    Raise (Exception_ "AttributeError" "'NoneType' object has no attribute 'transcribe'").
Proof.
  split; [reflexivity|].
  exact (proj1 (process_audio_without_model (sample_env no_faults) voice_path
    (mkWorld fresh_bot (files loaded_world) 0) (Blob "voice-1")
    eq_refl eq_refl eq_refl eq_refl eq_refl eq_refl eq_refl)).
Defined.

Lemma no_translate_calls evs :
  Forall (λ ev, no_translate ev = true) evs → calls_at Translate evs = [].
Proof.
  induction 1 as [|ev evs Hev _ IH]; [done|].
  destruct ev as [s a| | | | | | |]; try exact IH.
  destruct s; try exact IH. done.
Qed.

Lemma plain_no_translate ev : plain ev = true → no_translate ev = true.
Proof. by destruct ev. Qed.

Section TranslatesOnce.
Context (E : env).

Lemma translates_once_bind {S A B} (m : Mon S A) (k : A → Mon S B) s :
  obeys no_translate m → (∀ a s1, translates_once (events (k a s1))) →
  translates_once (events ((m ≫= k) s)).
Proof.
  intros [_ Hm] Hk. specialize (Hm s). unfold mbind, Mon_bind.
  destruct (m s) as [[[a|e] s1] ev1].
  - specialize (Hk a s1). destruct (k a s1) as [[r s2] ev2].
    unfold events, translates_once in *. cbn [fst snd] in *.
    by rewrite calls_at_app, (no_translate_calls _ Hm).
  - left. by apply no_translate_calls.
Qed.

Lemma transcribe_and_translate_once p w :
  translates_once (events (transcribe_and_translate E p w)).
Proof.
  unfold transcribe_and_translate, transcribe, translate, read_file, call,
    mbind, Mon_bind, get, raise, mret, Mon_ret.
  destruct (faults E Transcribe); [by left|].
  destruct (model (self w)); [|by left].
  destruct (files w !! p); [|by left].
  cbn [fst snd app]. destruct (recognized E c) as [segments info].
  destruct (faults E Translate); right; by eexists.
Qed.

Lemma process_audio_try_once f s : translates_once (events (process_audio_try E f s)).
Proof.
  unfold process_audio_try.
  apply translates_once_bind.
  { apply obeys_lift. unfold from_file, read_file. obey. }
  intros a s1. apply translates_once_bind.
  { apply obeys_lift. unfold normalize. obey. }
  intros a' s2. apply translates_once_bind.
  { apply obeys_lift. unfold NamedTemporaryFile. obey. }
  intros p s3. apply translates_once_bind.
  { split; [intros ? ? ? []|intros ?; constructor]. }
  intros _ s4. apply translates_once_bind.
  { apply obeys_lift. unfold export, write_file. obey. }
  intros _ [w5 l]. unfold lift. cbn [fst snd].
  pose proof (transcribe_and_translate_once p w5) as H.
  by destruct (transcribe_and_translate E p w5) as [[r w6] ev].
Qed.

End TranslatesOnce.

(** X6.  On every path, [process_audio] calls the translator at most once,
    and with the language tags uz and en. *)
Theorem translates_uz_to_en_only (E : env) (f : path) (w : world) :
  translates_once (events (process_audio E f w)).
Proof.
  unfold process_audio, in_frame, try_finally.
  pose proof (process_audio_try_once E f (w, None)) as Htry.
  destruct (process_audio_try E f (w, None)) as [[r s1] ev1].
  destruct (process_audio_finally_harmless s1) as [_ Hp].
  destruct (process_audio_finally s1) as [[rf s2] ev2].
  unfold events, translates_once in *. cbn [fst snd] in *.
  assert (Hfin : calls_at Translate ev2 = []).
  { apply no_translate_calls. eapply Forall_impl; [exact Hp|]. apply plain_no_translate. }
  destruct rf as [[]|e]; cbn [snd]; by rewrite calls_at_app, Hfin, app_nil_r.
Qed.

(** * More on interleaved calls *)


Lemma model_in_place_step (i : nat) (o : option exn) (s : state) :
  model_in_place s → model_in_place (step i o s).
Proof.
  intros [Hl H44]. unfold step, goto.
  destruct (calls s i) eqn:Hpc;
    repeat match goal with
    | |- context [if ?b then _ else _] => destruct b eqn:?
    | |- context [match lock s with _ => _ end] => destruct (lock s)
    end;
    try done;
    (split; cbn [bot calls model model_loaded set_model set_model_loaded];
     [try done|
      intros j; destruct (decide (i = j)) as [<-|Hne];
      [rewrite fn_lookup_insert|rewrite fn_lookup_insert_ne by done];
      try done; try apply H44]).
  all: try (intros _; by eapply H44).
  all: try (destruct o as [e|]; [by destruct (is_Exception e)|done]).
  all: eauto.
Qed.

Lemma model_in_place_run (sch : schedule) (s : state) :
  model_in_place s → model_in_place (run_schedule sch s).
Proof.
  revert s. induction sch as [|[i o] sch IH]; intros s Hs; [done|].
  apply IH. by apply model_in_place_step.
Qed.

(** X7.  On every interleaving of [load_model] calls, the lock is held by a
    call exactly while that call is inside the [async with] block: two calls
    are never inside it together, and a call that returned or raised does not
    hold it. *)
Theorem lock_held_inside_block_only (sch : schedule) (i j : nat) :
  let s := run_schedule sch init in
  (lock s = Some i ↔ holds_lock (calls s i) = true) ∧
  (holds_lock (calls s i) = true → holds_lock (calls s j) = true → i = j) ∧
  (calls s i = Returned ∨ (∃ e, calls s i = Raised e) → lock s ≠ Some i).
Proof.
  intros s.
  assert (Hinv : invariant s) by apply run_schedule_invariant, invariant_init.
  pose proof Hinv as (Hlock & _ & _).
  split; [by rewrite Hlock|]. split; [by apply holder_unique|].
  intros Hdone Hk. apply Hlock in Hk.
  destruct Hdone as [Hr|[e Hr]]; by rewrite Hr in Hk.
Qed.

(** X8.  On every interleaving, a set flag comes with a model in place, and
    the flag once set stays set whatever runs after. *)
Theorem flag_set_means_model (sch sch' : schedule) :
  let s := run_schedule sch init in
  (model_loaded (bot s) = true → is_Some (model (bot s))) ∧
  (model_loaded (bot s) = true → model_loaded (bot (run_schedule sch' s)) = true).
Proof.
  intros s. split.
  - apply (model_in_place_run sch init). split; [done|]. intros i. done.
  - assert (Hinv : invariant s) by apply run_schedule_invariant, invariant_init.
    clearbody s. revert s Hinv.
    induction sch' as [|[i o] sch' IH]; intros s Hinv Hl; [done|].
    simpl. apply IH; [by apply step_invariant|].
    by apply (loaded_step i o s Hinv Hl).
Qed.

(** * More on the transcript *)

Lemma concat_app (sep : string) (l1 l2 : list string) :
  l1 ≠ [] → l2 ≠ [] →
  String.concat sep (l1 ++ l2) = String.concat sep l1 +:+ sep +:+ String.concat sep l2.
Proof.
  intros H1 H2. induction l1 as [|t [|t' l1] IH]; [done| |].
  - destruct l2 as [|u l2]; [done|]. reflexivity.
  - change (t +:+ sep +:+ String.concat sep ((t' :: l1) ++ l2) =
            (t +:+ sep +:+ String.concat sep (t' :: l1)) +:+ sep +:+ String.concat sep l2).
    rewrite IH by done. by rewrite !append_assoc.
Qed.

(** X9.  The transcript of one segment is its text with no space added, and
    the transcript of two non-empty runs of segments put end to end is the
    two transcripts with a single space between them. *)
Theorem transcript_app :
  (∀ s, transcript [s] = text s) ∧
  (∀ l1 l2, l1 ≠ [] → l2 ≠ [] →
     transcript (l1 ++ l2) = transcript l1 +:+ " " +:+ transcript l2).
Proof.
  split; [done|]. intros l1 l2 H1 H2. unfold transcript. rewrite map_app.
  apply concat_app; by destruct l1, l2.
Qed.

(** * Following a projection of the events *)

Section Pick.
Context {B : Type} (φ : event → option B).

Lemma pick_bind {S A C} (m : Mon S A) (k : A → Mon S C) s a s1 ev1 :
  m s = (Ok a, s1, ev1) →
  omap φ (events ((m ≫= k) s)) = omap φ ev1 ++ omap φ (events (k a s1)).
Proof.
  intros Hm. unfold mbind, Mon_bind. rewrite Hm.
  destruct (k a s1) as [[r s2] ev2]. apply omap_app.
Qed.

Lemma pick_plain evs :
  (∀ ev, plain ev = true → φ ev = None) →
  Forall (λ ev, plain ev = true) evs → omap φ evs = [].
Proof.
  intros Hφ. induction 1 as [|ev evs Hev _ IH]; [done|].
  cbn [omap list_omap]. by rewrite (Hφ ev Hev).
Qed.

Lemma pick_with_NamedTemporaryFile (E : env) {A} s sfx (body : path → Mon world A) w :
  faults E s = None → (∀ ev, plain ev = true → φ ev = None) →
  φ (Call s [Str sfx]) = None →
  omap φ (events (with_NamedTemporaryFile E s sfx body w)) =
  omap φ (events (body (fresh_path sfx (files w))
                    (set_files (insert (fresh_path sfx (files w)) Blank) w))).
Proof.
  intros Hs Hφ Hcall. unfold with_NamedTemporaryFile.
  rewrite (pick_bind _ _ _ _ _ _ (NamedTemporaryFile_ok E s sfx w Hs)).
  cbn [omap list_omap]. rewrite Hcall, (Hφ (Created _) eq_refl). cbn [app].
  unfold try_finally.
  destruct (body _ _) as [[r w2] ev2].
  destruct (close_temporary_harmless true (fresh_path sfx (files w)) w2) as [_ Hp].
  destruct (close_temporary true _ w2) as [[[[]|e] w3] ev3];
    unfold events in *; cbn [fst snd] in *;
    by rewrite omap_app, (pick_plain _ Hφ Hp), app_nil_r.
Qed.

End Pick.

(** * Requests that go through *)

Section Served.
Context (E : env) (Hok : ∀ s, faults E s = None).

Lemma process_audio_served f w c mdl :
  files w !! f = Some c → model (self w) = Some mdl →
  ∃ ev, process_audio E f w = (Ok (translation_of E c), w, ev) ∧
        Forall (λ ev, quiet ev = true) ev ∧ calls_at Mux ev = [].
Proof.
  intros Hf Hm.
  destruct (process_audio_exported E f w c (Hok _) (Hok _) (Hok _) (Hok _) Hf)
    as (Hw & Hr & Hfin & Hev).
  match type of Hw with files ?w3 !! _ = _ =>
    rewrite (transcribe_and_translate_ok E _ w3 _ mdl (Hok _) (Hok _) Hm Hw) in Hr, Hev end.
  destruct (process_audio E f w) as [[r w'] ev].
  unfold result, final, events in *. cbn [fst snd] in *. subst.
  eexists. split; [reflexivity|]. split; [by repeat constructor|done].
Qed.

Lemma send_served args b w :
  (send E Send args b;; mret tt) w =
    (Ok tt, set_next_message_id (S (next_message_id w)) w,
     [Call Send args; Sent (mkMessage (next_message_id w)) b]).
Proof.
  unfold send, call, mbind, Mon_bind, get, modify, emit, mret, Mon_ret.
  by rewrite Hok.
Qed.

Lemma load_model_served w :
  bot_ready (self w) →
  ∃ b mdl ev, load_model E w = (Ok tt, mkWorld b (files w) (next_message_id w), ev) ∧
    model b = Some mdl ∧ Forall (λ ev, quiet ev = true) ev ∧ calls_at Mux ev = [].
Proof.
  intros Hready.
  destruct (load_model_cases E w) as [[Hl Hr]|[(Hl & Hc & Hr)|(Hl & e & Hc & _)]].
  - destruct (Hready Hl) as [mdl Hm]. exists (self w), mdl, [].
    split; [rewrite Hr; by destruct w|done].
  - exists (mkBot (Some small_model) true), small_model. eexists.
    split; [rewrite Hr; reflexivity|]. split; [done|].
    split; [by repeat constructor|done].
  - by rewrite Hok in Hc.
Qed.

(** The attempt of an audio request with every call going through. *)
Lemma audio_attempt_served update w att :
  bot_ready (self w) → audio update = Some att →
  let x := audio_attempt E update w in
  result x = Ok tt ∧
  sent (events x) =
    [Audio (Mp3 (translation_of E (served E (file_id att))) "en")
       "Translated Audio" "Translation Bot"].
Proof.
  intros Hready Ha. cbv zeta.
  destruct (load_model_served w Hready) as (b & mdl & ev0 & Hload & Hm & Hq0 & _).
  unfold audio_attempt. split.
  - rewrite (result_bind _ _ _ _ _ _ Hload).
    rewrite result_with_NamedTemporaryFile by apply Hok. rewrite Ha.
    rewrite (result_bind _ _ _ _ _ _ (get_file_ok E _ _ (Hok _))).
    rewrite (result_bind _ _ _ _ _ _ (download_to_drive_ok E _ _ _ (Hok _))).
    match goal with |- context [process_audio E ?p] =>
      match goal with |- result ((_ ≫= _) ?w4) = _ =>
        destruct (process_audio_served p w4 (served E (file_id att)) mdl)
          as (ev1 & Hpa & _); [apply lookup_insert_eq|exact Hm|] end end.
    rewrite (result_bind _ _ _ _ _ _ Hpa).
    rewrite result_with_NamedTemporaryFile by apply Hok.
    rewrite (result_bind _ _ _ _ _ _ (gTTS_save_ok E _ _ _ _ (Hok _))).
    erewrite result_bind; [|apply read_file_ok, lookup_insert_eq].
    unfold reply_audio. by rewrite send_served.
  - unfold sent.
    rewrite (pick_bind _ _ _ _ _ _ _ Hload). fold (sent ev0).
    rewrite (quiet_sent _ Hq0). cbn [app].
    rewrite (pick_with_NamedTemporaryFile _ E) by (try apply Hok; try done; by intros []).
    rewrite Ha.
    rewrite (pick_bind _ _ _ _ _ _ _ (get_file_ok E _ _ (Hok _))).
    rewrite (pick_bind _ _ _ _ _ _ _ (download_to_drive_ok E _ _ _ (Hok _))).
    cbn [omap list_omap app].
    match goal with |- context [process_audio E ?p] =>
      match goal with |- omap _ (events ((_ ≫= _) ?w4)) = _ =>
        destruct (process_audio_served p w4 (served E (file_id att)) mdl)
          as (ev1 & Hpa & Hq1 & _); [apply lookup_insert_eq|exact Hm|] end end.
    rewrite (pick_bind _ _ _ _ _ _ _ Hpa). fold (sent ev1).
    rewrite (quiet_sent _ Hq1). cbn [app].
    rewrite (pick_with_NamedTemporaryFile _ E) by (try apply Hok; try done; by intros []).
    rewrite (pick_bind _ _ _ _ _ _ _ (gTTS_save_ok E _ _ _ _ (Hok _))).
    cbn [omap list_omap app].
    erewrite pick_bind; [|apply read_file_ok, lookup_insert_eq].
    unfold reply_audio. by rewrite send_served.
Qed.

End Served.

Lemma fresh_path_suffix_ne (sfx1 sfx2 : string) (m1 m2 : gmap path content) :
  sfx1 ≠ sfx2 → fresh_path sfx1 m1 ≠ fresh_path sfx2 m2.
Proof. intros Hne Heq. apply Hne. by injection Heq. Qed.

Lemma events_bind_head {S A B} (m : Mon S A) (k : A → Mon S B) s ev :
  In ev (events (m s)) → In ev (events ((m ≫= k) s)).
Proof.
  intros Hin. unfold mbind, Mon_bind. destruct (m s) as [[[a|e] s1] ev1]; [|done].
  destruct (k a s1) as [[r s2] ev2]. apply in_or_app. by left.
Qed.

Section ServedVideo.
Context (E : env) (Hok : ∀ s, faults E s = None).

Lemma os_system_served cmd out w :
  os_system E cmd out w =
    (Ok (mux_status E),
     match mux_output E with Some c => set_files (insert out c) w | None => w end,
     Call Mux [Str cmd] ::
       match mux_output E with Some c => [Wrote out c] | None => [] end).
Proof.
  unfold os_system, call, write_file, mbind, Mon_bind, modify, emit, mret, Mon_ret.
  rewrite Hok. by destruct (mux_output E).
Qed.

Lemma guarded_served ack lp err attempt w l :
  orderly attempt →
  let xa := attempt (set_next_message_id (S (next_message_id w)) w) in
  result xa = Ok tt → sent (events xa) = l →
  let x := guarded E ack lp err attempt w in
  result x = Ok tt ∧ sent (events x) = Text ack :: l ∧
  deleted (events x) = [mkMessage (next_message_id w)].
Proof.
  intros Hord xa Hr Hs x. subst x xa.
  destruct (guarded_farewell E ack lp err attempt w Hord (Hok _)) as (_ & _ & Hd).
  rewrite (guarded_result E ack lp err attempt w (Hok _)), (Hok AckDelete), Hr.
  split; [done|]. split; [|by apply Hd, Hok].
  rewrite (guarded_events E ack lp err attempt w (Hok _)), !sent_app, Hs, Hr.
  unfold recovery_events, farewell_events. rewrite (Hok AckDelete). cbn.
  by rewrite app_nil_r.
Qed.

(** The attempt of a video request with every call going through. *)
Lemma video_attempt_served update w att a :
  bot_ready (self w) → video update = Some att →
  clip_audio E (served E (file_id att)) = Some a →
  let x := video_attempt E update w in
  result x = Ok tt ∧
  sent (events x) = [Video (mux_result E) true "Translated Video"] ∧
  ∃ v s o, v ≠ o ∧ v ≠ s ∧ s ≠ o ∧
    path_suffix v = ".mp4" ∧ path_suffix s = ".mp3" ∧ path_suffix o = ".mp4" ∧
    calls_at Mux (events x) = [[Str (ffmpeg_cmd v s o)]] ∧
    In (Wrote v (served E (file_id att))) (events x) ∧
    In (Wrote s (Mp3 (translation_of E (Wav a)) "en")) (events x).
Proof.
  intros Hready Hv Ha. cbv zeta.
  destruct (load_model_served E Hok w Hready) as (b & mdl & ev0 & Hload & Hm & Hq0 & Hmux0).
  unfold video_attempt.
  set (w1 := mkWorld b (files w) (next_message_id w)) in *.
  set (v := fresh_path ".mp4" (files w1)).
  set (w2 := set_files (insert v Blank) w1).
  set (ta := fresh_path ".wav" (files w2)).
  set (w3 := set_files (insert ta Blank) w2).
  set (w4 := set_files (insert v (served E (file_id att))) w3).
  set (w5 := set_files (insert ta (Wav a)) w4).
  set (s := fresh_path ".mp3" (files w5)).
  set (w6 := set_files (insert s Blank) w5).
  set (o := fresh_path ".mp4" (files w6)).
  set (w7 := set_files (insert o Blank) w6).
  set (t := translation_of E (Wav a)).
  set (w8 := set_files (insert s (Mp3 t "en")) w7).
  set (w9 := match mux_output E with Some c => set_files (insert o c) w8 | None => w8 end).
  assert (Hget : get_file E (Some att) w3 = (Ok (file_id att), w3, [Call GetFile [Str (file_id att)]]))
    by apply get_file_ok, Hok.
  pose proof (download_to_drive_ok E (file_id att) v w3 (Hok _)) as Hdl. fold w4 in Hdl.
  pose proof (extract_audio_ok E v ta "pcm_s16le" w4 _ a (Hok _)
                (lookup_insert_eq _ _ _) Ha) as Hex. fold w5 in Hex.
  destruct (process_audio_served E Hok ta w5 (Wav a) mdl) as (ev1 & Hpa & Hq1 & Hmux1);
    [apply lookup_insert_eq|exact Hm|]. fold t in Hpa.
  pose proof (gTTS_save_ok E t "en" s w7 (Hok _)) as Htts. fold w8 in Htts.
  pose proof (os_system_served (ffmpeg_cmd v s o) o w8) as Hos. fold w9 in Hos.
  assert (Hso : s ≠ o).
  { apply not_eq_sym, fresh_path_ne. unfold w6. rewrite files_set_files, lookup_insert_eq. eauto. }
  assert (Hvs : v ≠ s) by (by apply fresh_path_suffix_ne).
  assert (Hvo : v ≠ o).
  { apply not_eq_sym, fresh_path_ne. unfold w6, w5, w4.
    rewrite !files_set_files, lookup_insert_ne by (by apply not_eq_sym).
    rewrite lookup_insert_ne by (by apply fresh_path_suffix_ne).
    rewrite lookup_insert_eq. eauto. }
  assert (Hread : read_file o w9 = (Ok (mux_result E), w9, [])).
  { apply read_file_ok. unfold w9, mux_result. destruct (mux_output E) as [c|].
    - apply lookup_insert_eq.
    - unfold w8, w7. rewrite !files_set_files, lookup_insert_ne by done.
      apply lookup_insert_eq. }
  assert (Hbody : ∀ {B} (φ : event → option B),
    (∀ ev, plain ev = true → φ ev = None) →
    (∀ st args, st ≠ Send → st ≠ Mux → φ (Call st args) = None) →
    omap φ (events (video_attempt E update w)) =
      omap φ ev0 ++ omap φ ev1 ++
      omap φ [Call Mux [Str (ffmpeg_cmd v s o)]; Call Send [Str "Translated Video"];
              Sent (mkMessage (next_message_id w9))
                (Video (mux_result E) true "Translated Video")]).
  { intros B φ Hplain Hcall. unfold video_attempt.
    rewrite (pick_bind _ _ _ _ _ _ _ Hload). f_equal.
    rewrite (pick_with_NamedTemporaryFile _ E); [|apply Hok|exact Hplain|by apply Hcall].
    rewrite (pick_with_NamedTemporaryFile _ E); [|apply Hok|exact Hplain|by apply Hcall].
    rewrite Hv. fold v w2 ta w3.
    rewrite (pick_bind _ _ _ _ _ _ _ Hget), (pick_bind _ _ _ _ _ _ _ Hdl),
      (pick_bind _ _ _ _ _ _ _ Hex), (pick_bind _ _ _ _ _ _ _ Hpa).
    cbn [omap list_omap]. rewrite !Hcall, !Hplain by done. cbn [app]. f_equal.
    rewrite (pick_with_NamedTemporaryFile _ E); [|apply Hok|exact Hplain|by apply Hcall].
    rewrite (pick_with_NamedTemporaryFile _ E); [|apply Hok|exact Hplain|by apply Hcall].
    fold s w6 o w7.
    rewrite (pick_bind _ _ _ _ _ _ _ Htts). cbv zeta.
    rewrite (pick_bind _ _ _ _ _ _ _ Hos), (pick_bind _ _ _ _ _ _ _ Hread).
    unfold reply_video. rewrite (send_served E Hok).
    unfold events. cbn [snd omap list_omap]. rewrite !Hcall, !Hplain by done. cbn [app].
    destruct (mux_output E); cbn [omap list_omap];
      rewrite ?(Hplain (Wrote _ _) eq_refl);
      repeat match goal with
             | |- context [match φ ?e with _ => _ end] => destruct (φ e)
             end; done. }
  split; [|split].
  - unfold video_attempt.
    rewrite (result_bind _ _ _ _ _ _ Hload).
    rewrite !result_with_NamedTemporaryFile by apply Hok. rewrite Hv.
    fold v w2 ta w3.
    rewrite (result_bind _ _ _ _ _ _ Hget), (result_bind _ _ _ _ _ _ Hdl),
      (result_bind _ _ _ _ _ _ Hex), (result_bind _ _ _ _ _ _ Hpa).
    rewrite !result_with_NamedTemporaryFile by apply Hok. fold s w6 o w7.
    rewrite (result_bind _ _ _ _ _ _ Htts). cbv zeta.
    rewrite (result_bind _ _ _ _ _ _ Hos), (result_bind _ _ _ _ _ _ Hread).
    unfold reply_video. by rewrite (send_served E Hok).
  - unfold sent at 1. rewrite Hbody; [|by intros []|done].
    fold (sent ev0) (sent ev1). by rewrite (quiet_sent _ Hq0), (quiet_sent _ Hq1).
  - exists v, s, o. repeat split; try done.
    + unfold calls_at at 1. rewrite Hbody; [|by intros []|].
      * fold (calls_at Mux ev0) (calls_at Mux ev1). by rewrite Hmux0, Hmux1.
      * intros st args _ Hst. by destruct (decide (st = Mux)).
    + unfold video_attempt. eapply events_bind; [exact Hload|].
      do 2 (apply events_with_NamedTemporaryFile; [apply Hok|]).
      rewrite Hv. fold v w2 ta w3.
      eapply events_bind; [exact Hget|]. apply events_bind_head.
      rewrite Hdl. unfold events; simpl. tauto.
    + unfold video_attempt. eapply events_bind; [exact Hload|].
      do 2 (apply events_with_NamedTemporaryFile; [apply Hok|]).
      rewrite Hv. fold v w2 ta w3.
      eapply events_bind; [exact Hget|]. eapply events_bind; [exact Hdl|].
      eapply events_bind; [exact Hex|]. eapply events_bind; [exact Hpa|].
      do 2 (apply events_with_NamedTemporaryFile; [apply Hok|]).
      fold s w6 o w7. apply events_bind_head.
      rewrite Htts. unfold events; simpl. tauto.
Qed.
End ServedVideo.

(** * Requests, from the acknowledgment to its deletion *)

Lemma guarded_passes E ack lp err attempt w (φ : event → option (list arg)) :
  faults E AckSend = None →
  result (attempt (set_next_message_id (S (next_message_id w)) w)) = Ok tt →
  (∀ st args, chat_edge st = true → φ (Call st args) = None) →
  (∀ m b, φ (Sent m b) = None) → (∀ m, φ (Deleted m) = None) →
  (∀ st e, φ (Fault st e) = None) →
  omap φ (events (guarded E ack lp err attempt w)) =
  omap φ (events (attempt (set_next_message_id (S (next_message_id w)) w))).
Proof.
  intros Hack Hr Hc Hs Hd Hf.
  rewrite (guarded_events E ack lp err attempt w Hack), Hr.
  rewrite !omap_app. unfold recovery_events, farewell_events.
  cbn [omap list_omap]. rewrite !Hc, Hs by done. cbn [app].
  destruct (faults E AckDelete); cbn [omap list_omap]; rewrite ?Hf, ?Hd;
    by rewrite app_nil_r.
Qed.

(** X10.  An audio request with every external call going through: the
    handler returns normally, the chat is sent the acknowledgment and then
    the English speech of the translation of what was downloaded, with the
    fixed title and performer, the acknowledgment is deleted, and the
    temporary directory is as before. *)
Theorem audio_request_served (E : env) (update : Update) (w : world) (att : Attachment) :
  (∀ s, faults E s = None) → bot_ready (self w) → audio update = Some att →
  let x := handle_audio E update w in
  result x = Ok tt ∧
  sent (events x) =
    [Text "🔊 Processing audio...";
     Audio (Mp3 (translation_of E (served E (file_id att))) "en")
       "Translated Audio" "Translation Bot"] ∧
  deleted (events x) = [mkMessage (next_message_id w)] ∧
  files (final x) = files w.
Proof.
  intros Hok Hready Ha x. subst x. rewrite handle_audio_guarded.
  destruct (audio_attempt_served E Hok update
              (set_next_message_id (S (next_message_id w)) w) att Hready Ha) as [Hr Hs].
  destruct (guarded_served E Hok "🔊 Processing audio..." "Audio processing error: "
              audio_error (audio_attempt E update) w _
              (audio_attempt_orderly E update) Hr Hs) as (Hres & Hsent & Hdel).
  repeat split; [exact Hres|exact Hsent|exact Hdel|].
  apply guarded_files, audio_attempt_keeps.
Qed.

Lemma audio_request_served_witness :
  audio audio_update = Some (mkAttachment "voice-1") ∧
  sent (events (handle_audio (sample_env no_faults) audio_update empty_world)) =
    [Text "🔊 Processing audio...";
     Audio (Mp3 "hello world" "en") "Translated Audio" "Translation Bot"].
Proof.
  split; [reflexivity|].
  exact (proj1 (proj2 (audio_request_served (sample_env no_faults) audio_update
    empty_world (mkAttachment "voice-1") (λ _, eq_refl)
    (λ H : model_loaded (self empty_world) = true,
       False_ind _ (eq_ind false (λ b, if b then False else True) I true H))
    eq_refl))).
Defined.

(** X11.  A video request with every external call going through: the
    handler returns normally; the mux command is called once, on three
    distinct paths, the .mp4 the video was downloaded to, the .mp3 holding
    the English speech of the translation of the clip's audio, and the
    output .mp4; the chat is sent the acknowledgment and then, as a
    streamable video with the fixed caption, what is at the output path;
    the acknowledgment is deleted and the temporary directory is as before. *)
Theorem video_request_served (E : env) (update : Update) (w : world)
    (att : Attachment) (a : AudioSegment) :
  (∀ s, faults E s = None) → bot_ready (self w) → video update = Some att →
  clip_audio E (served E (file_id att)) = Some a →
  let x := handle_video E update w in
  result x = Ok tt ∧
  sent (events x) =
    [Text "🎥 Processing video..."; Video (mux_result E) true "Translated Video"] ∧
  deleted (events x) = [mkMessage (next_message_id w)] ∧
  files (final x) = files w ∧
  ∃ v s o, v ≠ o ∧ v ≠ s ∧ s ≠ o ∧
    path_suffix v = ".mp4" ∧ path_suffix s = ".mp3" ∧ path_suffix o = ".mp4" ∧
    calls_at Mux (events x) = [[Str (ffmpeg_cmd v s o)]] ∧
    In (Wrote v (served E (file_id att))) (events x) ∧
    In (Wrote s (Mp3 (translation_of E (Wav a)) "en")) (events x).
Proof.
  intros Hok Hready Hv Ha x. subst x. rewrite handle_video_guarded.
  destruct (video_attempt_served E Hok update
              (set_next_message_id (S (next_message_id w)) w) att a Hready Hv Ha)
    as (Hr & Hs & v & s & o & Hvo & Hvs & Hso & Hsv & Hss & Hso' & Hmux & Hwv & Hws).
  destruct (guarded_served E Hok "🎥 Processing video..." "Video processing error: "
              video_error (video_attempt E update) w _
              (video_attempt_orderly E update) Hr Hs) as (Hres & Hsent & Hdel).
  split; [exact Hres|]. split; [exact Hsent|]. split; [exact Hdel|].
  split; [apply guarded_files, video_attempt_keeps|].
  exists v, s, o. repeat split; try done.
  - unfold calls_at at 1. rewrite (guarded_passes E); try done.
    by intros [] args.
  - rewrite (guarded_events E _ _ _ _ w (Hok _)).
    apply in_or_app. right. apply in_or_app. by left.
  - rewrite (guarded_events E _ _ _ _ w (Hok _)).
    apply in_or_app. right. apply in_or_app. by left.
Qed.

Lemma video_request_served_witness :
  video video_update = Some (mkAttachment "clip-1") ∧
  sent (events (handle_video (sample_env no_faults) video_update empty_world)) =
    [Text "🎥 Processing video..."; Video (Blob "muxed") true "Translated Video"].
Proof.
  split; [reflexivity|].
  exact (proj1 (proj2 (video_request_served (sample_env no_faults) video_update
    empty_world (mkAttachment "clip-1") (mkAudio 44100 2 2 5000) (λ _, eq_refl)
    (λ H : model_loaded (self empty_world) = true,
       False_ind _ (eq_ind false (λ b, if b then False else True) I true H))
    eq_refl eq_refl))).
Defined.

(** * Requests that fail *)

Section Failing.
Context (E : env).

(** A fault at a call inside the [try] block is what the attempt ended with. *)
Lemma guarded_fault_inside ack lp err attempt w s e :
  orderly attempt → chat_edge s = false → faults E AckSend = None →
  In (Fault s e) (events (guarded E ack lp err attempt w)) →
  result (attempt (set_next_message_id (S (next_message_id w)) w)) = Raise e.
Proof.
  intros [[Hfaith _] _] Hs Hack Hin.
  rewrite (guarded_events E ack lp err attempt w Hack) in Hin.
  apply in_app_or in Hin as [[H|[H|[]]]|Hin]; [done..|].
  apply in_app_or in Hin as [Hin|Hin]; [by eapply Hfaith|].
  apply in_app_or in Hin as [Hin|Hin].
  - apply recovery_events_fault in Hin. by subst s.
  - apply farewell_events_fault in Hin. by subst s.
Qed.

Lemma guarded_signal ack lp err attempt w s e :
  orderly attempt → chat_edge s = false → is_Exception e = false →
  faults E AckSend = None → faults E AckDelete = None →
  let x := guarded E ack lp err attempt w in
  In (Fault s e) (events x) →
  result x = Raise e ∧ sent (events x) = [Text ack] ∧
  deleted (events x) = [mkMessage (next_message_id w)].
Proof.
  intros Hord Hs He Hack Hdel x Hin. subst x.
  pose proof (guarded_fault_inside _ _ _ _ _ _ _ Hord Hs Hack Hin) as Hx.
  destruct (guarded_farewell E ack lp err attempt w Hord Hack) as (_ & _ & Hd).
  rewrite (guarded_result E ack lp err attempt w Hack), Hdel, Hx, He.
  split; [done|]. split; [|by apply Hd].
  destruct Hord as [_ Hquiet].
  rewrite (guarded_events E ack lp err attempt w Hack), !sent_app.
  rewrite (quiet_sent _ (Hquiet _ _ Hx)), Hx.
  unfold recovery_events, farewell_events. by rewrite He, Hdel.
Qed.

Lemma guarded_unanswered ack lp err attempt w s e e' :
  orderly attempt → chat_edge s = false → is_Exception e = true →
  faults E AckSend = None → faults E ErrorSend = Some e' → faults E AckDelete = None →
  let x := guarded E ack lp err attempt w in
  In (Fault s e) (events x) →
  result x = Raise e' ∧ sent (events x) = [Text ack] ∧
  calls_at ErrorSend (events x) = [[Str err]] ∧
  deleted (events x) = [mkMessage (next_message_id w)].
Proof.
  intros Hord Hs He Hack Herr Hdel x Hin. subst x.
  pose proof (guarded_fault_inside _ _ _ _ _ _ _ Hord Hs Hack Hin) as Hx.
  destruct (guarded_farewell E ack lp err attempt w Hord Hack) as (_ & _ & Hd).
  rewrite (guarded_result E ack lp err attempt w Hack), Hdel, Hx, He, Herr.
  split; [done|]. split; [|split; [|by apply Hd]].
  - destruct Hord as [_ Hquiet].
    rewrite (guarded_events E ack lp err attempt w Hack), !sent_app.
    rewrite (quiet_sent _ (Hquiet _ _ Hx)), Hx.
    unfold recovery_events, farewell_events. by rewrite He, Herr, Hdel.
  - destruct Hord as [[_ Htry] _].
    rewrite (guarded_events E ack lp err attempt w Hack), !calls_at_app.
    rewrite (within_try_calls_at ErrorSend _ eq_refl (Htry _)), Hx.
    unfold recovery_events, farewell_events. by rewrite He, Herr, Hdel.
Qed.

Lemma guarded_undeleted ack lp err attempt w e :
  orderly attempt → faults E AckSend = None → faults E AckDelete = Some e →
  let x := guarded E ack lp err attempt w in
  result x = Raise e ∧ deleted (events x) = [].
Proof.
  intros [[_ Htry] _] Hack Hdel x. subst x.
  rewrite (guarded_result E ack lp err attempt w Hack), Hdel. split; [done|].
  rewrite (guarded_events E ack lp err attempt w Hack), !deleted_app.
  rewrite (within_try_deleted _ (Htry _)).
  rewrite (proj2 (recovery_events_no_farewell E lp err _ _)).
  unfold farewell_events. by rewrite Hdel.
Qed.

(** The run of a handler whose attempt ended with an [Exception], the
    transport working. *)
Lemma guarded_recovers ack lp err attempt w e w1 ev :
  (∀ s, chat_edge s = true → faults E s = None) →
  attempt (set_next_message_id (S (next_message_id w)) w) = (Raise e, w1, ev) →
  is_Exception e = true →
  guarded E ack lp err attempt w =
    (Ok tt, set_next_message_id (S (next_message_id w1)) w1,
     [Call AckSend [Str ack]; Sent (mkMessage (next_message_id w)) (Text ack)] ++ ev ++
     [Logged "ERROR" (lp +:+ str_exn e); Call ErrorSend [Str err];
      Sent (mkMessage (next_message_id w1)) (Text err);
      Call AckDelete [Int (Z.of_nat (next_message_id w))];
      Deleted (mkMessage (next_message_id w))]).
Proof.
  intros Hedge Hx He.
  unfold guarded, reply_text, delete_message, send, call, try_finally, try_except,
    log, mbind, Mon_bind, get, modify, emit, mret, Mon_ret.
  rewrite (Hedge AckSend eq_refl), (Hedge ErrorSend eq_refl), (Hedge AckDelete eq_refl).
  cbn [fst snd message_id]. rewrite Hx, He. cbn [fst snd app message_id].
  by rewrite <- !app_assoc.
Qed.

Lemma load_model_failed w e :
  model_loaded (self w) = false → faults E Construct = Some e → is_Exception e = true →
  load_model E w =
    (Raise e, w,
     [Logged "INFO" "Loading Whisper model..."; Call Construct construct_args;
      Fault Construct e; Logged "ERROR" ("Failed to load model: " +:+ str_exn e)]).
Proof.
  intros Hl Hc He. unfold load_model, new_WhisperModel, call, try_except, log,
    mbind, Mon_bind, get, modify, emit, mret, Mon_ret, raise.
  rewrite Hl. cbv beta iota. rewrite Hl, Hc. cbn [negb]. by rewrite He.
Qed.

Lemma attempt_without_model {A} (rest : Mon world A) w e :
  model_loaded (self w) = false → faults E Construct = Some e → is_Exception e = true →
  (load_model E;; rest) w =
    (Raise e, w,
     [Logged "INFO" "Loading Whisper model..."; Call Construct construct_args;
      Fault Construct e; Logged "ERROR" ("Failed to load model: " +:+ str_exn e)]).
Proof.
  intros Hl Hc He. unfold mbind, Mon_bind. by rewrite (load_model_failed w e Hl Hc He).
Qed.

(** The attempts on a message without the attachment. *)
Lemma audio_attempt_unattached update w :
  faults E Construct = None → faults E MkDownload = None → audio update = None →
  result (audio_attempt E update w) = Raise (NoneType_has_no "get_file").
Proof.
  intros Hc Hd Ha. destruct (load_model_ready E w Hc) as (b & ev & Hload & _).
  unfold audio_attempt. rewrite (result_bind _ _ _ _ _ _ Hload).
  rewrite result_with_NamedTemporaryFile by done. by rewrite Ha.
Qed.

Lemma video_attempt_unattached update w :
  faults E Construct = None → faults E MkDownload = None → faults E MkExtracted = None →
  video update = None →
  result (video_attempt E update w) = Raise (NoneType_has_no "get_file").
Proof.
  intros Hc Hd Hx Hv. destruct (load_model_ready E w Hc) as (b & ev & Hload & _).
  unfold video_attempt. rewrite (result_bind _ _ _ _ _ _ Hload).
  rewrite !result_with_NamedTemporaryFile by done. by rewrite Hv.
Qed.

End Failing.

(** X12.  When sending the acknowledgment raises, the handler raises the
    same object at once: the model is not loaded, no file is created,
    nothing is logged or deleted, and the state is as before. *)
Theorem acknowledgment_failure_propagates (E : env) (update : Update) (w : world)
    (e : exn) :
  faults E AckSend = Some e →
  handle_audio E update w =
    (Raise e, w, [Call AckSend [Str "🔊 Processing audio..."]; Fault AckSend e]) ∧
  handle_video E update w =
    (Raise e, w, [Call AckSend [Str "🎥 Processing video..."]; Fault AckSend e]).
Proof.
  intros Hack. rewrite handle_audio_guarded, handle_video_guarded.
  split; by apply guarded_unacknowledged.
Qed.

Lemma acknowledgment_failure_propagates_witness :
  faults (sample_env (fault_at AckSend boom)) AckSend = Some boom ∧
  result (handle_audio (sample_env (fault_at AckSend boom)) audio_update empty_world) =
    Raise boom.
Proof.
  split; [reflexivity|].
  by rewrite (proj1 (acknowledgment_failure_propagates (sample_env (fault_at AckSend boom))
                       audio_update empty_world boom eq_refl)).
Defined.

(** X13.  A raised object that is not an [Exception] (a cancellation, a
    keyboard interrupt) at a call inside the [try] block is not answered:
    the handler raises it to its caller, no error text is sent, and the
    acknowledgment is still deleted. *)
Theorem signal_passes_through (E : env) (update : Update) (w : world)
    (s : site) (e : exn) :
  chat_edge s = false → is_Exception e = false →
  faults E AckSend = None → faults E AckDelete = None →
  (let x := handle_audio E update w in
   In (Fault s e) (events x) →
   result x = Raise e ∧ sent (events x) = [Text "🔊 Processing audio..."] ∧
   deleted (events x) = [mkMessage (next_message_id w)]) ∧
  (let x := handle_video E update w in
   In (Fault s e) (events x) →
   result x = Raise e ∧ sent (events x) = [Text "🎥 Processing video..."] ∧
   deleted (events x) = [mkMessage (next_message_id w)]).
Proof.
  intros Hs He Hack Hdel. rewrite handle_audio_guarded, handle_video_guarded.
  split; apply guarded_signal; auto using audio_attempt_orderly, video_attempt_orderly.
Qed.

Lemma signal_passes_through_witness :
  In (Fault Transcribe (BaseException_ "CancelledError"))
    (events (handle_audio (sample_env (fault_at Transcribe (BaseException_ "CancelledError")))
               audio_update empty_world)) ∧
  result (handle_audio (sample_env (fault_at Transcribe (BaseException_ "CancelledError")))
            audio_update empty_world) = Raise (BaseException_ "CancelledError").
Proof.
  assert (Hin : In (Fault Transcribe (BaseException_ "CancelledError"))
    (events (handle_audio (sample_env (fault_at Transcribe (BaseException_ "CancelledError")))
               audio_update empty_world))).
  { vm_compute. find_event. }
  split; [exact Hin|].
  exact (proj1 (proj1 (signal_passes_through
    (sample_env (fault_at Transcribe (BaseException_ "CancelledError")))
    audio_update empty_world Transcribe (BaseException_ "CancelledError")
    eq_refl eq_refl eq_refl eq_refl) Hin)).
Defined.

(** X14.  When a call inside the [try] block raises an [Exception] and the
    error reply raises too, the handler raises what the error reply raised:
    the error reply was called once, the chat got the acknowledgment only,
    and the acknowledgment is still deleted. *)
Theorem error_reply_failure_propagates (E : env) (update : Update) (w : world)
    (s : site) (e e' : exn) :
  chat_edge s = false → is_Exception e = true →
  faults E AckSend = None → faults E ErrorSend = Some e' → faults E AckDelete = None →
  (let x := handle_audio E update w in
   In (Fault s e) (events x) →
   result x = Raise e' ∧ sent (events x) = [Text "🔊 Processing audio..."] ∧
   calls_at ErrorSend (events x) = [[Str "❌ Error processing audio. Please try again."]] ∧
   deleted (events x) = [mkMessage (next_message_id w)]) ∧
  (let x := handle_video E update w in
   In (Fault s e) (events x) →
   result x = Raise e' ∧ sent (events x) = [Text "🎥 Processing video..."] ∧
   calls_at ErrorSend (events x) = [[Str "❌ Error processing video. Please try again."]] ∧
   deleted (events x) = [mkMessage (next_message_id w)]).
Proof.
  intros Hs He Hack Herr Hdel. rewrite handle_audio_guarded, handle_video_guarded.
  split; apply guarded_unanswered; auto using audio_attempt_orderly, video_attempt_orderly.
Qed.


Lemma error_reply_failure_propagates_witness :
  In (Fault Decode boom)
    (events (handle_video (sample_env reply_down) video_update empty_world)) ∧
  result (handle_video (sample_env reply_down) video_update empty_world) =
    Raise (Exception_ "NetworkError" "down").
Proof.
  assert (Hin : In (Fault Decode boom)
    (events (handle_video (sample_env reply_down) video_update empty_world))).
  { vm_compute. find_event. }
  split; [exact Hin|].
  exact (proj1 (proj2 (error_reply_failure_propagates (sample_env reply_down)
    video_update empty_world Decode boom (Exception_ "NetworkError" "down")
    eq_refl eq_refl eq_refl eq_refl eq_refl) Hin)).
Defined.

(** X15.  When deleting the acknowledgment raises, the handler raises that
    object whatever happened before, also after the translation was sent,
    and no message is deleted. *)
Theorem delete_failure_replaces_outcome (E : env) (update : Update) (w : world) (e : exn) :
  faults E AckSend = None → faults E AckDelete = Some e →
  (result (handle_audio E update w) = Raise e ∧
   deleted (events (handle_audio E update w)) = []) ∧
  (result (handle_video E update w) = Raise e ∧
   deleted (events (handle_video E update w)) = []).
Proof.
  intros Hack Hdel. rewrite handle_audio_guarded, handle_video_guarded.
  split; apply guarded_undeleted; auto using audio_attempt_orderly, video_attempt_orderly.
Qed.

Lemma delete_failure_replaces_outcome_witness :
  faults (sample_env (fault_at AckDelete boom)) AckDelete = Some boom ∧
  result (handle_audio (sample_env (fault_at AckDelete boom)) audio_update empty_world) =
    Raise boom ∧
  sent (events (handle_audio (sample_env (fault_at AckDelete boom)) audio_update
                  empty_world)) =
    [Text "🔊 Processing audio...";
     Audio (Mp3 "hello world" "en") "Translated Audio" "Translation Bot"].
Proof.
  split; [reflexivity|]. split; [|by vm_compute].
  exact (proj1 (proj1 (delete_failure_replaces_outcome
    (sample_env (fault_at AckDelete boom)) audio_update empty_world boom
    eq_refl eq_refl))).
Defined.

(** X16.  A request on a bot without a model whose constructor raises an
    [Exception]: the failure is logged by [load_model] and again by the
    handler, the chat gets the fixed error text, the acknowledgment is
    deleted, the handler returns normally, and nothing else happened: no
    temporary file, no download, the flag still unset. *)
Theorem model_failure_in_request (E : env) (update : Update) (w : world) (e : exn) :
  model_loaded (self w) = false → faults E Construct = Some e → is_Exception e = true →
  (∀ s, chat_edge s = true → faults E s = None) →
  let n := next_message_id w in
  let run ack lp err :=
    (Ok tt, set_next_message_id (S (S n)) w,
     [Call AckSend [Str ack]; Sent (mkMessage n) (Text ack);
      Logged "INFO" "Loading Whisper model..."; Call Construct construct_args;
      Fault Construct e; Logged "ERROR" ("Failed to load model: " +:+ str_exn e);
      Logged "ERROR" (lp +:+ str_exn e); Call ErrorSend [Str err];
      Sent (mkMessage (S n)) (Text err);
      Call AckDelete [Int (Z.of_nat n)]; Deleted (mkMessage n)]) in
  handle_audio E update w =
    run "🔊 Processing audio..." "Audio processing error: "
      "❌ Error processing audio. Please try again." ∧
  handle_video E update w =
    run "🎥 Processing video..." "Video processing error: "
      "❌ Error processing video. Please try again.".
Proof.
  intros Hl Hc He Hedge n run. subst n run. cbv beta.
  rewrite handle_audio_guarded, handle_video_guarded. split.
  - erewrite guarded_recovers; [|exact Hedge| |exact He].
    2:{ unfold audio_attempt. by apply attempt_without_model. }
    by destruct w.
  - erewrite guarded_recovers; [|exact Hedge| |exact He].
    2:{ unfold video_attempt. by apply attempt_without_model. }
    by destruct w.
Qed.

Lemma model_failure_in_request_witness :
  model_loaded (self empty_world) = false ∧
  created (events (handle_audio (sample_env (fault_at Construct boom)) audio_update
                     empty_world)) = [].
Proof.
  split; [reflexivity|].
  rewrite (proj1 (model_failure_in_request (sample_env (fault_at Construct boom))
    audio_update empty_world boom eq_refl eq_refl eq_refl (λ s _, ltac:(by destruct s)))).
  reflexivity.
Defined.

(** X17.  A message without the attachment its handler reads: the lookup of
    [get_file] on [None] raises inside the [try] block, so the handler logs
    the [AttributeError], sends the fixed error text and returns normally. *)
Theorem request_without_attachment (E : env) (update : Update) (w : world) :
  (∀ s, chat_edge s = true → faults E s = None) →
  faults E Construct = None → faults E MkDownload = None → faults E MkExtracted = None →
  (audio update = None →
   let x := handle_audio E update w in
   result x = Ok tt ∧
   In (Logged "ERROR"
         "Audio processing error: 'NoneType' object has no attribute 'get_file'")
      (events x) ∧
   sent (events x) =
     [Text "🔊 Processing audio..."; Text "❌ Error processing audio. Please try again."] ∧
   deleted (events x) = [mkMessage (next_message_id w)]) ∧
  (video update = None →
   let x := handle_video E update w in
   result x = Ok tt ∧
   In (Logged "ERROR"
         "Video processing error: 'NoneType' object has no attribute 'get_file'")
      (events x) ∧
   sent (events x) =
     [Text "🎥 Processing video..."; Text "❌ Error processing video. Please try again."] ∧
   deleted (events x) = [mkMessage (next_message_id w)]).
Proof.
  intros Hedge Hc Hd Hx. split.
  - intros Ha. rewrite handle_audio_guarded.
    exact (guarded_raised E "🔊 Processing audio..." "Audio processing error: "
             audio_error (audio_attempt E update) w (NoneType_has_no "get_file")
             (audio_attempt_orderly E update) Hedge
             (audio_attempt_unattached E update _ Hc Hd Ha) eq_refl).
  - intros Hv. rewrite handle_video_guarded.
    exact (guarded_raised E "🎥 Processing video..." "Video processing error: "
             video_error (video_attempt E update) w (NoneType_has_no "get_file")
             (video_attempt_orderly E update) Hedge
             (video_attempt_unattached E update _ Hc Hd Hx Hv) eq_refl).
Qed.

Lemma request_without_attachment_witness :
  video audio_update = None ∧
  sent (events (handle_video (sample_env no_faults) audio_update empty_world)) =
    [Text "🎥 Processing video..."; Text "❌ Error processing video. Please try again."].
Proof.
  split; [reflexivity|].
  exact (proj1 (proj2 (proj2 (proj2 (request_without_attachment (sample_env no_faults)
    audio_update empty_world (λ _ _, eq_refl) eq_refl eq_refl eq_refl) eq_refl)))).
Defined.

(** * Rules for [mild] *)

Section Mild.
Context {S : Type}.

Lemma mild_ret {A} (a : A) : mild (S:=S) (mret a).
Proof. by intros s e. Qed.

Lemma mild_raise {A} e : is_Exception e = true → mild (S:=S) (A:=A) (raise e).
Proof. intros He s e' [= <-]. done. Qed.

Lemma mild_get : mild (S:=S) get.
Proof. by intros s e. Qed.

Lemma mild_modify f : mild (S:=S) (modify f).
Proof. by intros s e. Qed.

Lemma mild_emit ev : mild (S:=S) (emit ev).
Proof. by intros s e. Qed.

Lemma mild_bind {A B} (m : Mon S A) (k : A → Mon S B) :
  mild m → (∀ a, mild (k a)) → mild (m ≫= k).
Proof.
  intros Hm Hk s e. specialize (Hm s e). unfold mbind, Mon_bind.
  destruct (m s) as [[[a|e1] s1] ev1]; [|intros [= <-]; by apply Hm].
  specialize (Hk a s1 e). by destruct (k a s1) as [[r s2] ev2].
Qed.

Lemma mild_try_finally {A} (m : Mon S A) (f : Mon S unit) :
  mild m → mild f → mild (try_finally m f).
Proof.
  intros Hm Hf s e. specialize (Hm s e). unfold try_finally.
  destruct (m s) as [[r s1] ev1]. specialize (Hf s1 e).
  destruct (f s1) as [[[[]|e2] s2] ev2]; unfold result in *; cbn [fst] in *;
    [exact Hm|intros [= <-]; by apply Hf].
Qed.

Lemma mild_try_except {A} (m : Mon S A) (h : exn → Mon S A) :
  mild m → (∀ e, is_Exception e = true → mild (h e)) → mild (try_except m h).
Proof.
  intros Hm Hh s e. specialize (Hm s e). unfold try_except.
  destruct (m s) as [[[a|e1] s1] ev1]; [done|].
  destruct (is_Exception e1) eqn:He1.
  - specialize (Hh e1 He1 s1 e). by destruct (h e1 s1) as [[r s2] ev2].
  - done.
Qed.

Lemma mild_call (E : env) {A} st args (k : Mon S A) :
  mild_faults E → mild k → mild (call E st args k).
Proof.
  intros HE Hk s e. unfold call. destruct (faults E st) as [e'|] eqn:Hst.
  - intros [= <-]. by eapply HE.
  - specialize (Hk s e). by destruct (k s) as [[r s1] ev].
Qed.

Lemma mild_harmless (f : Mon S unit) : harmless f → mild f.
Proof. intros Hf s e. destruct (Hf s) as [Hr _]. by rewrite Hr. Qed.

End Mild.

Lemma mild_lift {L A} (m : Mon world A) : mild m → mild (lift (L:=L) m).
Proof.
  intros Hm [w l] e. specialize (Hm w e). unfold lift. cbn [fst snd].
  by destruct (m w) as [[r w1] ev].
Qed.

Lemma mild_in_frame {L A} (init : L) (m : Mon (world * L) A) :
  mild m → mild (in_frame init m).
Proof.
  intros Hm w e. specialize (Hm (w, init) e). unfold in_frame.
  by destruct (m (w, init)) as [[r s] ev].
Qed.

Ltac mild_tac :=
  repeat first
    [ apply mild_ret | apply mild_get | apply mild_modify | apply mild_emit
    | apply mild_raise; reflexivity
    | apply mild_call; [assumption|]
    | apply mild_bind; [|intros ?]
    | apply mild_lift
    | match goal with
      | |- mild (match ?x with _ => _ end) => destruct x
      | |- mild (let _ := _ in _) => cbv zeta
      end ].

Section MildStages.
Context (E : env) (HE : mild_faults E).

Lemma with_NamedTemporaryFile_mild {A} s sfx (body : path → Mon world A) :
  (∀ p, mild (body p)) → mild (with_NamedTemporaryFile E s sfx body).
Proof.
  intros Hbody. unfold with_NamedTemporaryFile.
  apply mild_bind; [unfold NamedTemporaryFile; mild_tac|]. intros p.
  apply mild_try_finally; [apply Hbody|].
  apply mild_harmless, close_temporary_harmless.
Qed.

Lemma load_model_mild : mild (load_model E).
Proof.
  unfold load_model. apply mild_bind; [apply mild_get|]. intros w.
  destruct (model_loaded (self w)); [apply mild_ret|].
  apply mild_bind; [apply mild_get|]. intros w'.
  destruct (negb (model_loaded (self w'))); [|apply mild_ret].
  apply mild_try_except.
  - unfold new_WhisperModel, log. mild_tac.
  - intros e He. unfold log. apply mild_bind; [apply mild_emit|]. intros _.
    by apply mild_raise.
Qed.

Lemma process_audio_mild f : mild (process_audio E f).
Proof.
  unfold process_audio. apply mild_in_frame, mild_try_finally.
  - unfold process_audio_try, from_file, normalize, NamedTemporaryFile, export,
      transcribe_and_translate, transcribe, translate, read_file, write_file,
      bind_local, NoneType_has_no, FileNotFoundError.
    mild_tac.
  - apply mild_harmless, process_audio_finally_harmless.
Qed.

Lemma audio_attempt_mild update : mild (audio_attempt E update).
Proof.
  unfold audio_attempt.
  apply mild_bind; [apply load_model_mild|]. intros _.
  apply with_NamedTemporaryFile_mild. intros temp_audio.
  apply mild_bind; [unfold get_file, NoneType_has_no; mild_tac|]. intros audio_file.
  apply mild_bind; [unfold download_to_drive, write_file; mild_tac|]. intros _.
  apply mild_bind; [apply process_audio_mild|]. intros translated_text.
  apply with_NamedTemporaryFile_mild. intros output_file.
  unfold gTTS_save, write_file, read_file, reply_audio, send, FileNotFoundError.
  mild_tac.
Qed.

Lemma video_attempt_mild update : mild (video_attempt E update).
Proof.
  unfold video_attempt.
  apply mild_bind; [apply load_model_mild|]. intros _.
  apply with_NamedTemporaryFile_mild. intros temp_video.
  apply with_NamedTemporaryFile_mild. intros temp_audio.
  apply mild_bind; [unfold get_file, NoneType_has_no; mild_tac|]. intros video_file.
  apply mild_bind; [unfold download_to_drive, write_file; mild_tac|]. intros _.
  apply mild_bind.
  { unfold extract_audio, read_file, write_file, NoneType_has_no, FileNotFoundError.
    mild_tac. }
  intros _.
  apply mild_bind; [apply process_audio_mild|]. intros translated_text.
  apply with_NamedTemporaryFile_mild. intros tts_file.
  apply with_NamedTemporaryFile_mild. intros output_file.
  unfold gTTS_save, os_system, write_file, read_file, reply_video, send,
    FileNotFoundError.
  mild_tac.
Qed.

Lemma guarded_returns ack lp err attempt w :
  mild attempt → (∀ s, chat_edge s = true → faults E s = None) →
  result (guarded E ack lp err attempt w) = Ok tt.
Proof.
  intros Hm Hedge.
  rewrite (guarded_result E ack lp err attempt w (Hedge AckSend eq_refl)).
  rewrite (Hedge AckDelete eq_refl), (Hedge ErrorSend eq_refl).
  specialize (Hm (set_next_message_id (S (next_message_id w)) w)).
  destruct (result (attempt _)) as [[]|e]; [done|]. by rewrite (Hm e eq_refl).
Qed.

End MildStages.

(** X18.  When the three chat calls of the frame (acknowledgment, error
    reply, deletion) go through and the other calls raise nothing but
    [Exception]s, both handlers return normally on every path: whatever
    fails inside the [try] block, nothing reaches the caller. *)
Theorem handlers_return_normally (E : env) (update : Update) (w : world) :
  (∀ s, chat_edge s = true → faults E s = None) → mild_faults E →
  result (handle_audio E update w) = Ok tt ∧ result (handle_video E update w) = Ok tt.
Proof.
  intros Hedge HE. rewrite handle_audio_guarded, handle_video_guarded.
  split; apply guarded_returns; auto using audio_attempt_mild, video_attempt_mild.
Qed.

Lemma handlers_return_normally_witness :
  faults (sample_env (fault_at Export boom)) Export = Some boom ∧
  result (handle_video (sample_env (fault_at Export boom)) video_update empty_world) =
    Ok tt.
Proof.
  split; [reflexivity|].
  refine (proj2 (handlers_return_normally (sample_env (fault_at Export boom))
    video_update empty_world (λ s Hs, _) (λ s e He, _))).
  - by destruct s.
  - destruct s; try discriminate He. by injection He as <-.
Defined.

(** * Rules for [replies_once] *)

Section RepliesOnce.
Context {S : Type} (P : body → Prop).

Lemma replies_once_quiet {A} (m : Mon S A) : obeys quiet m → replies_once P m.
Proof. intros [_ Hq] s. left. apply quiet_sent, Hq. Qed.

Lemma replies_once_bind {A B} (m : Mon S A) (k : A → Mon S B) :
  obeys quiet m → (∀ a, replies_once P (k a)) → replies_once P (m ≫= k).
Proof.
  intros [_ Hq] Hk s. specialize (Hq s). unfold mbind, Mon_bind.
  destruct (m s) as [[[a|e] s1] ev1].
  - specialize (Hk a s1). destruct (k a s1) as [[r s2] ev2].
    unfold events in *. cbn [fst snd] in *.
    by rewrite sent_app, (quiet_sent _ Hq).
  - left. by apply quiet_sent.
Qed.

Lemma replies_once_try_finally {A} (m : Mon S A) (f : Mon S unit) :
  replies_once P m → harmless f → replies_once P (try_finally m f).
Proof.
  intros Hm Hf s. specialize (Hm s). unfold try_finally.
  destruct (m s) as [[r s1] ev1]. destruct (Hf s1) as [_ Hp].
  destruct (f s1) as [[rf s2] ev2]. unfold events in *. cbn [fst snd] in *.
  assert (Hs : sent ev2 = []).
  { apply quiet_sent. eapply Forall_impl; [exact Hp|]. apply plain_quiet. }
  destruct rf as [[]|e]; cbn [snd]; by rewrite sent_app, Hs, app_nil_r.
Qed.

End RepliesOnce.

Section Replies.
Context (E : env).

Lemma with_NamedTemporaryFile_replies_once {A} P s sfx (body : path → Mon world A) :
  chat_edge s = false → (∀ p, replies_once P (body p)) →
  replies_once P (with_NamedTemporaryFile E s sfx body).
Proof.
  intros Hs Hbody. unfold with_NamedTemporaryFile.
  apply replies_once_bind; [by apply NamedTemporaryFile_quiet|]. intros p.
  apply replies_once_try_finally; [apply Hbody|apply close_temporary_harmless].
Qed.

Lemma send_replies_once (P : body → Prop) args b :
  P b → replies_once P (send E Send args b;; mret tt).
Proof.
  intros Hb w. unfold send, call, mbind, Mon_bind, get, modify, emit, mret, Mon_ret.
  destruct (faults E Send); [by left|]. right. by exists b.
Qed.

Lemma audio_attempt_replies_once update :
  replies_once (λ b, ∃ c, b = Audio c "Translated Audio" "Translation Bot")
    (audio_attempt E update).
Proof.
  unfold audio_attempt.
  apply replies_once_bind; [apply load_model_quiet|]. intros _.
  apply with_NamedTemporaryFile_replies_once; [done|]. intros temp_audio.
  apply replies_once_bind; [apply get_file_quiet|]. intros audio_file.
  apply replies_once_bind; [apply download_to_drive_quiet|]. intros _.
  apply replies_once_bind; [apply process_audio_quiet|]. intros translated_text.
  apply with_NamedTemporaryFile_replies_once; [done|]. intros output_file.
  apply replies_once_bind; [apply gTTS_save_quiet|]. intros _.
  apply replies_once_bind; [apply read_file_quiet|]. intros f.
  apply send_replies_once. by exists f.
Qed.

Lemma video_attempt_replies_once update :
  replies_once (λ b, ∃ c, b = Video c true "Translated Video") (video_attempt E update).
Proof.
  unfold video_attempt.
  apply replies_once_bind; [apply load_model_quiet|]. intros _.
  apply with_NamedTemporaryFile_replies_once; [done|]. intros temp_video.
  apply with_NamedTemporaryFile_replies_once; [done|]. intros temp_audio.
  apply replies_once_bind; [apply get_file_quiet|]. intros video_file.
  apply replies_once_bind; [apply download_to_drive_quiet|]. intros _.
  apply replies_once_bind; [apply extract_audio_quiet|]. intros _.
  apply replies_once_bind; [apply process_audio_quiet|]. intros translated_text.
  apply with_NamedTemporaryFile_replies_once; [done|]. intros tts_file.
  apply with_NamedTemporaryFile_replies_once; [done|]. intros output_file.
  apply replies_once_bind; [apply gTTS_save_quiet|]. intros _.
  cbv zeta.
  apply replies_once_bind; [apply os_system_quiet|]. intros _.
  apply replies_once_bind; [apply read_file_quiet|]. intros f.
  apply send_replies_once. by exists f.
Qed.

(** What the chat is sent by a handler, on every path. *)
Lemma guarded_replies P ack lp err attempt w :
  orderly attempt → replies_once P attempt → faults E AckSend = None →
  let l := sent (events (guarded E ack lp err attempt w)) in
  l = [Text ack] ∨ l = [Text ack; Text err] ∨ ∃ b, P b ∧ l = [Text ack; b].
Proof.
  intros [_ Hquiet] Hone Hack l. subst l.
  rewrite (guarded_events E ack lp err attempt w Hack), !sent_app.
  set (x := attempt (set_next_message_id (S (next_message_id w)) w)).
  pose proof (Hone (set_next_message_id (S (next_message_id w)) w)) as Hone'.
  pose proof (Hquiet (set_next_message_id (S (next_message_id w)) w)) as Hquiet'.
  fold x in Hone', Hquiet'. clearbody x.
  assert (Hfar : sent (farewell_events E (mkMessage (next_message_id w))) = []).
  { unfold farewell_events. by destruct (faults E AckDelete). }
  rewrite Hfar, app_nil_r.
  destruct (result x) as [[]|e] eqn:Hx.
  - cbn [recovery_events]. change (sent []) with (@nil body). rewrite app_nil_r.
    destruct Hone' as [Hs|(b & Hb & Hs)]; rewrite Hs.
    + by left.
    + right. right. by exists b.
  - rewrite (quiet_sent _ (Hquiet' _ eq_refl)). unfold recovery_events.
    destruct (is_Exception e); [|by left].
    destruct (faults E ErrorSend); [by left|]. right. by left.
Qed.

End Replies.

(** X19.  On every path on which the acknowledgment was sent, whatever
    raises and wherever, the chat is sent by a handler one of three things:
    the acknowledgment alone; the acknowledgment and the fixed error text;
    or the acknowledgment and one media reply with the fixed title and
    performer (audio) or the fixed caption, streamable (video).  Never two
    replies, never a media reply together with the error text. *)
Theorem reply_is_one_of_three (E : env) (update : Update) (w : world) :
  faults E AckSend = None →
  (let l := sent (events (handle_audio E update w)) in
   l = [Text "🔊 Processing audio..."] ∨
   l = [Text "🔊 Processing audio..."; Text "❌ Error processing audio. Please try again."] ∨
   ∃ c, l = [Text "🔊 Processing audio..."; Audio c "Translated Audio" "Translation Bot"]) ∧
  (let l := sent (events (handle_video E update w)) in
   l = [Text "🎥 Processing video..."] ∨
   l = [Text "🎥 Processing video..."; Text "❌ Error processing video. Please try again."] ∨
   ∃ c, l = [Text "🎥 Processing video..."; Video c true "Translated Video"]).
Proof.
  intros Hack. rewrite handle_audio_guarded, handle_video_guarded. split.
  - destruct (guarded_replies E _ "🔊 Processing audio..." "Audio processing error: "
                audio_error _ w (audio_attempt_orderly E update)
                (audio_attempt_replies_once E update) Hack) as [H|[H|(b & [c ->] & H)]];
      [by left|right; by left|right; right; by exists c].
  - destruct (guarded_replies E _ "🎥 Processing video..." "Video processing error: "
                video_error _ w (video_attempt_orderly E update)
                (video_attempt_replies_once E update) Hack) as [H|[H|(b & [c ->] & H)]];
      [by left|right; by left|right; right; by exists c].
Qed.

Lemma reply_is_one_of_three_witness :
  faults (sample_env (fault_at Send boom)) AckSend = None ∧
  (sent (events (handle_audio (sample_env (fault_at Send boom)) audio_update empty_world)) =
     [Text "🔊 Processing audio..."] ∨
   sent (events (handle_audio (sample_env (fault_at Send boom)) audio_update empty_world)) =
     [Text "🔊 Processing audio..."; Text "❌ Error processing audio. Please try again."] ∨
   ∃ c, sent (events (handle_audio (sample_env (fault_at Send boom)) audio_update
                        empty_world)) =
     [Text "🔊 Processing audio..."; Audio c "Translated Audio" "Translation Bot"]).
Proof.
  split; [reflexivity|].
  exact (proj1 (reply_is_one_of_three (sample_env (fault_at Send boom)) audio_update
                  empty_world eq_refl)).
Defined.

(** * Rules for [preserves] *)

Section Preserves.
Context {S : Type} (P : S → Prop).

Lemma preserves_bind {A B} (m : Mon S A) (k : A → Mon S B) :
  preserves P m → (∀ a, preserves P (k a)) → preserves P (m ≫= k).
Proof.
  intros Hm Hk s Hs. specialize (Hm s Hs). unfold mbind, Mon_bind.
  destruct (m s) as [[[a|e] s1] ev1]; [|exact Hm].
  specialize (Hk a s1 Hm). by destruct (k a s1) as [[r s2] ev2].
Qed.

Lemma preserves_try_finally {A} (m : Mon S A) (f : Mon S unit) :
  preserves P m → preserves P f → preserves P (try_finally m f).
Proof.
  intros Hm Hf s Hs. specialize (Hm s Hs). unfold try_finally.
  destruct (m s) as [[r s1] ev1]. specialize (Hf s1 Hm).
  by destruct (f s1) as [[[[]|e] s2] ev2].
Qed.

Lemma preserves_try_except {A} (m : Mon S A) (h : exn → Mon S A) :
  preserves P m → (∀ e, preserves P (h e)) → preserves P (try_except m h).
Proof.
  intros Hm Hh s Hs. specialize (Hm s Hs). unfold try_except.
  destruct (m s) as [[[a|e] s1] ev1]; [exact Hm|].
  destruct (is_Exception e); [|exact Hm].
  specialize (Hh e s1 Hm). by destruct (h e s1) as [[r s2] ev2].
Qed.

Lemma preserves_fixes {A B} (proj : S → B) (Q : B → Prop) (m : Mon S A) :
  (∀ s, P s ↔ Q (proj s)) → fixes proj m → preserves P m.
Proof. intros HP Hm s Hs. apply HP. rewrite Hm. by apply HP. Qed.

End Preserves.

Section Self.
Context (E : env).

Lemma with_NamedTemporaryFile_fixes {A B} (proj : world → B) s sfx
    (body : path → Mon world A) :
  (∀ f w, proj (set_files f w) = proj w) →
  (∀ p, fixes proj (body p)) → fixes proj (with_NamedTemporaryFile E s sfx body).
Proof.
  intros Hproj Hbody. unfold with_NamedTemporaryFile.
  apply fixes_bind.
  { unfold NamedTemporaryFile. fix_tac. intros ?. apply Hproj. }
  intros p. apply fixes_try_finally; [apply Hbody|].
  unfold close_temporary, path_exists, unlink. fix_tac. intros ?. apply Hproj.
Qed.

Lemma process_audio_fixes_self f : fixes self (process_audio E f).
Proof. intros w. by injection (process_audio_fixes E f w). Qed.

Lemma audio_pipeline_fixes_self update :
  fixes self
    (with_NamedTemporaryFile E MkDownload ".ogg" (λ temp_audio,
       audio_file ← get_file E (audio update);
       download_to_drive E audio_file temp_audio;;
       translated_text ← process_audio E temp_audio;
       with_NamedTemporaryFile E MkSpeech ".mp3" (λ output_file,
         gTTS_save E translated_text "en" output_file;;
         f ← read_file output_file;
         reply_audio E f "Translated Audio" "Translation Bot";;
         mret tt))).
Proof.
  apply with_NamedTemporaryFile_fixes; [done|]. intros temp_audio.
  apply fixes_bind; [unfold get_file; fix_tac|]. intros audio_file.
  apply fixes_bind; [unfold download_to_drive, write_file; fix_tac|]. intros _.
  apply fixes_bind; [apply process_audio_fixes_self|]. intros translated_text.
  apply with_NamedTemporaryFile_fixes; [done|]. intros output_file.
  unfold gTTS_save, write_file, read_file, reply_audio, send. fix_tac.
Qed.

Lemma video_pipeline_fixes_self update :
  fixes self
    (with_NamedTemporaryFile E MkDownload ".mp4" (λ temp_video,
       with_NamedTemporaryFile E MkExtracted ".wav" (λ temp_audio,
         video_file ← get_file E (video update);
         download_to_drive E video_file temp_video;;
         extract_audio E temp_video temp_audio "pcm_s16le";;
         translated_text ← process_audio E temp_audio;
         with_NamedTemporaryFile E MkSpeech ".mp3" (λ tts_file,
           with_NamedTemporaryFile E MkOutput ".mp4" (λ output_file,
             gTTS_save E translated_text "en" tts_file;;
             let cmd := ffmpeg_cmd temp_video tts_file output_file in
             os_system E cmd output_file;;
             f ← read_file output_file;
             reply_video E f true "Translated Video";;
             mret tt))))).
Proof.
  apply with_NamedTemporaryFile_fixes; [done|]. intros temp_video.
  apply with_NamedTemporaryFile_fixes; [done|]. intros temp_audio.
  apply fixes_bind; [unfold get_file; fix_tac|]. intros video_file.
  apply fixes_bind; [unfold download_to_drive, write_file; fix_tac|]. intros _.
  apply fixes_bind; [unfold extract_audio, read_file, write_file; fix_tac|]. intros _.
  apply fixes_bind; [apply process_audio_fixes_self|]. intros translated_text.
  apply with_NamedTemporaryFile_fixes; [done|]. intros tts_file.
  apply with_NamedTemporaryFile_fixes; [done|]. intros output_file.
  unfold gTTS_save, os_system, write_file, read_file, reply_video, send. fix_tac.
Qed.

Lemma load_model_preserves (Q : TranslationBot → Prop) :
  (∀ b, Q b → model_loaded b = false → Q (mkBot (Some small_model) true)) →
  preserves (λ w, Q (self w)) (load_model E).
Proof.
  intros HQ w Hw.
  destruct (load_model_cases E w) as [[Hl Hr]|[(Hl & Hc & Hr)|(Hl & e & Hc & _ & Hf)]].
  - by rewrite Hr.
  - rewrite Hr. unfold final. cbn. by eapply HQ.
  - by rewrite Hf.
Qed.

Lemma guarded_preserves (Q : TranslationBot → Prop) ack lp err attempt :
  preserves (λ w, Q (self w)) attempt →
  preserves (λ w, Q (self w)) (guarded E ack lp err attempt).
Proof.
  intros Ha. unfold guarded.
  assert (Hfix : ∀ {A} (m : Mon world A), fixes self m → preserves (λ w, Q (self w)) m).
  { intros A m. by apply (preserves_fixes _ self Q). }
  apply preserves_bind; [apply Hfix; unfold reply_text, send; fix_tac|].
  intros processing_msg. apply preserves_try_finally.
  - apply preserves_try_except; [exact Ha|]. intros e.
    apply Hfix. unfold log, reply_text, send. fix_tac.
  - apply Hfix. unfold delete_message. fix_tac.
Qed.

Lemma handlers_preserve (Q : TranslationBot → Prop) update :
  (∀ b, Q b → model_loaded b = false → Q (mkBot (Some small_model) true)) →
  preserves (λ w, Q (self w)) (handle_audio E update) ∧
  preserves (λ w, Q (self w)) (handle_video E update).
Proof.
  intros HQ. rewrite handle_audio_guarded, handle_video_guarded.
  split; apply guarded_preserves.
  - unfold audio_attempt. apply preserves_bind; [by apply load_model_preserves|].
    intros _. apply (preserves_fixes _ self Q); [done|apply audio_pipeline_fixes_self].
  - unfold video_attempt. apply preserves_bind; [by apply load_model_preserves|].
    intros _. apply (preserves_fixes _ self Q); [done|apply video_pipeline_fixes_self].
Qed.

End Self.

(** X20.  On every path of either handler, whatever raises: a bot whose set
    flag comes with a model is left so, and a bot whose flag is set is left
    exactly as it was, so the model is constructed by the first requests
    only and is never replaced or dropped. *)
Theorem handlers_keep_model (E : env) (update : Update) (w : world) :
  let a := self (final (handle_audio E update w)) in
  let v := self (final (handle_video E update w)) in
  (bot_ready (self w) → bot_ready a ∧ bot_ready v) ∧
  (model_loaded (self w) = true → a = self w ∧ v = self w).
Proof.
  cbv zeta. split.
  - intros Hw.
    destruct (handlers_preserve E bot_ready update) as [Ha Hv].
    { intros b _ _ _. by eexists. }
    split; [by apply Ha|by apply Hv].
  - intros Hl.
    destruct (handlers_preserve E (λ b, b = self w) update) as [Ha Hv].
    { intros b -> Hb. congruence. }
    split; [by apply Ha|by apply Hv].
Qed.

Lemma handlers_keep_model_witness :
  model_loaded (self loaded_world) = true ∧
  self (final (handle_audio (sample_env (fault_at Translate boom)) audio_update
                 loaded_world)) = self loaded_world.
Proof.
  split; [reflexivity|].
  exact (proj1 (proj2 (handlers_keep_model (sample_env (fault_at Translate boom))
                         audio_update loaded_world) eq_refl)).
Defined.

(** * More sample runs *)

(** A first call on a fresh bot. *)
Lemma load_model_keeps_ready_witness :
  bot_ready (self empty_world) ∧
  bot_ready (self (final (load_model (sample_env no_faults) empty_world))).
Proof.
  assert (H : bot_ready (self empty_world)) by (intros H; discriminate H).
  split; [exact H|].
  exact (proj1 (load_model_keeps_ready (sample_env no_faults) empty_world) H).
Defined.

(** The second of two calls has returned. *)
Lemma lock_held_inside_block_only_witness :
  calls (run_schedule retry_schedule init) 1 = Returned ∧
  lock (run_schedule retry_schedule init) ≠ Some 1.
Proof.
  assert (H : calls (run_schedule retry_schedule init) 1 = Returned) by reflexivity.
  split; [exact H|].
  exact (proj2 (proj2 (lock_held_inside_block_only retry_schedule 1 0)) (or_introl H)).
Defined.

Lemma flag_set_means_model_witness :
  model_loaded (bot (run_schedule retry_schedule init)) = true ∧
  is_Some (model (bot (run_schedule retry_schedule init))).
Proof.
  split; [reflexivity|].
  exact (proj1 (flag_set_means_model retry_schedule []) eq_refl).
Defined.

(** The two sample segments, twice. *)
Lemma transcript_app_witness :
  sample_segments ≠ [] ∧
  transcript (sample_segments ++ sample_segments) = "salom dunyo salom dunyo".
Proof.
  assert (H : sample_segments ≠ []) by discriminate.
  split; [exact H|].
  exact (proj2 transcript_app sample_segments sample_segments H H).
Defined.

(** * The constructor, request by request *)

Lemma no_construct_calls evs :
  Forall (λ ev, no_construct ev = true) evs → calls_at Construct evs = [].
Proof.
  induction 1 as [|ev evs Hev _ IH]; [done|].
  destruct ev as [s a| | | | | | |]; try exact IH.
  destruct s; try exact IH. done.
Qed.

Lemma plain_no_construct ev : plain ev = true → no_construct ev = true.
Proof. by destruct ev. Qed.

Section Construction.
Context (E : env).

Lemma with_NamedTemporaryFile_no_construct {A} s sfx (body : path → Mon world A) :
  s ≠ Construct → (∀ p, obeys no_construct (body p)) →
  obeys no_construct (with_NamedTemporaryFile E s sfx body).
Proof.
  intros Hs Hbody. unfold with_NamedTemporaryFile.
  apply obeys_bind.
  { unfold NamedTemporaryFile. apply obeys_call; [by destruct s..|]. obey. }
  intros p. apply obeys_try_finally;
    [apply plain_no_construct|apply Hbody|apply close_temporary_harmless].
Qed.

Lemma process_audio_no_construct f : obeys no_construct (process_audio E f).
Proof.
  unfold process_audio. apply obeys_in_frame.
  apply obeys_try_finally;
    [apply plain_no_construct| |apply process_audio_finally_harmless].
  unfold process_audio_try, bind_local, from_file, normalize, NamedTemporaryFile,
    export, transcribe_and_translate, transcribe, translate, read_file, write_file.
  repeat (apply obeys_bind; [|intros ?]); try apply obeys_lift; obey.
Qed.

Lemma audio_pipeline_no_construct update :
  obeys no_construct
    (with_NamedTemporaryFile E MkDownload ".ogg" (λ temp_audio,
       audio_file ← get_file E (audio update);
       download_to_drive E audio_file temp_audio;;
       translated_text ← process_audio E temp_audio;
       with_NamedTemporaryFile E MkSpeech ".mp3" (λ output_file,
         gTTS_save E translated_text "en" output_file;;
         f ← read_file output_file;
         reply_audio E f "Translated Audio" "Translation Bot";;
         mret tt))).
Proof.
  apply with_NamedTemporaryFile_no_construct; [done|]. intros temp_audio.
  apply obeys_bind; [unfold get_file; obey|]. intros audio_file.
  apply obeys_bind; [unfold download_to_drive, write_file; obey|]. intros _.
  apply obeys_bind; [apply process_audio_no_construct|]. intros translated_text.
  apply with_NamedTemporaryFile_no_construct; [done|]. intros output_file.
  unfold gTTS_save, write_file, read_file, reply_audio, send. obey.
Qed.

Lemma video_pipeline_no_construct update :
  obeys no_construct
    (with_NamedTemporaryFile E MkDownload ".mp4" (λ temp_video,
       with_NamedTemporaryFile E MkExtracted ".wav" (λ temp_audio,
         video_file ← get_file E (video update);
         download_to_drive E video_file temp_video;;
         extract_audio E temp_video temp_audio "pcm_s16le";;
         translated_text ← process_audio E temp_audio;
         with_NamedTemporaryFile E MkSpeech ".mp3" (λ tts_file,
           with_NamedTemporaryFile E MkOutput ".mp4" (λ output_file,
             gTTS_save E translated_text "en" tts_file;;
             let cmd := ffmpeg_cmd temp_video tts_file output_file in
             os_system E cmd output_file;;
             f ← read_file output_file;
             reply_video E f true "Translated Video";;
             mret tt))))).
Proof.
  apply with_NamedTemporaryFile_no_construct; [done|]. intros temp_video.
  apply with_NamedTemporaryFile_no_construct; [done|]. intros temp_audio.
  apply obeys_bind; [unfold get_file; obey|]. intros video_file.
  apply obeys_bind; [unfold download_to_drive, write_file; obey|]. intros _.
  apply obeys_bind; [unfold extract_audio, read_file, write_file; obey|]. intros _.
  apply obeys_bind; [apply process_audio_no_construct|]. intros translated_text.
  apply with_NamedTemporaryFile_no_construct; [done|]. intros tts_file.
  apply with_NamedTemporaryFile_no_construct; [done|]. intros output_file.
  unfold gTTS_save, os_system, write_file, read_file, reply_video, send. obey.
Qed.

(** The constructor calls of an attempt are those of its [load_model]. *)
Lemma attempt_constructs {A} (rest : Mon world A) w :
  obeys no_construct rest →
  calls_at Construct (events ((load_model E;; rest) w)) =
  if model_loaded (self w) then [] else [construct_args].
Proof.
  intros [_ Hrest].
  assert (Hload : calls_at Construct (events (load_model E w)) =
                  if model_loaded (self w) then [] else [construct_args]).
  { destruct (model_loaded (self w)) eqn:Hl.
    - by rewrite (load_model_loaded E w Hl).
    - by apply load_model_constructs. }
  rewrite <- Hload. unfold mbind, Mon_bind.
  destruct (load_model E w) as [[[[]|e] w1] ev1]; [|done].
  specialize (Hrest w1). destruct (rest w1) as [[r w2] ev2].
  unfold events in *. cbn [fst snd] in *.
  by rewrite calls_at_app, (no_construct_calls _ Hrest), app_nil_r.
Qed.

Lemma guarded_constructs ack lp err attempt w :
  faults E AckSend = None →
  calls_at Construct (events (guarded E ack lp err attempt w)) =
  calls_at Construct (events (attempt (set_next_message_id (S (next_message_id w)) w))).
Proof.
  intros Hack. rewrite (guarded_events E ack lp err attempt w Hack), !calls_at_app.
  assert (Hrec : ∀ r n, calls_at Construct (recovery_events E lp err r n) = []).
  { intros [[]|e] n; [done|]. unfold recovery_events.
    destruct (is_Exception e); [|done]. by destruct (faults E ErrorSend). }
  assert (Hfar : ∀ m, calls_at Construct (farewell_events E m) = []).
  { intros m. unfold farewell_events. by destruct (faults E AckDelete). }
  rewrite Hrec, Hfar. cbn [app]. by rewrite app_nil_r.
Qed.

End Construction.

(** X21.  On every path of a request that was acknowledged, whatever raises:
    a handler calls the constructor of the model once, with the small model
    on the CPU in int8 under ./models, when the flag is unset, and not at
    all when the flag is set. *)
Theorem constructor_called_by_need (E : env) (update : Update) (w : world) :
  faults E AckSend = None →
  let calls := if model_loaded (self w) then [] else [construct_args] in
  calls_at Construct (events (handle_audio E update w)) = calls ∧
  calls_at Construct (events (handle_video E update w)) = calls.
Proof.
  intros Hack calls. subst calls.
  rewrite handle_audio_guarded, handle_video_guarded, !guarded_constructs by done.
  split.
  - unfold audio_attempt.
    by rewrite (attempt_constructs E _ _ (audio_pipeline_no_construct E update)).
  - unfold video_attempt.
    by rewrite (attempt_constructs E _ _ (video_pipeline_no_construct E update)).
Qed.

Lemma constructor_called_by_need_witness :
  faults (sample_env no_faults) AckSend = None ∧
  calls_at Construct
    (events (handle_video (sample_env no_faults) video_update
               (final (handle_audio (sample_env no_faults) audio_update empty_world)))) = [].
Proof.
  split; [reflexivity|].
  exact (proj2 (constructor_called_by_need (sample_env no_faults) video_update
    (final (handle_audio (sample_env no_faults) audio_update empty_world)) eq_refl)).
Defined.

(** * A stage that fails alone *)

Lemma events_process_audio_try E f w ev :
  In ev (events (process_audio_try E f (w, None))) → In ev (events (process_audio E f w)).
Proof.
  intros Hin. unfold process_audio, in_frame.
  pose proof (events_try_finally (process_audio_try E f) process_audio_finally
                (w, None) ev Hin) as H.
  by destruct (try_finally _ _ (w, None)) as [[r s1] ev1].
Qed.

Lemma events_lift_fault E {L A} (st : site) args (k : Mon world A) w (l : L) e :
  faults E st = Some e → In (Fault st e) (events (lift (call E st args k) (w, l))).
Proof.
  intros Hst. rewrite (lift_run _ _ _ _ _ _ (call_fault E st args k w e Hst)).
  right. by left.
Qed.

Section Reached.
Context (E : env) (s : site) (e : exn).
Context (Hs : faults E s = Some e) (Hothers : ∀ s', s' ≠ s → faults E s' = None).
Context (Hstage : pipeline_stage s = true).

Lemma other_site s' : pipeline_stage s' = false → faults E s' = None.
Proof. intros H. apply Hothers. intros Heq. rewrite Heq in H. congruence. Qed.

(** [process_audio] on a readable input with a model in place: the stage
    that fails is one of its own and is reached, or it goes through. *)
Lemma process_audio_reached f w c mdl :
  files w !! f = Some c → model (self w) = Some mdl →
  In (Fault s e) (events (process_audio E f w)) ∨
  (s ≠ Decode ∧ s ≠ Convert ∧ s ≠ Export ∧ s ≠ Transcribe ∧ s ≠ Translate ∧
   ∃ ev, process_audio E f w = (Ok (translation_of E c), w, ev)).
Proof.
  intros Hf Hm.
  destruct (decide (s = Decode)) as [Heq|H1].
  { pose proof Hs as Hs'. rewrite Heq in Hs'. rewrite Heq. left. apply events_process_audio_try. unfold process_audio_try.
    apply events_bind_head. unfold from_file. by apply events_lift_fault. }
  destruct (decide (s = Convert)) as [Heq|H2].
  { pose proof Hs as Hs'. rewrite Heq in Hs'. rewrite Heq. left. apply events_process_audio_try. unfold process_audio_try.
    eapply events_bind; [apply lift_run, from_file_ok; [apply Hothers; by apply not_eq_sym|exact Hf]|].
    apply events_bind_head. unfold normalize. by apply events_lift_fault. }
  destruct (decide (s = Export)) as [Heq|H4].
  { pose proof Hs as Hs'. rewrite Heq in Hs'. rewrite Heq. left. apply events_process_audio_try. unfold process_audio_try.
    eapply events_bind; [apply lift_run, from_file_ok; [apply Hothers; by apply not_eq_sym|exact Hf]|].
    eapply events_bind; [apply lift_run, normalize_ok, Hothers; by apply not_eq_sym|].
    eapply events_bind; [by apply lift_run, NamedTemporaryFile_ok, other_site|].
    eapply events_bind; [reflexivity|].
    apply events_bind_head. unfold export. by apply events_lift_fault. }
  destruct (process_audio_exported E f w c) as (Hw & Hr & Hfin & Hev);
    [first [by apply other_site|apply Hothers; by apply not_eq_sym]..|exact Hf|].
  destruct (decide (s = Transcribe)) as [Heq|H5].
  { pose proof Hs as Hs'. rewrite Heq in Hs'. rewrite Heq. left. rewrite Hev. apply in_or_app. right. apply in_or_app. left.
    unfold transcribe_and_translate. apply events_bind_head.
    unfold transcribe. rewrite (call_fault E _ _ _ _ _ Hs'). right. by left. }
  destruct (decide (s = Translate)) as [Heq|H6].
  { pose proof Hs as Hs'. rewrite Heq in Hs'. rewrite Heq. left. rewrite Hev. apply in_or_app. right. apply in_or_app. left.
    unfold transcribe_and_translate.
    eapply events_bind.
    { match type of Hw with files ?w3 !! _ = _ =>
        exact (transcribe_ok E _ w3 _ mdl (Hothers Transcribe (not_eq_sym H5)) Hm Hw) end. }
    destruct (recognized E _) as [segments info]. cbv zeta.
    apply events_bind_head. unfold translate.
    rewrite (call_fault E _ _ _ _ _ Hs'). right. by left. }
  right. repeat (split; [done|]).
  match type of Hw with files ?w3 !! _ = _ =>
    rewrite (transcribe_and_translate_ok E _ w3 _ mdl
               (Hothers Transcribe (not_eq_sym H5)) (Hothers Translate (not_eq_sym H6)) Hm Hw)
      in Hr, Hev end.
  destruct (process_audio E f w) as [[r w'] ev].
  unfold result, final, events in *. cbn [fst snd] in *. subst. by eexists.
Qed.

Context (He : is_Exception e = true).

(** [load_model] at the head of an attempt: the constructor is the stage
    that fails and is reached, or a model is in place afterwards. *)
Lemma load_model_reached w :
  (model_loaded (self w) = true → is_Some (model (self w))) →
  (s = Construct → model_loaded (self w) = false) →
  In (Fault s e) (events (load_model E w)) ∨
  (s ≠ Construct ∧
   ∃ b mdl ev, load_model E w = (Ok tt, mkWorld b (files w) (next_message_id w), ev) ∧
               model b = Some mdl).
Proof.
  intros Hready Hfresh. destruct (decide (s = Construct)) as [->|Hc].
  - left. rewrite (load_model_failed E w e (Hfresh eq_refl) Hs He).
    right. right. by left.
  - right. split; [done|].
    destruct (load_model_ready E w (Hothers Construct (not_eq_sym Hc))) as (b & ev & Hload & Hb).
    destruct (Hb Hready) as [mdl Hmdl]. by exists b, mdl, ev.
Qed.

Lemma audio_attempt_reached update w att :
  (model_loaded (self w) = true → is_Some (model (self w))) →
  (s = Construct → model_loaded (self w) = false) →
  audio update = Some att → s ≠ ExtractAudio → s ≠ Mux →
  In (Fault s e) (events (audio_attempt E update w)).
Proof.
  intros Hready Hfresh Ha Hx Hmux. unfold audio_attempt.
  destruct (load_model_reached w Hready Hfresh)
    as [Hin|(Hc & b & mdl & ev0 & Hload & Hmdl)]; [by apply events_bind_head|].
  eapply events_bind; [exact Hload|].
  apply events_with_NamedTemporaryFile; [by apply other_site|].
  rewrite Ha.
  eapply events_bind; [by apply get_file_ok, other_site|].
  eapply events_bind; [by apply download_to_drive_ok, other_site|].
  match goal with |- In _ (events ((process_audio E ?p ≫= _) ?w4)) =>
    destruct (process_audio_reached p w4 (served E (file_id att)) mdl)
      as [Hin|(H1 & H2 & H4 & H5 & H6 & ev1 & Hpa)];
      [apply lookup_insert_eq|exact Hmdl|by apply events_bind_head|] end.
  eapply events_bind; [exact Hpa|].
  apply events_with_NamedTemporaryFile; [by apply other_site|].
  apply events_bind_head. unfold gTTS_save.
  assert (Heq : s = Synthesize) by (by destruct s).
  pose proof Hs as Hs'. rewrite Heq in Hs'. rewrite Heq.
  rewrite (call_fault E _ _ _ _ _ Hs'). right. by left.
Qed.

Lemma video_attempt_reached update w att a :
  (model_loaded (self w) = true → is_Some (model (self w))) →
  (s = Construct → model_loaded (self w) = false) →
  video update = Some att → clip_audio E (served E (file_id att)) = Some a →
  In (Fault s e) (events (video_attempt E update w)).
Proof.
  intros Hready Hfresh Hv Hclip. unfold video_attempt.
  destruct (load_model_reached w Hready Hfresh)
    as [Hin|(Hc & b & mdl & ev0 & Hload & Hmdl)]; [by apply events_bind_head|].
  eapply events_bind; [exact Hload|].
  do 2 (apply events_with_NamedTemporaryFile; [by apply other_site|]).
  rewrite Hv.
  eapply events_bind; [by apply get_file_ok, other_site|].
  eapply events_bind; [by apply download_to_drive_ok, other_site|].
  destruct (decide (s = ExtractAudio)) as [Heq|Hx].
  { pose proof Hs as Hs'. rewrite Heq in Hs'. rewrite Heq. apply events_bind_head. unfold extract_audio.
    rewrite (call_fault E _ _ _ _ _ Hs'). right. by left. }
  eapply events_bind.
  { eapply extract_audio_ok; [apply Hothers; by apply not_eq_sym| |exact Hclip]. apply lookup_insert_eq. }
  match goal with |- In _ (events ((process_audio E ?p ≫= _) ?w5)) =>
    destruct (process_audio_reached p w5 (Wav a) mdl)
      as [Hin|(H1 & H2 & H4 & H5 & H6 & ev1 & Hpa)];
      [apply lookup_insert_eq|exact Hmdl|by apply events_bind_head|] end.
  eapply events_bind; [exact Hpa|].
  do 2 (apply events_with_NamedTemporaryFile; [by apply other_site|]).
  destruct (decide (s = Synthesize)) as [Heq|Hsyn].
  { pose proof Hs as Hs'. rewrite Heq in Hs'. rewrite Heq. apply events_bind_head. unfold gTTS_save.
    rewrite (call_fault E _ _ _ _ _ Hs'). right. by left. }
  eapply events_bind; [apply gTTS_save_ok, Hothers; by apply not_eq_sym|]. cbv zeta.
  apply events_bind_head. unfold os_system.
  assert (Heq : s = Mux) by (by destruct s).
  pose proof Hs as Hs'. rewrite Heq in Hs'. rewrite Heq.
  rewrite (call_fault E _ _ _ _ _ Hs'). right. by left.
Qed.

End Reached.

Section Caught.
Context (E : env).

(** An [Exception] raised at a call inside the [try] block stops at the
    handler: it is logged, answered by the fixed text and by nothing else,
    and what the handler ends with is decided by the deletion alone. *)
Lemma guarded_caught ack lp err attempt w s e :
  orderly attempt → chat_edge s = false → is_Exception e = true →
  faults E ErrorSend = None →
  let x := guarded E ack lp err attempt w in
  In (Fault s e) (events x) →
  result x = match faults E AckDelete with Some e' => Raise e' | None => Ok tt end ∧
  In (Logged "ERROR" (lp +:+ str_exn e)) (events x) ∧
  sent (events x) = [Text ack; Text err].
Proof.
  intros Hord Hs He Herr x Hin. subst x.
  split; [|split; [|by eapply guarded_failure]].
  - destruct (faults E AckSend) as [e0|] eqn:Hack.
    { rewrite (guarded_unacknowledged E _ _ _ _ _ _ Hack) in Hin.
      destruct Hin as [H|[H|[]]]; [done|]. injection H as <- _. done. }
    pose proof (guarded_fault_inside E _ _ _ _ _ _ _ Hord Hs Hack Hin) as Hx.
    by rewrite (guarded_result E ack lp err attempt w Hack), Hx, He, Herr.
  - destruct (faults E AckSend) as [e0|] eqn:Hack.
    { rewrite (guarded_unacknowledged E _ _ _ _ _ _ Hack) in Hin.
      destruct Hin as [H|[H|[]]]; [done|]. injection H as <- _. done. }
    pose proof (guarded_fault_inside E _ _ _ _ _ _ _ Hord Hs Hack Hin) as Hx.
    rewrite (guarded_events E ack lp err attempt w Hack), Hx.
    unfold recovery_events. rewrite He. apply in_or_app. right.
    apply in_or_app. right. apply in_or_app. left. by left.
Qed.

Lemma guarded_reached ack lp err attempt w s e :
  faults E AckSend = None →
  In (Fault s e) (events (attempt (set_next_message_id (S (next_message_id w)) w))) →
  In (Fault s e) (events (guarded E ack lp err attempt w)).
Proof.
  intros Hack Hin. rewrite (guarded_events E ack lp err attempt w Hack).
  apply in_or_app. right. apply in_or_app. by left.
Qed.

End Caught.

(** C2.  An exception raised by a pipeline stage (model construction,
    decoding, conversion, audio extraction, export, transcription,
    translation, synthesis, the mux command) inside a handler stops at the
    handler: it is logged with the prefix of the media kind, the chat is sent
    the acknowledgment and then the fixed error text of the media kind and
    nothing else (no other text, no audio, no video), and the handler returns
    normally unless the deletion of the acknowledgment raises.  And a stage
    that fails alone in a request that would otherwise go through is
    reached, so the request ends that way. *)
Theorem stage_failure_fixed_reply (E : env) (update : Update) (w : world)
    (s : site) (e : exn) :
  pipeline_stage s = true → is_Exception e = true → faults E ErrorSend = None →
  (let x := handle_audio E update w in
   In (Fault s e) (events x) →
   result x = match faults E AckDelete with Some e' => Raise e' | None => Ok tt end ∧
   In (Logged "ERROR" ("Audio processing error: " +:+ str_exn e)) (events x) ∧
   sent (events x) =
     [Text "🔊 Processing audio..."; Text "❌ Error processing audio. Please try again."]) ∧
  (let x := handle_video E update w in
   In (Fault s e) (events x) →
   result x = match faults E AckDelete with Some e' => Raise e' | None => Ok tt end ∧
   In (Logged "ERROR" ("Video processing error: " +:+ str_exn e)) (events x) ∧
   sent (events x) =
     [Text "🎥 Processing video..."; Text "❌ Error processing video. Please try again."]) ∧
  (faults E s = Some e → (∀ s', s' ≠ s → faults E s' = None) →
   (model_loaded (self w) = true → is_Some (model (self w))) →
   (s = Construct → model_loaded (self w) = false) →
   (∀ att, audio update = Some att → s ≠ ExtractAudio → s ≠ Mux →
      let x := handle_audio E update w in
      In (Fault s e) (events x) ∧ result x = Ok tt ∧
      sent (events x) =
        [Text "🔊 Processing audio..."; Text "❌ Error processing audio. Please try again."]) ∧
   (∀ att a, video update = Some att → clip_audio E (served E (file_id att)) = Some a →
      let x := handle_video E update w in
      In (Fault s e) (events x) ∧ result x = Ok tt ∧
      sent (events x) =
        [Text "🎥 Processing video..."; Text "❌ Error processing video. Please try again."])).
Proof.
  intros Hstage He Herr.
  pose proof (pipeline_stage_inside s Hstage) as Hin.
  assert (Ha : ∀ x, x = handle_audio E update w → In (Fault s e) (events x) →
    result x = match faults E AckDelete with Some e' => Raise e' | None => Ok tt end ∧
    In (Logged "ERROR" ("Audio processing error: " +:+ str_exn e)) (events x) ∧
    sent (events x) =
      [Text "🔊 Processing audio..."; Text "❌ Error processing audio. Please try again."]).
  { intros x ->. rewrite handle_audio_guarded.
    apply guarded_caught; auto using audio_attempt_orderly. }
  assert (Hv : ∀ x, x = handle_video E update w → In (Fault s e) (events x) →
    result x = match faults E AckDelete with Some e' => Raise e' | None => Ok tt end ∧
    In (Logged "ERROR" ("Video processing error: " +:+ str_exn e)) (events x) ∧
    sent (events x) =
      [Text "🎥 Processing video..."; Text "❌ Error processing video. Please try again."]).
  { intros x ->. rewrite handle_video_guarded.
    apply guarded_caught; auto using video_attempt_orderly. }
  split; [by apply Ha|]. split; [by apply Hv|].
  intros Hs Hothers Hready Hfresh.
  assert (Hack : faults E AckSend = None) by (apply Hothers; by intros <-).
  assert (Hdel : faults E AckDelete = None) by (apply Hothers; by intros <-).
  split.
  - intros att Hatt Hx Hmux x.
    assert (Hreach : In (Fault s e) (events x)).
    { subst x. rewrite handle_audio_guarded. apply guarded_reached; [done|].
      by eapply audio_attempt_reached. }
    destruct (Ha x eq_refl Hreach) as (Hr & _ & Hsent). by rewrite Hdel in Hr.
  - intros att a Hatt Hclip x.
    assert (Hreach : In (Fault s e) (events x)).
    { subst x. rewrite handle_video_guarded. apply guarded_reached; [done|].
      by eapply video_attempt_reached. }
    destruct (Hv x eq_refl Hreach) as (Hr & _ & Hsent). by rewrite Hdel in Hr.
Qed.

(** The translator raising, in an audio request and in a video request. *)
Lemma stage_failure_fixed_reply_witness :
  (In (Fault Translate boom)
      (events (handle_audio (sample_env (fault_at Translate boom)) audio_update
                 empty_world)) ∧
   result (handle_audio (sample_env (fault_at Translate boom)) audio_update empty_world) =
     Ok tt ∧
   sent (events (handle_audio (sample_env (fault_at Translate boom)) audio_update
                   empty_world)) =
     [Text "🔊 Processing audio..."; Text "❌ Error processing audio. Please try again."]) ∧
  (In (Fault Translate boom)
      (events (handle_video (sample_env (fault_at Translate boom)) video_update
                 empty_world)) ∧
   result (handle_video (sample_env (fault_at Translate boom)) video_update empty_world) =
     Ok tt ∧
   sent (events (handle_video (sample_env (fault_at Translate boom)) video_update
                   empty_world)) =
     [Text "🎥 Processing video..."; Text "❌ Error processing video. Please try again."]).
Proof.
  assert (Hothers : ∀ s', s' ≠ Translate →
            faults (sample_env (fault_at Translate boom)) s' = None).
  { intros s' Hne. by destruct s'. }
  assert (Hready : model_loaded (self empty_world) = true →
                   is_Some (model (self empty_world))) by (intros H; discriminate H).
  assert (Hfresh : Translate = Construct → model_loaded (self empty_world) = false)
    by (intros H; discriminate H).
  split.
  - exact (proj1 (proj2 (proj2 (stage_failure_fixed_reply
      (sample_env (fault_at Translate boom)) audio_update empty_world Translate boom
      eq_refl eq_refl eq_refl)) eq_refl Hothers Hready Hfresh)
      (mkAttachment "voice-1") eq_refl ltac:(discriminate) ltac:(discriminate)).
  - exact (proj2 (proj2 (proj2 (stage_failure_fixed_reply
      (sample_env (fault_at Translate boom)) video_update empty_world Translate boom
      eq_refl eq_refl eq_refl)) eq_refl Hothers Hready Hfresh)
      (mkAttachment "clip-1") (mkAudio 44100 2 2 5000) eq_refl eq_refl).
Defined.
